(* ===== verification/_CoqProject ===== *)
-Q . S2P
Prelude.v
Layout.v
Memory.v
Handle.v
HandleScope.v
Thread.v
StackHandleScope.v
Refinement.v
Execution.v
JniStub.v
Threads.v
MutatorLock.v
