(* ===== verification/Prelude.v ===== *)
(** * Verification of ART's handle scopes ([src/art/runtime/handle_scope.h])

    ** The program

    A handle scope is a block of memory on a thread's native stack holding
    the object references native code uses, so that the garbage collector
    can find (and update) them.  [handle_scope.h] declares
    - [HandleScope]: a header, [link_] (the previous scope of the thread)
      and a 32-bit [number_of_references_], followed by an array of
      compressed [StackReference] slots; the byte size and offset queries
      the JNI compiler uses ([SizeOf], [GetAlignedHandleScopeSize],
      [GetAlignedHandleScopeSizeTarget], [LinkOffset],
      [NumberOfReferencesOffset], [ReferencesOffset]); indexed accessors
      guarded by [DCHECK]s; [Contains] by address comparison;
    - [HandleWrapper<T>]: remembers a raw [T**] and a handle and writes
      the handle's value back through the raw pointer when destroyed;
    - [StackHandleScope<kNumReferences>]: a scope with inline slots, a
      cursor [pos_] and its thread [self_]; [NewHandle] and
      [NewHandleWrapper] fill the next slot.
    The parts interact through the thread: a [StackHandleScope]
    constructor clears its slots and pushes the scope on the thread's
    chain ([Thread::PushHandleScope]); its destructor pops it and checks
    that it was the innermost; the collector walks the chain
    ([Thread::HandleScopeVisitRoots]) and the JNI code asks whether an
    address is a slot of some scope ([Thread::HandleScopeContains]).
    The JNI compiler's stubs build the same structure in their frames
    through the offset queries alone and link it into the chain by hand;
    every thread has its own chain on its own stack, and the collector
    visits all threads' chains ([ThreadList::VisitRoots]).
    Those thread functions, the stubs, [Handle<T>], [StackReference],
    [RoundUp] and the constructor and destructor bodies
    (handle_scope-inl.h) are outside [src/]; they are modelled from the
    specification and marked so in the project map.

    ** Files, modules and how they correspond to the code

    - [Prelude] (this file): [w]-bit wrap-around ([wrap], [u32],
      [size_t p] for a build with [p]-byte pointers), the class
      [PointerSize] (4 or 8), the type [fault] of contract violations (one
      constructor per [DCHECK] kind, [BadAddress] for a read of memory the
      model does not hold, [OutOfFuel]), and the state/error monad [SE]
      in which every stateful function of the code is written, with its
      notations in [hs_scope], hint databases [hs] and [hs_rw] and the
      monad laws.  The build configuration: the class [BuildConfig] with
      [kIsDebugBuild] (settings [debug_build], [release_build]) and
      [DCHECK], which evaluates its condition only in a debug build;
      [se_le] (every successful run of one computation is a run of
      another) with its hint database [se_le], used to compare the
      builds.
    - [Layout] (Module [Layout]): the size and offset queries, [RoundUp]
      and [RoundDown] of utils.h with [size_t] wrap-around, the C++
      struct layout rule that [OFFSETOF_MEMBER] observes, and the class
      layout of [StackHandleScope] over its base, with or without reuse of
      the base's tail padding.
    - [Memory] (Module [Memory]): a [World] is a flat memory (one value
      per field address, [gmap Z Z]) and the table of each thread's
      [tlsPtr_.top_handle_scope]; [StackReference] assignment truncates
      to 32 bits.
    - [Handle] (Module [Handle]): [Handle<T>::Get], the [HandleWrapper]
      record and its destructor.
    - [HandleScope] (Module [HandleScope]): every member function of
      [HandleScope] on a scope at address [this], the empty destructor
      included: fields at the compiler's offsets, [&references_[i]] as [size_t] pointer arithmetic, each
      [DCHECK] where the source has it.  Every operation of this and the
      following files takes the build as an instance of [BuildConfig];
      lemmas that depend on the checks say [kIsDebugBuild = true].
    - [Thread] (Module [Thread]): the chain head, push and pop, the root
      walk with a callback that threads a state and may move objects, and
      [HandleScopeContains].
    - [StackHandleScope] (Module [StackHandleScope]): the object's
      private fields as a record, the constructor, destructor, [NewHandle]
      and [NewHandleWrapper], composed from the calls above as the code
      composes them.
    - [Refinement] (Module [Refinement]): the abstract contract, a stack
      of scopes (base address and slot values, newest first) whose roots
      are the non-null slots; [world_rep] relates a [World] to it, with an
      executable checker [world_repb] proved sound; simulation lemmas for
      every operation; the collector walk (with marking or moving root
      callbacks) and [HandleScopeContains] refine their abstract
      counterparts.
    - [Execution] (Module [Execution]): one thread's native code as a
      step relation over configurations (the world and the live
      [StackHandleScope] objects, innermost first): open a scope in fresh
      stack memory, [NewHandle], [SetReference], destroy the innermost
      object, a garbage collection with any root callback ([code_step]),
      or any other native store outside the scopes.  The invariant holds
      in every configuration a debug build reaches, by rule induction;
      each [code_step] is [confined] to the live scopes; every debug
      run is a release run (the checks only read memory), and what the
      release build does where the debug build's [DCHECK_EQ] fails.
    - [JniStub] (Module [JniStub]): a compiled JNI stub's entry
      ([stub_push]: count, link copied from the thread's head, head set to
      the frame's table, arguments spilled at [ReferencesOffset]) and exit
      ([stub_pop]: [JniMethodEnd]'s [Thread::PopHandleScope]), written with the
      offset queries only, and a native call [stub_call] between them;
      [materialize_table] builds the same table through the C++ API.
    - [Threads] (Module [Threads]): all threads: a pool maps each thread
      to its stack bounds and live objects; a pool step is one thread's
      [code_step] (its objects on its stack), a native store outside every
      scope, the attach of a thread ([Thread_Init] nulls its head) or a
      collection over all threads ([ThreadList_VisitRoots]); steps of
      different threads interleave freely.  The pool invariant (every
      thread's invariant of [Execution], stacks pairwise disjoint) holds in
      every reachable pool, by rule induction.
    - [MutatorLock] (Module [MutatorLock]): the protocol that
      [SHARED_LOCKS_REQUIRED(Locks::mutator_lock_)] names: each thread's
      run state ([kRunnable], [kSuspended]); shared acquisition
      ([TransitionFromSuspendedToRunnable], refused while the collector
      holds the lock) and release; [SuspendAll], which takes the lock
      exclusively once every thread is suspended; the collector's walk as
      one [HandleScopeVisitRoots] step per thread, interleaved with native
      stores and thread attaches, and the release as a step rule.  A
      thread's code runs only while it is runnable.  The result of the
      atomic [ThreadList_VisitRoots] at [SuspendAll] is kept as ghost state
      in the collector's phase; the invariant [linv] ties it to the
      abstract walk over the chains still to visit.

    ** What the theorems show

    - Lifecycle and chain discipline (Execution, Refinement; C1-C13):
      in a debug build every reachable configuration, collections
      included, represents a well-formed, disjoint stack of scopes in
      object order (C1); the collector's walk visits exactly the live
      roots (C2); a scope's construction, allocations and destruction
      restore the previous chain (C3); every call of the code writes only
      inside live scopes and no other thread's chain head (C4, safety);
      the thread can always unwind to an empty chain (C5, liveness);
      destroying an interior scope fails its [DCHECK_EQ] (C6); handles
      read back what [NewHandle] stored (C7); a [HandleWrapper] writes
      the slot's final value back (C8); in a release build destroying an
      interior scope unlinks the innermost live one instead and leaves
      the destroyed one on the chain (C9); the collector walk with marking or moving callbacks refines
      the abstract one (C10, C11); [HandleScopeContains] is the abstract
      membership test (C12); [NewHandle] past capacity fails
      [DCHECK_LT] (C13).
    - Accessors (HandleScope; C14-C20): what a release build does instead
      of failing [DCHECK_LT] (C14: the write lands on or just before
      [self_]); set/get round trip up to compression, index guards,
      [GetHandle] agrees with [GetReference], [SetLink]'s self-link guard
      in each build, [Contains] exactly on slot start addresses, and
      [&references_[i]] is [&references_storage_[i]] of a
      [StackHandleScope].
    - Layout (Layout; C21-C25): the offset queries agree with the
      compiler's layout, the target query agrees with the native one, the
      aligned size bounds [SizeOf], the overflow point on 32-bit builds,
      and the host dependence of the cross-compilation query (a 32-bit
      host computes the 64-bit host's result modulo 2^32).  Lemmas of the
      file also show that the aligned size is always a multiple of 8,
      that nothing wraps on 64-bit builds or hosts, and that the alias of
      C20 needs the ABI's reuse of the base's tail padding.
    - C26 (Refinement): an empty scope on the chain, reached before any
      scope holding the entry, makes a debug build's [HandleScopeContains]
      abort, with C12 the exact behaviour of the walk.
    - JNI stubs (JniStub; C27-C30, C35): a stub whose frame reserves
      [GetAlignedHandleScopeSizeTarget] bytes builds a table that the
      runtime sees as a pushed scope, writing nothing outside the
      reservation (C27); the C++ accessors read back its count, link and
      arguments in either build (C28); the collector sees its arguments
      (C29); a call through the stub restores the caller's chain (C30);
      a table built through the C++ API ([materialize_table]) is the
      stub's, byte for byte (C35).
    - All threads (Threads; C31-C34): the pool invariant holds in every
      reachable pool (C31); one thread's call never changes another
      thread's abstract stack (C32, the chains are private); a collection
      over all threads records every thread's roots (C33); any thread can
      unwind on its own (C34).
    - The mutator lock (MutatorLock; C36-C38): while the collector holds
      the lock no thread is runnable and no step changes a thread's live
      scopes (C36); a collection that visits the threads one step at a
      time, with stores and attaches interleaved, ends with the result of
      the atomic walk at [SuspendAll], and can always finish when that
      walk does (C37); an idle collector can always take the lock, the
      runnable threads suspending without changing the world (C38).  Every run under the lock is also a run of the
      pool, so C31-C34 hold under it.

    ** Bounds and fuel

    Sizes are exact integers wrapped explicitly at the build's width
    ([size_t p]) or at the host's ([GetAlignedHandleScopeSizeTarget]);
    counts are [uint32_t] ([u32]).  The two chain walks follow [GetLink]
    until null and take fuel, one unit per scope visited: the refinement
    theorems show that fuel equal to the chain length is enough (the walk
    returns its result) and that less fuel is reported as [OutOfFuel], so
    no theorem is only a statement about terminating runs.  The walk over
    all threads gives each thread's walk the same fuel; C33 takes as much
    as the longest chain.  Witnesses run
    the 64-bit build ([p = 8]) on small concrete worlds by [vm_compute].

    ** Not modelled

    The static lock analysis behind [SHARED_LOCKS_REQUIRED] itself, and of
    the lock only its states and transitions (no waiting queues,
    fairness, checkpoints or suspend counts); in [Threads] a thread's
    call is one atomic step, which [MutatorLock] justifies by running
    code only in runnable threads; reference poisoning in [StackReference];
    the shadow-frame fallback of [HandleScopeContains]; the collector
    itself beyond its root callbacks and its walk over the thread list;
    the rest of a JNI stub (argument marshalling, thread-state
    transitions); a [StackHandleScope] built on one thread's stack for
    another thread.  The C++ ABI's layout rules in [Layout]
    ([field_offsets], [struct_sizeof], ...) model the language, not code
    of the program, and are not in the project map.  The
    fields [self_] and [pos_] of a [StackHandleScope] are kept in a
    record, not in memory: C14 locates the release build's overflowing
    write by the class layout, but no theorem follows the corrupted
    [self_] further. *)

From stdpp Require Export base gmap fin_maps list.
From Stdlib Require Export ZArith Lia.

Declare Scope hs_scope.
Delimit Scope hs_scope with hs.

Create HintDb hs discriminated.
Create Rewrite HintDb hs_rw.

(** ** Machine integers *)

Local Open Scope Z_scope.

(** [wrap w z] is [z] reduced to an unsigned [w]-bit integer, i.e. what a
    C++ unsigned type of [w] bits holds after an assignment. *)
Definition wrap (w z : Z) : Z := z mod 2 ^ w.

(** [uint32_t] conversion. *)
Definition u32 (z : Z) : Z := wrap 32 z.

(** [size_t] arithmetic on a target whose pointers are [p] bytes wide. *)
Definition size_t (p z : Z) : Z := wrap (8 * p) z.

(** The two pointer widths ART supports. *)
Class PointerSize (p : Z) : Prop :=
  pointer_size_cases : p = 4 \/ p = 8.

(** ** Contract violations

    Every [DCHECK] of the source that can fail is a constructor; a failed
    check aborts (debug build), so it is a value of the error side of the
    monad.  [BadAddress] is a read of memory that holds no value;
    [OutOfFuel] ends a loop model whose fuel ran out (the loop itself would
    still be running). *)
Inductive fault :=
| DCheckLt (lhs rhs : Z)
| DCheckGt (lhs rhs : Z)
| DCheckNe (lhs rhs : Z)
| DCheckEq (lhs rhs : Z)
| DCheckNonNull
| BadAddress (addr : Z)
| OutOfFuel.

#[export] Instance fault_eq_dec : EqDecision fault.
Proof. solve_decision. Defined.

(** ** A state and error monad *)

Definition SE (S A : Type) : Type := S -> fault + (A * S).

Definition se_ret {S A} (a : A) : SE S A := fun s => inr (a, s).

Definition se_bind {S A B} (m : SE S A) (k : A -> SE S B) : SE S B :=
  fun s => match m s with
           | inl e => inl e
           | inr (a, s') => k a s'
           end.

Definition se_fail {S A} (e : fault) : SE S A := fun _ => inl e.

Definition se_get {S} : SE S S := fun s => inr (s, s).

Definition se_put {S} (s : S) : SE S unit := fun _ => inr (tt, s).

(** [for (x : l) f(x);] *)
Fixpoint se_for {S A} (l : list A) (f : A -> SE S unit) : SE S unit :=
  match l with
  | [] => se_ret tt
  | x :: l' => se_bind (f x) (fun _ => se_for l' f)
  end.

Notation "x <- m ;; k" := (se_bind m (fun x => k))
  (at level 100, m at next level, right associativity) : hs_scope.
Notation "m ;; k" := (se_bind m (fun _ => k))
  (at level 100, right associativity) : hs_scope.

(** [0, 1, ..., n - 1] as the values of a [size_t] loop counter. *)
Definition zseq (n : Z) : list Z := map Z.of_nat (seq 0 (Z.to_nat n)).

(** ** Build configuration and [DCHECK]

    base/logging.h: [DCHECK(x)] is [if (kIsDebugBuild) CHECK(x)].  A
    debug build evaluates the condition and aborts when it is false; a
    release build evaluates nothing, not even the reads of the condition.
    [check] computes the failed check, if any. *)
Local Open Scope hs_scope.

Class BuildConfig := { kIsDebugBuild : bool }.

Definition debug_build : BuildConfig := {| kIsDebugBuild := true |}.
Definition release_build : BuildConfig := {| kIsDebugBuild := false |}.

Definition check_that (cond : bool) (f : fault) : option fault := if cond then None else Some f.

Definition DCHECK `{BuildConfig} {S} (check : SE S (option fault)) : SE S unit :=
  if kIsDebugBuild then
    r <- check ;;
    match r with None => se_ret tt | Some f => se_fail f end
  else se_ret tt.

(** [m1] refines [m2] on success: every run of [m1] that returns is a run
    of [m2] with the same result and final state. *)
Definition se_le {S A} (m1 m2 : SE S A) : Prop := forall s r, m1 s = inr r -> m2 s = inr r.

(** A computation that only reads: its successful runs leave the state alone. *)
Definition reads_only {S A} (m : SE S A) : Prop := forall s a s', m s = inr (a, s') -> s' = s.

Local Open Scope hs_scope.

(** ** Lemmas *)

Lemma wrap_small w z : 0 <= z < 2 ^ w -> wrap w z = z.
Proof. intros. unfold wrap. by apply Z.mod_small. Qed.

Lemma wrap_range w z : 0 <= w -> 0 <= wrap w z < 2 ^ w.
Proof. intros. unfold wrap. apply Z.mod_pos_bound. apply Z.pow_pos_nonneg; lia. Qed.

Lemma wrap_add_l w a b : wrap w (wrap w a + b) = wrap w (a + b).
Proof. unfold wrap. by rewrite Zplus_mod_idemp_l. Qed.

Lemma wrap_add_r w a b : wrap w (a + wrap w b) = wrap w (a + b).
Proof. unfold wrap. by rewrite Zplus_mod_idemp_r. Qed.

Lemma size_t_small `{PointerSize p} z : 0 <= z < 2 ^ (8 * p) -> size_t p z = z.
Proof. apply wrap_small. Qed.

Lemma pointer_size_pos `{PointerSize p} : 4 <= p.
Proof. destruct pointer_size_cases; lia. Qed.

(** [x & -n] on a [w]-bit unsigned [x] with [n = 2^k] clears the low [k]
    bits: it is [x / n * n]. *)
Lemma land_neg_pow2 w k x :
  0 <= k <= w -> 0 <= x < 2 ^ w ->
  Z.land x (wrap w (- 2 ^ k)) = x / 2 ^ k * 2 ^ k.
Proof.
  intros Hk Hx. unfold wrap.
  rewrite <- Z.land_ones by lia.
  rewrite Z.land_assoc, Z.land_comm, Z.land_assoc, (Z.land_comm (Z.ones w)).
  rewrite Z.land_ones, Z.mod_small by lia.
  replace (- 2 ^ k) with (Z.lnot (Z.ones k)).
  2:{ unfold Z.lnot. rewrite Z.ones_equiv. lia. }
  rewrite <- Z.ldiff_land, Z.ldiff_ones_r by lia.
  by rewrite Z.shiftl_mul_pow2, Z.shiftr_div_pow2 by lia.
Qed.

#[export] Hint Resolve wrap_range : hs.


Lemma se_bind_ret_l {S A B} (a : A) (k : A -> SE S B) s :
  (x <- se_ret a ;; k x) s = k a s.
Proof. reflexivity. Qed.

Lemma se_bind_assoc {S A B C} (m : SE S A) (k : A -> SE S B) (h : B -> SE S C) s :
  (y <- (x <- m ;; k x) ;; h y) s = (x <- m ;; y <- k x ;; h y) s.
Proof. unfold se_bind. by destruct (m s) as [|[]]. Qed.

Lemma elem_of_zseq n j : j ∈ zseq n <-> 0 <= j < n.
Proof.
  unfold zseq. rewrite list_elem_of_fmap. setoid_rewrite list_elem_of_In.
  setoid_rewrite in_seq. split.
  - intros (k & -> & Hk). lia.
  - intros Hj. exists (Z.to_nat j). lia.
Qed.

Lemma length_zseq n : length (zseq n) = Z.to_nat n.
Proof. unfold zseq. by rewrite length_map, length_seq. Qed.

(** A loop of map stores [m[f i] = g i] for [i] in [js]: an address no
    iteration writes keeps its value, and when distinct iterations write
    distinct addresses each written address holds its iteration's value. *)
Lemma lookup_foldl_insert_notin `{Countable K} {A V} (f : A -> K) (g : A -> V) js (m : gmap K V) k :
  k ∉ f <$> js -> foldl (fun m i => <[f i := g i]> m) m js !! k = m !! k.
Proof.
  revert m. induction js as [|j js IH]; intros m Hk; [done|]. simpl.
  rewrite fmap_cons, elem_of_cons in Hk. rewrite IH by naive_solver.
  apply lookup_insert_ne. naive_solver.
Qed.

(** Such a loop depends only on the addresses, not on how they are
    written, and commutes with a store to an address it never writes. *)
Lemma foldl_insert_ext `{Countable K} {A V} (f f' : A -> K) (g : A -> V) js (m : gmap K V) :
  (forall i, f i = f' i) ->
  foldl (fun m i => <[f i := g i]> m) m js = foldl (fun m i => <[f' i := g i]> m) m js.
Proof. intros Hf. revert m. induction js as [|j js IH]; intros m; [done|]. simpl. by rewrite Hf, IH. Qed.

Lemma foldl_insert_commute `{Countable K} {A V} (f : A -> K) (g : A -> V) js (m : gmap K V) k v :
  k ∉ f <$> js ->
  foldl (fun m i => <[f i := g i]> m) (<[k := v]> m) js =
  <[k := v]> (foldl (fun m i => <[f i := g i]> m) m js).
Proof.
  revert m. induction js as [|j js IH]; intros m Hk; [done|]. simpl.
  rewrite fmap_cons, elem_of_cons in Hk.
  rewrite insert_insert_ne by naive_solver. apply IH. naive_solver.
Qed.

Lemma lookup_foldl_insert_in `{Countable K} `{EqDecision A} {V} (f : A -> K) (g : A -> V) js (m : gmap K V) j :
  (forall i i', i ∈ js -> i' ∈ js -> f i = f i' -> i = i') -> j ∈ js ->
  foldl (fun m i => <[f i := g i]> m) m js !! f j = Some (g j).
Proof.
  revert m. induction js as [|i js IH]; intros m Hinj Hj; [by apply elem_of_nil in Hj|]. simpl.
  destruct (decide (j ∈ js)) as [Hin|Hout].
  - apply IH; [|done]. intros ?????. apply Hinj; [by right..|done].
  - apply elem_of_cons in Hj as [->|]; [|done].
    rewrite lookup_foldl_insert_notin; [apply lookup_insert_eq|].
    rewrite list_elem_of_fmap. intros (i' & Heq & Hi').
    apply Hout. rewrite (Hinj i i'); [done|left|by right|done].
Qed.

(** A bind run in state [s] whose first action succeeds. *)
Lemma se_bind_inr {S A B} (m : SE S A) (k : A -> SE S B) s a s' :
  m s = inr (a, s') -> (x <- m ;; k x) s = k a s'.
Proof. intros Hm. unfold se_bind. by rewrite Hm. Qed.

Lemma se_bind_inl {S A B} (m : SE S A) (k : A -> SE S B) s e :
  m s = inl e -> (x <- m ;; k x) s = inl e.
Proof. intros Hm. unfold se_bind. by rewrite Hm. Qed.

(** Inversion of a successful bind. *)
Lemma se_bind_inr_inv {S A B} (m : SE S A) (k : A -> SE S B) s r :
  (x <- m ;; k x) s = inr r -> exists a s', m s = inr (a, s') /\ k a s' = inr r.
Proof. unfold se_bind. destruct (m s) as [|[a s']]; [done|]. eauto. Qed.

#[export] Hint Rewrite @se_bind_ret_l @se_bind_assoc : hs_rw.

(** ** [DCHECK] in the two builds *)

Lemma DCHECK_release {S} (check : SE S (option fault)) s :
  @DCHECK release_build S check s = inr (tt, s).
Proof. reflexivity. Qed.

Lemma DCHECK_pass `{BuildConfig} {S} (check : SE S (option fault)) s :
  check s = inr (None, s) -> DCHECK check s = inr (tt, s).
Proof. intros Hc. unfold DCHECK. destruct kIsDebugBuild; [|done]. by rewrite (se_bind_inr _ _ _ _ _ Hc). Qed.

Lemma DCHECK_fail `{BuildConfig} {S} (check : SE S (option fault)) s s' f :
  kIsDebugBuild = true -> check s = inr (Some f, s') -> DCHECK check s = inl f.
Proof. intros Hd Hc. unfold DCHECK. rewrite Hd. by rewrite (se_bind_inr _ _ _ _ _ Hc). Qed.

Lemma check_that_true cond f : cond = true -> check_that cond f = None.
Proof. by intros ->. Qed.

(** ** Refinement on success *)

Lemma se_le_refl {S A} (m : SE S A) : se_le m m.
Proof. by intros s r. Qed.

Lemma se_le_bind {S A B} (m1 m2 : SE S A) (k1 k2 : A -> SE S B) :
  se_le m1 m2 -> (forall x, se_le (k1 x) (k2 x)) -> se_le (x <- m1 ;; k1 x) (x <- m2 ;; k2 x).
Proof.
  intros Hm Hk s r Hrun. apply se_bind_inr_inv in Hrun as (a & s' & H1 & H2).
  rewrite (se_bind_inr _ _ _ _ _ (Hm _ _ H1)). by apply Hk.
Qed.

Lemma se_le_for {S A} (l : list A) (f1 f2 : A -> SE S unit) :
  (forall x, se_le (f1 x) (f2 x)) -> se_le (se_for l f1) (se_for l f2).
Proof. intros Hf. induction l as [|x l IH]; [apply se_le_refl|]. by apply se_le_bind. Qed.

Lemma se_le_if {S A} (b : bool) (m1 m2 n1 n2 : SE S A) :
  se_le m1 m2 -> se_le n1 n2 -> se_le (if b then m1 else n1) (if b then m2 else n2).
Proof. by destruct b. Qed.

Lemma se_le_decide {S A} P `{Decision P} (m1 m2 n1 n2 : SE S A) :
  se_le m1 m2 -> se_le n1 n2 ->
  se_le (if decide P then m1 else n1) (if decide P then m2 else n2).
Proof. by destruct (decide P). Qed.

(** A [DCHECK] whose condition only reads is skipped by a release build
    without changing any successful run. *)
Lemma DCHECK_le {S} (check : SE S (option fault)) :
  reads_only check -> se_le (@DCHECK debug_build S check) (@DCHECK release_build S check).
Proof.
  intros Hr s r Hrun. apply se_bind_inr_inv in Hrun as (o & s' & H1 & H2).
  rewrite (Hr _ _ _ H1) in H2. destruct o; [done|]. by injection H2 as <-.
Qed.

Lemma reads_only_bind {S A B} (m : SE S A) (k : A -> SE S B) :
  reads_only m -> (forall x, reads_only (k x)) -> reads_only (x <- m ;; k x).
Proof.
  intros Hm Hk s b s'' Hrun. apply se_bind_inr_inv in Hrun as (a & s' & H1 & H2).
  rewrite <- (Hm _ _ _ H1). by apply (Hk a _ b).
Qed.

Lemma reads_only_ret {S A} (a : A) : reads_only (S:=S) (se_ret a).
Proof. by intros s b s' [= _ <-]. Qed.

Create HintDb se_le discriminated.
#[export] Hint Resolve se_le_refl se_le_bind se_le_for se_le_if se_le_decide DCHECK_le : se_le.
#[export] Hint Resolve reads_only_bind reads_only_ret : se_le.

(** Prove [se_le] of two builds of one piece of code, operation by
    operation. *)
Ltac se_le_solve := intros; eauto 30 with se_le.


(** Run the first action of a bind when a hypothesis gives its result. *)
Ltac se_step :=
  match goal with
  | H : ?m ?s = inr (?a, ?s') |- context [se_bind ?m ?k ?s] =>
      rewrite (se_bind_inr m k s a s' H)
  | H : ?m ?s = inl ?e |- context [se_bind ?m ?k ?s] =>
      rewrite (se_bind_inl m k s e H)
  end.
