(* ===== verification/Layout.v ===== *)
(** Byte layout of a [HandleScope]: the size and offset queries of
    [src/art/runtime/handle_scope.h] (lines 43-68, 113-126), the struct
    layout the C++ compiler gives the fields of lines 133-137, and
    [RoundUp] from utils.h.  Sizes are [size_t] values, so every sum and
    product is wrapped to the width of the build. *)

From S2P Require Import Prelude.

Local Open Scope Z_scope.

Module Layout.

(** [sizeof(StackReference<mirror::Object>)]: a compressed 32-bit reference. *)
Definition sizeof_StackReference : Z := 4.

(** [sizeof(number_of_references_)], a [uint32_t]. *)
Definition sizeof_uint32 : Z := 4.

(** *** The C struct layout rule

    A field is placed at the first offset after the previous field that is
    a multiple of its alignment.  [fields] lists (size, alignment) in
    declaration order; the result is the offset of each field. *)
Definition align_up (off a : Z) : Z := (off + a - 1) / a * a.

Fixpoint field_offsets (off : Z) (fields : list (Z * Z)) : list Z :=
  match fields with
  | [] => []
  | (sz, al) :: fs => align_up off al :: field_offsets (align_up off al + sz) fs
  end.

(** [HandleScope* link_; uint32_t number_of_references_;
     StackReference<mirror::Object> references_[0];] on a build whose
    pointers are [p] bytes wide. *)
Definition HandleScope_fields (p : Z) : list (Z * Z) :=
  [(p, p); (sizeof_uint32, 4); (0, sizeof_StackReference)].

(** [OFFSETOF_MEMBER(HandleScope, m)] for the [k]-th member [m]: the
    offset compiled code uses for [link_] (0), [number_of_references_] (1)
    and [references_] (2). *)
Definition member_offset (p : Z) (k : nat) : Z :=
  nth k (field_offsets 0 (HandleScope_fields p)) 0.

Definition OFFSETOF_references (p : Z) : Z := member_offset p 2.

(** *** The queries of the source *)

(** [static size_t SizeOf(uint32_t num_references)] on a build with
    [p]-byte pointers. *)
Definition SizeOf (p num_references : Z) : Z :=
  let header_size := OFFSETOF_references p in
  let data_size := size_t p (sizeof_StackReference * num_references) in
  size_t p (header_size + data_size).

(** utils.h: [RoundDown(x, n) = x & -n] and [RoundUp(x, n) =
    RoundDown(x + n - 1, n)], in the [w]-bit unsigned type of [x]. *)
Definition RoundDown (w x n : Z) : Z := Z.land x (wrap w (- n)).

Definition RoundUp (w x n : Z) : Z := RoundDown w (wrap w (x + n - 1)) n.

(** [static size_t GetAlignedHandleScopeSize(uint32_t num_references)]. *)
Definition GetAlignedHandleScopeSize (p num_references : Z) : Z :=
  let handle_scope_size := SizeOf p num_references in
  RoundUp (8 * p) handle_scope_size 8.

(** [static size_t GetAlignedHandleScopeSizeTarget(size_t pointer_size,
    uint32_t num_references)], computed in the [size_t] of the [host]
    build (a cross-compiler may run on a host of another width). *)
Definition GetAlignedHandleScopeSizeTarget (host pointer_size num_references : Z) : Z :=
  let header_size := size_t host (pointer_size + sizeof_uint32) in
  let data_size := size_t host (sizeof_StackReference * num_references) in
  let handle_scope_size := size_t host (header_size + data_size) in
  RoundUp (8 * host) handle_scope_size 8.

(** [LinkOffset], [NumberOfReferencesOffset], [ReferencesOffset]. *)
Definition LinkOffset (pointer_size : Z) : Z := 0.

Definition NumberOfReferencesOffset (pointer_size : Z) : Z := pointer_size.

Definition ReferencesOffset (pointer_size : Z) : Z := pointer_size + sizeof_uint32.


(** *** The class layout of [StackHandleScope<kNumReferences>]

    The [sizeof] of a class is the end of its last field rounded up to
    its largest alignment; the end without that tail padding is its data
    size.  A derived class's own fields start after its base: at the
    base's data size when the ABI reuses the base's tail padding (the
    Itanium C++ ABI does so for a base that is not a POD, as
    [HandleScope], with its user-declared destructor and private members,
    is not), at the base's full [sizeof] otherwise. *)
Fixpoint data_end (off : Z) (fields : list (Z * Z)) : Z :=
  match fields with
  | [] => off
  | (sz, al) :: fs => data_end (align_up off al + sz) fs
  end.

Definition struct_align (fields : list (Z * Z)) : Z :=
  fold_right (fun f m => Z.max (snd f) m) 1 fields.

Definition struct_sizeof (fields : list (Z * Z)) : Z :=
  align_up (data_end 0 fields) (struct_align fields).

Inductive BaseLayout := ReuseTailPadding | NoTailPadding.

Definition base_end (abi : BaseLayout) (base : list (Z * Z)) : Z :=
  match abi with
  | ReuseTailPadding => data_end 0 base
  | NoTailPadding => struct_sizeof base
  end.

(** [StackReference<mirror::Object> references_storage_[kNumReferences];
     Thread* const self_; size_t pos_;] *)
Definition StackHandleScope_fields (p k : Z) : list (Z * Z) :=
  [(sizeof_StackReference * k, sizeof_StackReference); (p, p); (p, p)].

(** Offsets of [references_storage_], [self_] and [pos_] in the object. *)
Definition StackHandleScope_offsets (abi : BaseLayout) (p k : Z) : list Z :=
  field_offsets (base_end abi (HandleScope_fields p)) (StackHandleScope_fields p k).

Definition references_storage_offset (abi : BaseLayout) (p k : Z) : Z :=
  nth 0 (StackHandleScope_offsets abi p k) 0.

(** ** Rounding *)

(** Helper: [RoundUp] by a power of two, away from overflow, is the
    arithmetic round-up. *)
Lemma RoundUp_pow2 w k x :
  0 <= k <= w -> 0 <= x -> x + 2 ^ k - 1 < 2 ^ w ->
  RoundUp w x (2 ^ k) = (x + 2 ^ k - 1) / 2 ^ k * 2 ^ k.
Proof.
  intros Hk Hx Hov. unfold RoundUp, RoundDown.
  assert (0 < 2 ^ k) by (apply Z.pow_pos_nonneg; lia).
  rewrite (wrap_small w) by lia.
  apply land_neg_pow2; lia.
Qed.

(** Helper: the result of [RoundUp(x, 8)] is a multiple of 8 whatever [x]. *)
Lemma RoundUp8_mod w x : 3 <= w -> RoundUp w x 8 mod 8 = 0.
Proof.
  intros Hw. unfold RoundUp, RoundDown.
  change 8 with (2 ^ 3). rewrite land_neg_pow2 by (try apply wrap_range; lia).
  apply Z.mod_mul. lia.
Qed.

Lemma RoundUp8_exact w x :
  3 <= w -> 0 <= x -> x + 7 < 2 ^ w -> RoundUp w x 8 = (x + 7) / 8 * 8.
Proof.
  intros. change (RoundUp w x 8) with (RoundUp w x (2 ^ 3)).
  rewrite RoundUp_pow2 by lia. by replace (x + 2 ^ 3 - 1) with (x + 7) by lia.
Qed.

(** Helper: [RoundUp(x, 8)] in any width is the round-down of the wrapped
    [x + 7]. *)
Lemma RoundUp8_wrap w x : 3 <= w -> RoundUp w x 8 = wrap w (x + 7) / 8 * 8.
Proof.
  intros Hw. unfold RoundUp, RoundDown. change 8 with (2 ^ 3).
  rewrite land_neg_pow2 by (try apply wrap_range; lia). by replace (x + 2 ^ 3 - 1) with (x + 7) by lia.
Qed.

(** Helper: rounding down to 8 commutes with the 32-bit wrap-around. *)
Lemma round8_wrap32 x : 0 <= x -> wrap 32 x / 8 * 8 = wrap 32 (x / 8 * 8).
Proof.
  intros Hx. unfold wrap.
  pose proof (Z.div_mod x (2 ^ 32) ltac:(lia)) as Hd.
  pose proof (Z.mod_pos_bound x (2 ^ 32) ltac:(lia)) as Hb.
  set (q := x / 2 ^ 32) in *. set (r := x mod 2 ^ 32) in *.
  assert (Hx8 : x / 8 = q * 2 ^ 29 + r / 8).
  { rewrite Hd. replace (2 ^ 32 * q + r) with (q * 2 ^ 29 * 8 + r) by lia. apply Z.div_add_l. lia. }
  rewrite Hx8. apply Z.mod_unique with q; [left|].
  - pose proof (Z.div_mod r 8 ltac:(lia)). pose proof (Z.mod_pos_bound r 8 ltac:(lia)). lia.
  - lia.
Qed.

(** Bounds of the arithmetic round-up to 8. *)
Lemma round8_bounds x :
  0 <= x -> (x <= (x + 7) / 8 * 8 < x + 8) /\ ((x + 7) / 8 * 8) mod 8 = 0.
Proof.
  intros Hx. pose proof (Z.div_mod (x + 7) 8 ltac:(lia)).
  pose proof (Z.mod_pos_bound (x + 7) 8 ltac:(lia)).
  split; [lia|]. apply Z.mod_mul. lia.
Qed.

Section Sizes.
Context `{PointerSize p}.

Lemma member_offset_link : member_offset p 0 = LinkOffset p.
Proof. destruct pointer_size_cases; subst; reflexivity. Qed.

Lemma member_offset_count : member_offset p 1 = NumberOfReferencesOffset p.
Proof. destruct pointer_size_cases; subst; reflexivity. Qed.

Lemma member_offset_references : member_offset p 2 = ReferencesOffset p.
Proof. destruct pointer_size_cases; subst; reflexivity. Qed.

Lemma OFFSETOF_references_eq : OFFSETOF_references p = ReferencesOffset p.
Proof. apply member_offset_references. Qed.

(** With tail-padding reuse, [references_storage_] starts where
    [references_] does. *)
Lemma references_storage_offset_eq k :
  references_storage_offset ReuseTailPadding p k = ReferencesOffset p.
Proof. destruct pointer_size_cases; subst; reflexivity. Qed.

(** On a 64-bit build [self_] follows [references_storage_] at the next
    multiple of 8: right after it when [k] is odd, 4 bytes of padding
    later when [k] is even. *)
Lemma self_offset_64 k :
  0 <= k ->
  nth 1 (StackHandleScope_offsets ReuseTailPadding 8 k) 0 =
  ReferencesOffset 8 + sizeof_StackReference * k + (if Z.even k then 4 else 0).
Proof.
  intros Hk. change (nth 1 (StackHandleScope_offsets ReuseTailPadding 8 k) 0)
    with (align_up (12 + 4 * k) 8).
  unfold align_up, ReferencesOffset, sizeof_uint32, sizeof_StackReference.
  destruct (Z.Even_or_Odd k) as [[m ->]|[m ->]].
  - rewrite Z.even_mul. simpl.
    rewrite <- (Z.div_unique (12 + 4 * (2 * m) + 8 - 1) 8 (2 + m) 3); lia.
  - rewrite Z.even_add, Z.even_mul. simpl.
    rewrite <- (Z.div_unique (12 + 4 * (2 * m + 1) + 8 - 1) 8 (2 + m) 7); lia.
Qed.

(** [SizeOf] is [header + 4 * n] as long as that fits in a [size_t]. *)
Lemma SizeOf_exact n :
  0 <= n -> ReferencesOffset p + sizeof_StackReference * n < 2 ^ (8 * p) ->
  SizeOf p n = ReferencesOffset p + sizeof_StackReference * n.
Proof.
  intros Hn Hov. pose proof pointer_size_pos.
  unfold SizeOf. rewrite OFFSETOF_references_eq.
  unfold ReferencesOffset, sizeof_StackReference, sizeof_uint32 in *.
  rewrite (size_t_small (4 * n)), size_t_small; lia.
Qed.

(** C21 (layout): the offsets the code generator is given by [LinkOffset],
    [NumberOfReferencesOffset] and [ReferencesOffset] are the offsets the
    C++ compiler gives to [link_], [number_of_references_] and
    [references_], on both supported pointer widths. *)
Theorem HandleScope_offsets_match_layout :
  field_offsets 0 (HandleScope_fields p) =
  [LinkOffset p; NumberOfReferencesOffset p; ReferencesOffset p].
Proof. destruct pointer_size_cases; subst; reflexivity. Qed.

(** [GetAlignedHandleScopeSize] always returns a multiple
    of 8, even when the size computation wraps around. *)
Theorem GetAlignedHandleScopeSize_aligned n :
  GetAlignedHandleScopeSize p n mod 8 = 0.
Proof. pose proof pointer_size_pos. apply RoundUp8_mod. lia. Qed.

(** C23 (bounds): when [SizeOf(n) + 7] fits in a [size_t], the aligned size
    is the smallest multiple of 8 not below [SizeOf(n)]: it lies in
    [SizeOf(n), SizeOf(n) + 8). *)
Theorem GetAlignedHandleScopeSize_bounds n :
  0 <= n -> ReferencesOffset p + sizeof_StackReference * n + 7 < 2 ^ (8 * p) ->
  (SizeOf p n <= GetAlignedHandleScopeSize p n < SizeOf p n + 8) /\
  GetAlignedHandleScopeSize p n = (SizeOf p n + 7) / 8 * 8.
Proof.
  intros Hn Hov. pose proof pointer_size_pos.
  unfold GetAlignedHandleScopeSize. rewrite SizeOf_exact by lia.
  unfold ReferencesOffset, sizeof_StackReference, sizeof_uint32 in *.
  rewrite RoundUp8_exact by lia. pose proof (round8_bounds (p + 4 + 4 * n)). lia.
Qed.

(** C22 (equivalence): the cross-compilation variant, asked for the pointer
    width of the build it runs on, agrees with the runtime variant for
    every count. *)
Theorem GetAlignedHandleScopeSizeTarget_native n :
  GetAlignedHandleScopeSizeTarget p p n = GetAlignedHandleScopeSize p n.
Proof.
  pose proof pointer_size_pos.
  unfold GetAlignedHandleScopeSizeTarget, GetAlignedHandleScopeSize, SizeOf.
  rewrite OFFSETOF_references_eq, (size_t_small (p + sizeof_uint32)); [done|].
  unfold sizeof_uint32. destruct pointer_size_cases; subst; simpl; lia.
Qed.

End Sizes.

(** On a 64-bit build nothing wraps: for every [uint32_t]
    count, [SizeOf(n) = 12 + 4n] and the aligned size is its round-up to 8. *)
Theorem HandleScope_sizes_64bit n :
  0 <= n < 2 ^ 32 ->
  SizeOf 8 n = 12 + 4 * n /\ GetAlignedHandleScopeSize 8 n = (12 + 4 * n + 7) / 8 * 8.
Proof.
  intros Hn. assert (Hp : PointerSize 8) by (right; reflexivity).
  assert (Hs : SizeOf 8 n = 12 + 4 * n).
  { rewrite SizeOf_exact; unfold ReferencesOffset, sizeof_StackReference, sizeof_uint32; simpl; lia. }
  split; [done|]. unfold GetAlignedHandleScopeSize. rewrite Hs.
  apply RoundUp8_exact; simpl; lia.
Qed.

(** C24 (bounds): on a 32-bit build [SizeOf(n)] is [8 + 4n] exactly when
    [n < 2^30 - 2]; from there on the [size_t] sum wraps around. *)
Theorem SizeOf_32bit_exact_iff n :
  0 <= n < 2 ^ 32 -> SizeOf 4 n = 8 + 4 * n <-> n < 2 ^ 30 - 2.
Proof.
  intros Hn. assert (Hp : PointerSize 4) by (left; reflexivity). split.
  - intros Heq. destruct (Z.lt_ge_cases n (2 ^ 30 - 2)) as [|Hge]; [done|].
    pose proof (wrap_range (8 * 4) (OFFSETOF_references 4 +
      size_t 4 (sizeof_StackReference * n)) ltac:(lia)) as Hr.
    unfold SizeOf in Heq. unfold size_t at 1 in Heq. simpl in Hr. lia.
  - intros Hlt. rewrite SizeOf_exact;
      unfold ReferencesOffset, sizeof_StackReference, sizeof_uint32; simpl; lia.
Qed.

(** The cross-compilation size, away from overflow in the [size_t] of
    the host: the header and the slots, rounded up to 8. *)
Lemma GetAlignedHandleScopeSizeTarget_exact host pointer_size n :
  PointerSize host -> 0 <= pointer_size -> 0 <= n ->
  pointer_size + 4 + 4 * n + 7 < 2 ^ (8 * host) ->
  GetAlignedHandleScopeSizeTarget host pointer_size n = (pointer_size + 4 + 4 * n + 7) / 8 * 8.
Proof.
  intros Hh Hps Hn Hov. pose proof (pointer_size_pos (p := host)).
  unfold GetAlignedHandleScopeSizeTarget, sizeof_uint32, sizeof_StackReference.
  rewrite (size_t_small (pointer_size + 4)), (size_t_small (4 * n)), size_t_small by lia.
  apply RoundUp8_exact; lia.
Qed.

(** A cross-compiler running on a 64-bit host computes the
    exact aligned size for either target width and every [uint32_t] count. *)
Theorem GetAlignedHandleScopeSizeTarget_host64 pointer_size n :
  PointerSize pointer_size -> 0 <= n < 2 ^ 32 ->
  GetAlignedHandleScopeSizeTarget 8 pointer_size n =
  (pointer_size + 4 + 4 * n + 7) / 8 * 8.
Proof.
  intros Hps Hn. assert (pointer_size <= 8) by (destruct Hps; lia).
  pose proof (pointer_size_pos (p := pointer_size)).
  apply GetAlignedHandleScopeSizeTarget_exact; [right; reflexivity|lia|lia|simpl; lia].
Qed.

(** C25 (bounds): the result of [GetAlignedHandleScopeSizeTarget] depends
    on the host's [size_t]: for either target width and every [uint32_t]
    count, a cross-compiler on a 32-bit host computes the 64-bit host's
    result modulo 2^32, and the two hosts agree exactly when that result
    is below 2^32. *)
Theorem GetAlignedHandleScopeSizeTarget_host_dependent pointer_size n :
  PointerSize pointer_size -> 0 <= n < 2 ^ 32 ->
  GetAlignedHandleScopeSizeTarget 4 pointer_size n =
    GetAlignedHandleScopeSizeTarget 8 pointer_size n mod 2 ^ 32 /\
  (GetAlignedHandleScopeSizeTarget 4 pointer_size n = GetAlignedHandleScopeSizeTarget 8 pointer_size n <->
   GetAlignedHandleScopeSizeTarget 8 pointer_size n < 2 ^ 32).
Proof.
  intros Hps Hn. pose proof (pointer_size_pos (p := pointer_size)).
  assert (pointer_size <= 8) by (destruct Hps; lia).
  assert (H32 : GetAlignedHandleScopeSizeTarget 4 pointer_size n =
                wrap 32 ((pointer_size + 4 + 4 * n + 7) / 8 * 8)).
  { unfold GetAlignedHandleScopeSizeTarget, sizeof_uint32, sizeof_StackReference, size_t.
    change (8 * 4) with 32. rewrite RoundUp8_wrap by lia.
    rewrite (wrap_small 32 (pointer_size + 4)) by (simpl; lia).
    unfold wrap. rewrite Zplus_mod_idemp_r, Zplus_mod_idemp_l.
    apply (round8_wrap32 (pointer_size + 4 + 4 * n + 7)). lia. }
  rewrite H32, (GetAlignedHandleScopeSizeTarget_host64 pointer_size n Hps Hn). unfold wrap.
  split; [done|]. pose proof (Z.div_mod (pointer_size + 4 + 4 * n + 7) 8 ltac:(lia)).
  pose proof (Z.mod_pos_bound (pointer_size + 4 + 4 * n + 7) 8 ltac:(lia)).
  split.
  - intros He. rewrite <- He. apply Z.mod_pos_bound. lia.
  - intros Hl. apply Z.mod_small. lia.
Qed.

(** The alias of [references_storage_] and [references_]
    depends on the ABI reusing the base's tail padding.  A 64-bit
    [HandleScope] has 12 bytes of data and a [sizeof] of 16; a layout
    that starts the derived fields after the full base would put
    [references_storage_] at 16, not at [ReferencesOffset(8) = 12], and
    the [HandleScope] accessors would miss the inline slots.  On a 32-bit
    build there is no tail padding and both layouts agree. *)
Theorem StackHandleScope_layout_needs_tail_padding k :
  data_end 0 (HandleScope_fields 8) = 12 /\ struct_sizeof (HandleScope_fields 8) = 16 /\
  references_storage_offset ReuseTailPadding 8 k = ReferencesOffset 8 /\
  references_storage_offset NoTailPadding 8 k = ReferencesOffset 8 + 4 /\
  references_storage_offset NoTailPadding 4 k = ReferencesOffset 4.
Proof. repeat split; reflexivity. Qed.

(** ** Witnesses *)

Lemma HandleScope_offsets_match_layout_witness :
  field_offsets 0 (HandleScope_fields 8) =
  [LinkOffset 8; NumberOfReferencesOffset 8; ReferencesOffset 8].
Proof. apply (@HandleScope_offsets_match_layout 8 ltac:(right; reflexivity)). Defined.

Lemma GetAlignedHandleScopeSize_bounds_witness :
  (SizeOf 8 3 <= GetAlignedHandleScopeSize 8 3 < SizeOf 8 3 + 8) /\
  GetAlignedHandleScopeSize 8 3 = (SizeOf 8 3 + 7) / 8 * 8.
Proof.
  apply (@GetAlignedHandleScopeSize_bounds 8 ltac:(right; reflexivity) 3);
    [lia|vm_compute; reflexivity].
Defined.

Lemma GetAlignedHandleScopeSizeTarget_native_witness :
  GetAlignedHandleScopeSizeTarget 4 4 5 = GetAlignedHandleScopeSize 4 5.
Proof. apply (@GetAlignedHandleScopeSizeTarget_native 4 ltac:(left; reflexivity)). Defined.

Lemma GetAlignedHandleScopeSizeTarget_host_dependent_witness :
  GetAlignedHandleScopeSizeTarget 4 8 (2 ^ 30 - 4) =
    GetAlignedHandleScopeSizeTarget 8 8 (2 ^ 30 - 4) mod 2 ^ 32.
Proof.
  exact (proj1 (GetAlignedHandleScopeSizeTarget_host_dependent 8 (2 ^ 30 - 4)
                  ltac:(right; reflexivity) ltac:(lia))).
Defined.

Lemma SizeOf_32bit_exact_iff_witness :
  SizeOf 4 (2 ^ 30 - 2) = 8 + 4 * (2 ^ 30 - 2) <-> 2 ^ 30 - 2 < 2 ^ 30 - 2.
Proof. apply SizeOf_32bit_exact_iff. vm_compute. split; congruence. Defined.

End Layout.
