(* ===== verification/Memory.v ===== *)
(** The memory the handle scopes live in.  A [World] is a flat memory,
    one value per field address, and the table of each thread's
    [tlsPtr_.top_handle_scope] keyed by the thread's address.  Reading an
    address that holds no value is a [BadAddress] fault.
    [StackReference<mirror::Object>] (object_reference.h, outside [src/])
    stores a compressed 32-bit reference: [Assign] truncates the pointer to
    32 bits, [AsMirrorPtr] reads it back. *)

From S2P Require Import Prelude.

Local Open Scope Z_scope.
Local Open Scope hs_scope.

Module Memory.

Record World := mkWorld {
  mem : gmap Z Z;
  tls_top : gmap Z Z
}.

Definition nullptr : Z := 0.

Definition world_store (w : World) (a v : Z) : World :=
  mkWorld (<[a := v]> (mem w)) (tls_top w).

Definition load (a : Z) : SE World Z := fun w =>
  match mem w !! a with
  | Some v => inr (v, w)
  | None => inl (BadAddress a)
  end.

Definition store (a v : Z) : SE World unit := fun w => inr (tt, world_store w a v).

(** [StackReference::Assign(ptr)]: [reference_ = Compress(ptr)]. *)
Definition StackReference_Assign (a obj : Z) : SE World unit := store a (u32 obj).

(** [StackReference::AsMirrorPtr()]. *)
Definition StackReference_AsMirrorPtr (a : Z) : SE World Z := load a.

Lemma load_hit w a v : mem w !! a = Some v -> load a w = inr (v, w).
Proof. intros H. unfold load. by rewrite H. Qed.

Lemma load_miss w a : mem w !! a = None -> load a w = inl (BadAddress a).
Proof. intros H. unfold load. by rewrite H. Qed.

Lemma world_store_mem_eq w a v : mem (world_store w a v) !! a = Some v.
Proof. apply lookup_insert_eq. Qed.

Lemma world_store_mem_ne w a b v : a <> b -> mem (world_store w a v) !! b = mem w !! b.
Proof. intros. by apply lookup_insert_ne. Qed.

Lemma world_store_tls w a v : tls_top (world_store w a v) = tls_top w.
Proof. reflexivity. Qed.

Lemma load_reads a : reads_only (load a).
Proof. intros w v w'. unfold load. destruct (mem w !! a); [|done]. by intros [= _ <-]. Qed.

#[export] Hint Rewrite world_store_mem_eq world_store_tls : hs_rw.
#[export] Hint Resolve load_reads : se_le.
#[export] Hint Resolve load_hit : hs.

End Memory.
