(* ===== verification/Handle.v ===== *)
(** [Handle<T>] (handle.h, outside [src/]) and [HandleWrapper<T>]
    (handle_scope.h lines 144-160).  A handle is the address of one
    [StackReference] slot; copying it copies the address.  A wrapper
    remembers a raw [T**] and writes the handle's current value back
    through it when it is destroyed. *)

From S2P Require Import Prelude Memory.
Import Memory.

Local Open Scope Z_scope.
Local Open Scope hs_scope.

Module Handle.

(** [Handle(StackReference<T>* reference) : reference_(reference)]. *)
Record Handle := mkHandle { reference_ : Z }.

(** [T* Get() const { return reference_->AsMirrorPtr(); }] *)
Definition Get (h : Handle) : SE World Z := StackReference_AsMirrorPtr (reference_ h).

(** [HandleWrapper(T** obj, const Handle<T>& handle) : obj_(obj), handle_(handle)]. *)
Record HandleWrapper := mkHandleWrapper { obj_ : Z; handle_ : Handle }.

(** [~HandleWrapper() { *obj_ = handle_.Get(); }] *)
Definition HandleWrapper_dtor (hw : HandleWrapper) : SE World unit :=
  v <- Get (handle_ hw) ;;
  store (obj_ hw) v.

End Handle.
