(* ===== verification/HandleScope.v ===== *)
(** [class HandleScope] (handle_scope.h lines 34-142): the accessors of a
    scope that starts at address [this] in the flat memory of [Memory].
    Fields are reached at the offsets the compiler gives them
    ([Layout.member_offset]); [&references_[i]] is pointer arithmetic in
    the [size_t] of the build.  Each [DCHECK] is a [Prelude.DCHECK]: a
    fault in a debug build, nothing in a release build.  The lemmas give
    each accessor's behaviour in either build and show that a release
    build refines a debug one. *)

From S2P Require Import Prelude Layout Memory Handle.
Import Layout Memory Handle.

Local Open Scope Z_scope.
Local Open Scope hs_scope.

Module HandleScope.

Section Operations.
Context (p : Z) {bc : BuildConfig}.

(** [&this->link_], [&this->number_of_references_], [&references_[i]]. *)
Definition link_addr (this : Z) : Z := size_t p (this + member_offset p 0).

Definition count_addr (this : Z) : Z := size_t p (this + member_offset p 1).

Definition ref_addr (this i : Z) : Z :=
  size_t p (this + member_offset p 2 + sizeof_StackReference * i).

(** [explicit HandleScope(size_t number_of_references) :
      link_(nullptr), number_of_references_(number_of_references)] *)
Definition HandleScope_ctor (this number_of_references : Z) : SE World unit :=
  store (link_addr this) nullptr ;;
  store (count_addr this) (u32 number_of_references).

(** [~HandleScope() {}]: the base destructor, run after a derived
    class's destructor body, does nothing. *)
Definition HandleScope_dtor (this : Z) : SE World unit := se_ret tt.

Definition NumberOfReferences (this : Z) : SE World Z := load (count_addr this).

Definition GetLink (this : Z) : SE World Z := load (link_addr this).

(** [DCHECK_NE(this, link); link_ = link;] *)
Definition SetLink (this link : Z) : SE World unit :=
  DCHECK (se_ret (check_that (bool_decide (this <> link)) (DCheckNe this link))) ;;
  store (link_addr this) link.

Definition SetNumberOfReferences (this num_references : Z) : SE World unit :=
  store (count_addr this) (u32 num_references).

(** [DCHECK_LT(i, number_of_references_)]: the condition reads the count. *)
Definition check_index (this i : Z) : SE World (option fault) :=
  n <- NumberOfReferences this ;;
  se_ret (check_that (bool_decide (i < n)) (DCheckLt i n)).

(** [DCHECK_LT(i, number_of_references_); return references_[i].AsMirrorPtr();] *)
Definition GetReference (this i : Z) : SE World Z :=
  DCHECK (check_index this i) ;;
  StackReference_AsMirrorPtr (ref_addr this i).

(** [DCHECK_LT(i, number_of_references_);
     return Handle<mirror::Object>(&references_[i]);] *)
Definition GetHandle (this i : Z) : SE World Handle :=
  DCHECK (check_index this i) ;;
  se_ret (mkHandle (ref_addr this i)).

(** [DCHECK_LT(i, number_of_references_); references_[i].Assign(object);] *)
Definition SetReference (this i object : Z) : SE World unit :=
  DCHECK (check_index this i) ;;
  StackReference_Assign (ref_addr this i) object.

(** [DCHECK_GT(number_of_references_, 0U);
     return &references_[0] <= entry && entry <= &references_[n - 1];]
    where [n - 1] is computed in [uint32_t]. *)
Definition Contains (this handle_scope_entry : Z) : SE World bool :=
  DCHECK (n <- NumberOfReferences this ;;
          se_ret (check_that (bool_decide (0 < n)) (DCheckGt n 0))) ;;
  n <- NumberOfReferences this ;;
  se_ret (bool_decide (ref_addr this 0 <= handle_scope_entry) &&
          bool_decide (handle_scope_entry <= ref_addr this (u32 (n - 1)))).

End Operations.

(** A scope of [n] slots at a non-null address [this] whose last byte is
    inside the address space of the build: none of its field addresses
    wraps around. *)
Definition scope_fits (p this n : Z) : Prop :=
  0 < this /\ 0 <= n /\ this + ReferencesOffset p + sizeof_StackReference * n <= 2 ^ (8 * p).

Section Addresses.
Context `{PointerSize p}.

Local Ltac fits_lia :=
  unfold scope_fits, ReferencesOffset, sizeof_StackReference, sizeof_uint32 in *;
  pose proof pointer_size_pos; lia.

Lemma link_addr_eq this n : scope_fits p this n -> link_addr p this = this.
Proof.
  intros. unfold link_addr. rewrite member_offset_link, Z.add_0_r.
  apply size_t_small. fits_lia.
Qed.

Lemma count_addr_eq this n : scope_fits p this n -> count_addr p this = this + p.
Proof.
  intros. unfold count_addr. rewrite member_offset_count.
  apply size_t_small. fits_lia.
Qed.

Lemma ref_addr_eq this n i :
  scope_fits p this n -> 0 <= i < n -> ref_addr p this i = this + p + 4 + 4 * i.
Proof.
  intros. unfold ref_addr. rewrite member_offset_references.
  rewrite size_t_small; fits_lia.
Qed.

Lemma ref_addr_ne_count this n i :
  scope_fits p this n -> 0 <= i < n -> ref_addr p this i <> count_addr p this.
Proof. intros. rewrite (ref_addr_eq this n i), (count_addr_eq this n) by done. lia. Qed.

Lemma ref_addr_ne_link this n i :
  scope_fits p this n -> 0 <= i < n -> ref_addr p this i <> link_addr p this.
Proof. intros. rewrite (ref_addr_eq this n i), (link_addr_eq this n) by done. fits_lia. Qed.

Lemma link_addr_ne_count this n : scope_fits p this n -> link_addr p this <> count_addr p this.
Proof. intros. rewrite (link_addr_eq this n), (count_addr_eq this n) by done. fits_lia. Qed.

Lemma ref_addr_inj this n i j :
  scope_fits p this n -> 0 <= i < n -> 0 <= j < n ->
  ref_addr p this i = ref_addr p this j -> i = j.
Proof. intros. rewrite (ref_addr_eq this n i), (ref_addr_eq this n j) in * by done. lia. Qed.

End Addresses.

#[export] Hint Resolve ref_addr_ne_count ref_addr_ne_link link_addr_ne_count : hs.

(** The count read back by [NumberOfReferences] once it is in memory. *)
Lemma NumberOfReferences_hit p w this n :
  mem w !! count_addr p this = Some n -> NumberOfReferences p this w = inr (n, w).
Proof. apply load_hit. Qed.

Lemma GetLink_hit p w this l :
  mem w !! link_addr p this = Some l -> GetLink p this w = inr (l, w).
Proof. apply load_hit. Qed.

(** ** The checked accessors in either build *)

Section Checks.
Context (p : Z) {bc : BuildConfig}.

Lemma check_index_reads this i : reads_only (check_index p this i).
Proof.
  intros w a w' Hrun. unfold check_index, NumberOfReferences, load, se_bind in Hrun.
  destruct (mem w !! count_addr p this); [|done]. by injection Hrun.
Qed.

Lemma check_index_pass w this n i :
  mem w !! count_addr p this = Some n -> i < n -> DCHECK (check_index p this i) w = inr (tt, w).
Proof.
  intros Hn Hi. apply DCHECK_pass. unfold check_index.
  rewrite (se_bind_inr _ _ _ _ _ (NumberOfReferences_hit _ _ _ _ Hn)).
  by rewrite bool_decide_eq_true_2.
Qed.

Lemma check_index_fail w this n i :
  kIsDebugBuild = true -> mem w !! count_addr p this = Some n -> n <= i ->
  DCHECK (check_index p this i) w = inl (DCheckLt i n).
Proof.
  intros Hd Hn Hi. eapply DCHECK_fail; [done|]. unfold check_index.
  rewrite (se_bind_inr _ _ _ _ _ (NumberOfReferences_hit _ _ _ _ Hn)).
  by rewrite bool_decide_eq_false_2 by lia.
Qed.

Lemma SetReference_ok w this n i obj :
  mem w !! count_addr p this = Some n -> i < n ->
  SetReference p this i obj w = inr (tt, world_store w (ref_addr p this i) (u32 obj)).
Proof. intros Hn Hi. unfold SetReference. by rewrite (se_bind_inr _ _ _ _ _ (check_index_pass w this n i Hn Hi)). Qed.

Lemma GetReference_ok w this n i :
  mem w !! count_addr p this = Some n -> i < n -> GetReference p this i w = load (ref_addr p this i) w.
Proof. intros Hn Hi. unfold GetReference. by rewrite (se_bind_inr _ _ _ _ _ (check_index_pass w this n i Hn Hi)). Qed.

Lemma GetHandle_ok w this n i :
  mem w !! count_addr p this = Some n -> i < n -> GetHandle p this i w = inr (mkHandle (ref_addr p this i), w).
Proof. intros Hn Hi. unfold GetHandle. by rewrite (se_bind_inr _ _ _ _ _ (check_index_pass w this n i Hn Hi)). Qed.

Lemma SetLink_ok w this link :
  this <> link -> SetLink p this link w = inr (tt, world_store w (link_addr p this) link).
Proof.
  intros Hne.
  assert (Hc : DCHECK (S := World) (se_ret (check_that (bool_decide (this <> link))
                                     (DCheckNe this link))) w = inr (tt, w)).
  { apply DCHECK_pass. unfold se_ret, check_that. by rewrite bool_decide_eq_true_2. }
  unfold SetLink. by rewrite (se_bind_inr _ _ _ _ _ Hc).
Qed.

Lemma SetReference_fail w this n i obj :
  kIsDebugBuild = true -> mem w !! count_addr p this = Some n -> n <= i ->
  SetReference p this i obj w = inl (DCheckLt i n).
Proof. intros Hd Hn Hi. unfold SetReference. by rewrite (se_bind_inl _ _ _ _ (check_index_fail w this n i Hd Hn Hi)). Qed.

(** A successful [SetReference] wrote slot [i], whose index passed the
    check in a debug build. *)
Lemma SetReference_inr_inv w this i obj w' :
  SetReference p this i obj w = inr (tt, w') ->
  w' = world_store w (ref_addr p this i) (u32 obj) /\
  (kIsDebugBuild = true -> exists n, mem w !! count_addr p this = Some n /\ i < n).
Proof.
  unfold SetReference, DCHECK, check_index, NumberOfReferences, load, se_bind.
  destruct kIsDebugBuild; [|intros [= <-]; split; [done|discriminate]].
  destruct (mem w !! count_addr p this) as [n|] eqn:Hn; [|done].
  unfold check_that. case_bool_decide; [|done]. intros [= <-]. eauto.
Qed.

End Checks.

#[export] Hint Resolve check_index_reads : se_le.

(** In a release build the accessors do not look at the count. *)
Lemma SetReference_release p this i obj w :
  SetReference (bc := release_build) p this i obj w =
  inr (tt, world_store w (ref_addr p this i) (u32 obj)).
Proof. reflexivity. Qed.

(** ** Debug and release builds

    Every run of an accessor that returns in a debug build returns the
    same result in a release build: the [DCHECK]s only read. *)

Section Builds.
Context (p : Z).

Lemma NumberOfReferences_reads this : reads_only (NumberOfReferences p this).
Proof. apply load_reads. Qed.

#[local] Hint Resolve NumberOfReferences_reads : se_le.

Lemma SetLink_le this link :
  se_le (SetLink (bc := debug_build) p this link) (SetLink (bc := release_build) p this link).
Proof. unfold SetLink. se_le_solve. Qed.

Lemma GetReference_le this i :
  se_le (GetReference (bc := debug_build) p this i) (GetReference (bc := release_build) p this i).
Proof. unfold GetReference. se_le_solve. Qed.

Lemma GetHandle_le this i :
  se_le (GetHandle (bc := debug_build) p this i) (GetHandle (bc := release_build) p this i).
Proof. unfold GetHandle. se_le_solve. Qed.

Lemma SetReference_le this i obj :
  se_le (SetReference (bc := debug_build) p this i obj) (SetReference (bc := release_build) p this i obj).
Proof. unfold SetReference. se_le_solve. Qed.

Lemma Contains_le this entry :
  se_le (Contains (bc := debug_build) p this entry) (Contains (bc := release_build) p this entry).
Proof. unfold Contains. se_le_solve. Qed.

End Builds.

#[export] Hint Resolve SetLink_le GetReference_le GetHandle_le SetReference_le Contains_le : se_le.

Section Properties.
Context `{PointerSize p} {bc : BuildConfig}.

(** C15 (roundtrip): in either build, in a scope of [n] slots, [SetReference(i, obj)]
    followed by [GetReference(i)] returns the compressed [obj] (the object
    itself for any 32-bit pointer, null included) for every [0 <= i < n],
    and the only memory changed is slot [i]. *)
Theorem SetReference_GetReference w this n i obj :
  scope_fits p this n -> mem w !! count_addr p this = Some n -> 0 <= i < n ->
  (SetReference p this i obj ;; GetReference p this i) w =
  inr (u32 obj, world_store w (ref_addr p this i) (u32 obj)).
Proof.
  intros Hfit Hn Hi. rewrite (se_bind_inr _ _ _ _ _ (SetReference_ok p w this n i obj Hn ltac:(lia))).
  rewrite (GetReference_ok p _ this n i) by (rewrite ?world_store_mem_ne; eauto with hs; lia).
  apply load_hit, world_store_mem_eq.
Qed.

(** C16 (error): in a debug build, an index at or past the count is a
    [DCHECK_LT] failure of [GetReference], [SetReference] and [GetHandle]
    alike. *)
Theorem accessors_out_of_range w this n i obj :
  kIsDebugBuild = true -> mem w !! count_addr p this = Some n -> n <= i ->
  GetReference p this i w = inl (DCheckLt i n) /\
  SetReference p this i obj w = inl (DCheckLt i n) /\
  GetHandle p this i w = inl (DCheckLt i n).
Proof.
  intros Hd Hn Hi. pose proof (check_index_fail p w this n i Hd Hn Hi) as Hf.
  unfold GetReference, SetReference, GetHandle. by rewrite !(se_bind_inl _ _ _ _ Hf).
Qed.

(** C17 (equivalence): in either build, reading through the handle
    [GetHandle(i)] returns is reading [GetReference(i)], in every state,
    faults included. *)
Theorem GetHandle_Get this i w :
  (h <- GetHandle p this i ;; Get h) w = GetReference p this i w.
Proof.
  unfold GetHandle, GetReference, se_bind.
  by destruct (DCHECK (check_index p this i) w) as [|[[] w']].
Qed.

(** C18 (error): a debug build's [SetLink] refuses to link a scope to
    itself; any other link, and in a release build any link at all, is
    stored and read back by [GetLink]. *)
Theorem SetLink_GetLink this link w :
  (SetLink p this link ;; GetLink p this) w =
  if kIsDebugBuild && bool_decide (this = link) then inl (DCheckNe this link)
  else inr (link, world_store w (link_addr p this) link).
Proof.
  unfold SetLink, DCHECK, se_bind, check_that.
  destruct kIsDebugBuild; simpl; repeat case_bool_decide; try done;
    apply load_hit, world_store_mem_eq.
Qed.

(** [Contains] of a scope with [n] slots compares [entry] with the first
    and the last slot's address; with no slot it is a [DCHECK_GT] failure. *)
Lemma Contains_range w this n entry :
  scope_fits p this n -> mem w !! count_addr p this = Some n -> 0 < n < 2 ^ 32 ->
  Contains p this entry w =
  inr (bool_decide (this + ReferencesOffset p <= entry <=
                    this + ReferencesOffset p + sizeof_StackReference * (n - 1)), w).
Proof.
  intros Hfit Hn Hn32. unfold Contains.
  assert (Hc : DCHECK (m <- NumberOfReferences p this ;;
                       se_ret (check_that (bool_decide (0 < m)) (DCheckGt m 0))) w = inr (tt, w)).
  { apply DCHECK_pass. rewrite (se_bind_inr _ _ _ _ _ (NumberOfReferences_hit _ _ _ _ Hn)).
    by rewrite bool_decide_eq_true_2 by lia. }
  rewrite (se_bind_inr _ _ _ _ _ Hc).
  rewrite (se_bind_inr _ _ _ _ _ (NumberOfReferences_hit _ _ _ _ Hn)).
  assert (Hu : u32 (n - 1) = n - 1) by (apply wrap_small; lia). rewrite Hu.
  rewrite (ref_addr_eq this n 0), (ref_addr_eq this n (n - 1)) by
    (unfold scope_fits in *; lia).
  unfold se_ret. do 2 f_equal.
  unfold ReferencesOffset, sizeof_uint32, sizeof_StackReference.
  repeat case_bool_decide; simpl; try done; exfalso; lia.
Qed.


(** C19 (functional): [Contains] answers true for the address of every
    slot [0 <= i < n] of a scope with [n >= 1] slots, and false for every
    address below the first slot or past the start of the last one. *)
Theorem Contains_slots w this n :
  scope_fits p this n -> mem w !! count_addr p this = Some n -> 0 < n < 2 ^ 32 ->
  (forall i, 0 <= i < n -> Contains p this (ref_addr p this i) w = inr (true, w)) /\
  (forall entry, entry < ref_addr p this 0 \/ ref_addr p this (n - 1) < entry ->
     Contains p this entry w = inr (false, w)).
Proof.
  intros Hfit Hn Hn32. split.
  - intros i Hi. rewrite (Contains_range w this n) by (done || lia).
    rewrite (ref_addr_eq this n i) by done.
    unfold ReferencesOffset, sizeof_uint32, sizeof_StackReference.
    rewrite bool_decide_eq_true_2; [done|lia].
  - intros entry He. rewrite (Contains_range w this n) by (done || lia).
    rewrite (ref_addr_eq this n 0), (ref_addr_eq this n (n - 1)) in He by (done || lia).
    unfold ReferencesOffset, sizeof_uint32, sizeof_StackReference.
    rewrite bool_decide_eq_false_2; [done|lia].
Qed.

(** C20 (layout): the slots [HandleScope] addresses through
    [references_] are the inline array [references_storage_] of
    [StackHandleScope<k>]: [&references_[i]] is [&references_storage_[i]]
    for every [i < k], on both pointer widths, because the compiler
    places [references_storage_], declared first, in the tail padding of
    the base [HandleScope]. *)
Theorem references_alias_storage this k i :
  scope_fits p this k -> 0 <= i < k ->
  ref_addr p this i =
  this + references_storage_offset ReuseTailPadding p k + sizeof_StackReference * i.
Proof.
  intros Hfit Hi. rewrite (ref_addr_eq this k i Hfit Hi), references_storage_offset_eq.
  unfold ReferencesOffset, sizeof_uint32, sizeof_StackReference. lia.
Qed.

End Properties.

(** C14 (safety): what the [DCHECK_LT] of [SetReference] protects.  On
    a 64-bit build, [SetReference(k, obj)] on a [StackHandleScope<k>] is a
    [DCHECK_LT] failure in a debug build; a release build performs it, and
    the compressed [obj] lands past [references_storage_], at the offset of
    the object's own [self_] field when [k] is odd and in the 4 bytes of
    padding just before it when [k] is even.  Its destructor then pops the
    chain of the thread [self_] now names. *)
Theorem overflow_debug_release this k obj w :
  scope_fits 8 this (k + 1) -> 0 <= k -> mem w !! count_addr 8 this = Some k ->
  SetReference (bc := debug_build) 8 this k obj w = inl (DCheckLt k k) /\
  SetReference (bc := release_build) 8 this k obj w =
    inr (tt, world_store w (this + nth 1 (StackHandleScope_offsets ReuseTailPadding 8 k) 0
                              - (if Z.even k then 4 else 0)) (u32 obj)).
Proof.
  intros Hfit Hk Hn. split.
  - apply (@SetReference_fail 8 debug_build w this k k obj); [done|done|lia].
  - rewrite SetReference_release, self_offset_64 by done.
    assert (Ha : ref_addr 8 this k =
                 this + (ReferencesOffset 8 + sizeof_StackReference * k + (if Z.even k then 4 else 0))
                 - (if Z.even k then 4 else 0)).
    { rewrite (@ref_addr_eq 8 ltac:(right; reflexivity) this (k + 1) k Hfit ltac:(lia)).
      unfold ReferencesOffset, sizeof_uint32, sizeof_StackReference. destruct (Z.even k); lia. }
    by rewrite Ha.
Qed.

(** ** Witnesses: a scope of three slots at address 1000 on a 64-bit debug
    build, its count at 1008. *)

#[local] Existing Instance debug_build.

Lemma SetReference_GetReference_witness :
  (SetReference 8 1000 1 (2 ^ 32 + 16) ;; GetReference 8 1000 1)
    (mkWorld {[1008 := 3]} ∅) =
  inr (u32 (2 ^ 32 + 16),
       world_store (mkWorld {[1008 := 3]} ∅) (ref_addr 8 1000 1) (u32 (2 ^ 32 + 16))).
Proof.
  apply (@SetReference_GetReference 8 ltac:(right; reflexivity) debug_build _ 1000 3);
    [unfold scope_fits, ReferencesOffset, sizeof_StackReference, sizeof_uint32; lia
    |reflexivity|lia].
Defined.

Lemma accessors_out_of_range_witness :
  GetReference 8 1000 3 (mkWorld {[1008 := 3]} ∅) = inl (DCheckLt 3 3) /\
  SetReference 8 1000 3 0 (mkWorld {[1008 := 3]} ∅) = inl (DCheckLt 3 3) /\
  GetHandle 8 1000 3 (mkWorld {[1008 := 3]} ∅) = inl (DCheckLt 3 3).
Proof. apply (@accessors_out_of_range 8 debug_build); [reflexivity|reflexivity|lia]. Defined.

Lemma GetHandle_Get_witness :
  (h <- GetHandle 8 1000 0 ;; Get h) (mkWorld {[1008 := 3; 1012 := 41]} ∅) =
  GetReference 8 1000 0 (mkWorld {[1008 := 3; 1012 := 41]} ∅).
Proof. apply (@GetHandle_Get 8 debug_build). Defined.

Lemma SetLink_GetLink_witness :
  (SetLink 8 1000 1000 ;; GetLink 8 1000) (mkWorld {[1008 := 3]} ∅) =
  inl (DCheckNe 1000 1000).
Proof. apply (@SetLink_GetLink 8 debug_build). Defined.

Lemma Contains_slots_witness :
  (forall i, 0 <= i < 3 ->
     Contains 8 1000 (ref_addr 8 1000 i) (mkWorld {[1008 := 3]} ∅) =
     inr (true, mkWorld {[1008 := 3]} ∅)) /\
  (forall entry, entry < ref_addr 8 1000 0 \/ ref_addr 8 1000 (3 - 1) < entry ->
     Contains 8 1000 entry (mkWorld {[1008 := 3]} ∅) = inr (false, mkWorld {[1008 := 3]} ∅)).
Proof.
  apply (@Contains_slots 8 ltac:(right; reflexivity) debug_build);
    [unfold scope_fits, ReferencesOffset, sizeof_StackReference, sizeof_uint32; lia
    |reflexivity|lia].
Defined.

Lemma references_alias_storage_witness :
  ref_addr 8 1000 2 = 1000 + references_storage_offset ReuseTailPadding 8 3 + sizeof_StackReference * 2.
Proof.
  apply (@references_alias_storage 8 ltac:(right; reflexivity) 1000 3 2);
    [unfold scope_fits; repeat split; vm_compute; try reflexivity; intros Hc; discriminate Hc
    |lia].
Defined.

Lemma overflow_debug_release_witness :
  SetReference (bc := debug_build) 8 1000 3 7 (mkWorld {[1008 := 3]} ∅) = inl (DCheckLt 3 3) /\
  SetReference (bc := release_build) 8 1000 3 7 (mkWorld {[1008 := 3]} ∅) =
    inr (tt, world_store (mkWorld {[1008 := 3]} ∅)
               (1000 + nth 1 (StackHandleScope_offsets ReuseTailPadding 8 3) 0
                - (if Z.even 3 then 4 else 0)) (u32 7)).
Proof.
  apply (overflow_debug_release 1000 3 7);
    [unfold scope_fits; repeat split; vm_compute; try reflexivity; intros Hc; discriminate Hc
    |lia|reflexivity].
Defined.

End HandleScope.
