(* ===== verification/Thread.v ===== *)
(** The thread's side of the chain (thread.h and thread.cc, outside
    [src/]; modelled from the spec, sections 4.3 and 6): the chain head
    [tlsPtr_.top_handle_scope] with [PushHandleScope] and
    [PopHandleScope], the garbage collector's walk
    [HandleScopeVisitRoots], and [HandleScopeContains].  Both walks follow
    [GetLink] until null, so their models take fuel: one unit per scope
    visited. *)

From S2P Require Import Prelude Layout Memory Handle HandleScope.
Import Layout Memory Handle HandleScope.

Local Open Scope Z_scope.
Local Open Scope hs_scope.

Module Thread.

Section Operations.
Context (p : Z) {bc : BuildConfig}.

Definition GetTopHandleScope (self : Z) : SE World Z := fun w =>
  match tls_top w !! self with
  | Some top => inr (top, w)
  | None => inl (BadAddress self)
  end.

Definition SetTopHandleScope (self handle_scope : Z) : SE World unit := fun w =>
  inr (tt, mkWorld (mem w) (<[self := handle_scope]> (tls_top w))).

(** [handle_scope->SetLink(tlsPtr_.top_handle_scope);
     tlsPtr_.top_handle_scope = handle_scope;] *)
Definition PushHandleScope (self handle_scope : Z) : SE World unit :=
  top <- GetTopHandleScope self ;;
  SetLink p handle_scope top ;;
  SetTopHandleScope self handle_scope.

(** [HandleScope* handle_scope = tlsPtr_.top_handle_scope;
     DCHECK(handle_scope != nullptr);
     tlsPtr_.top_handle_scope = tlsPtr_.top_handle_scope->GetLink();
     return handle_scope;] *)
Definition PopHandleScope (self : Z) : SE World Z :=
  handle_scope <- GetTopHandleScope self ;;
  DCHECK (se_ret (check_that (bool_decide (handle_scope <> nullptr)) DCheckNonNull)) ;;
  next <- GetLink p handle_scope ;;
  SetTopHandleScope self next ;;
  se_ret handle_scope.

(** The inner loop of [HandleScopeVisitRoots] over the slots [js] of the
    scope [cur]: a non-null [object] is passed to the root callback with
    its opaque [arg] (here: a state of type [A] the callback threads); if
    the callback moved the object, the slot is rewritten. *)
Fixpoint VisitReferences {A} (callback : A -> Z -> A * Z) (cur : Z) (js : list Z) (arg : A)
    : SE World A :=
  match js with
  | [] => se_ret arg
  | j :: js' =>
      object <- GetReference p cur j ;;
      if decide (object = nullptr) then VisitReferences callback cur js' arg
      else
        let '(arg', new_object) := callback arg object in
        (if decide (new_object = object) then se_ret tt
         else SetReference p cur j new_object) ;;
        VisitReferences callback cur js' arg'
  end.

(** [for (HandleScope* cur = top; cur; cur = cur->GetLink())
       for (size_t j = 0, count = cur->NumberOfReferences(); j < count; ++j) ...] *)
Fixpoint VisitChain {A} (callback : A -> Z -> A * Z) (fuel : nat) (cur : Z) (arg : A)
    : SE World A :=
  if decide (cur = nullptr) then se_ret arg
  else
    match fuel with
    | O => se_fail OutOfFuel
    | S fuel' =>
        count <- NumberOfReferences p cur ;;
        arg' <- VisitReferences callback cur (zseq count) arg ;;
        next <- GetLink p cur ;;
        VisitChain callback fuel' next arg'
    end.

Definition HandleScopeVisitRoots {A} (callback : A -> Z -> A * Z) (fuel : nat)
    (self : Z) (arg : A) : SE World A :=
  top <- GetTopHandleScope self ;;
  VisitChain callback fuel top arg.

(** [for (HandleScope* cur = top; cur != nullptr; cur = cur->GetLink())
       if (cur->Contains(hs_entry)) return true;]
    (the shadow-frame fallback that follows is not modelled: false). *)
Fixpoint ContainsChain (fuel : nat) (cur entry : Z) : SE World bool :=
  if decide (cur = nullptr) then se_ret false
  else
    match fuel with
    | O => se_fail OutOfFuel
    | S fuel' =>
        found <- Contains p cur entry ;;
        if found then se_ret true
        else
          next <- GetLink p cur ;;
          ContainsChain fuel' next entry
    end.

Definition HandleScopeContains (fuel : nat) (self entry : Z) : SE World bool :=
  top <- GetTopHandleScope self ;;
  ContainsChain fuel top entry.

End Operations.

(** ** Push and pop in either build *)

Lemma GetTopHandleScope_hit w self top :
  tls_top w !! self = Some top -> GetTopHandleScope self w = inr (top, w).
Proof. intros Ht. unfold GetTopHandleScope. by rewrite Ht. Qed.

Section Lemmas.
Context (p : Z) {bc : BuildConfig}.

(** The root walk of a thread starts at its chain head. *)
Lemma HandleScopeVisitRoots_top {A} (cb : A -> Z -> A * Z) fuel self arg w top :
  tls_top w !! self = Some top ->
  HandleScopeVisitRoots p cb fuel self arg w = VisitChain p cb fuel top arg w.
Proof. intros Ht. unfold HandleScopeVisitRoots. by rewrite (se_bind_inr _ _ _ _ _ (GetTopHandleScope_hit w self top Ht)). Qed.

Lemma HandleScopeContains_top fuel self entry w top :
  tls_top w !! self = Some top ->
  HandleScopeContains p fuel self entry w = ContainsChain p fuel top entry w.
Proof. intros Ht. unfold HandleScopeContains. by rewrite (se_bind_inr _ _ _ _ _ (GetTopHandleScope_hit w self top Ht)). Qed.

Lemma PopHandleScope_ok w self top next :
  tls_top w !! self = Some top -> top <> nullptr -> mem w !! link_addr p top = Some next ->
  PopHandleScope p self w = inr (top, mkWorld (mem w) (<[self := next]> (tls_top w))).
Proof.
  intros Ht Hnz Hl.
  assert (Hc : DCHECK (S := World) (se_ret (check_that (bool_decide (top <> nullptr))
                                     DCheckNonNull)) w = inr (tt, w)).
  { apply DCHECK_pass. unfold se_ret, check_that. by rewrite bool_decide_eq_true_2. }
  unfold PopHandleScope. rewrite (se_bind_inr _ _ _ _ _ (GetTopHandleScope_hit _ _ _ Ht)).
  rewrite (se_bind_inr _ _ _ _ _ Hc), (se_bind_inr _ _ _ _ _ (GetLink_hit _ _ _ _ Hl)).
  reflexivity.
Qed.

Lemma PopHandleScope_null w self :
  kIsDebugBuild = true -> tls_top w !! self = Some nullptr ->
  PopHandleScope p self w = inl DCheckNonNull.
Proof.
  intros Hd Ht. unfold PopHandleScope. rewrite (se_bind_inr _ _ _ _ _ (GetTopHandleScope_hit _ _ _ Ht)).
  unfold DCHECK. rewrite Hd. reflexivity.
Qed.

End Lemmas.

(** ** Debug and release builds *)

Section Builds.
Context (p : Z).

Lemma PushHandleScope_le self hs :
  se_le (PushHandleScope (bc := debug_build) p self hs) (PushHandleScope (bc := release_build) p self hs).
Proof. unfold PushHandleScope. se_le_solve. Qed.

Lemma PopHandleScope_le self :
  se_le (PopHandleScope (bc := debug_build) p self) (PopHandleScope (bc := release_build) p self).
Proof. unfold PopHandleScope. se_le_solve. Qed.

Lemma VisitReferences_le {A} (cb : A -> Z -> A * Z) cur js arg :
  se_le (VisitReferences (bc := debug_build) p cb cur js arg)
        (VisitReferences (bc := release_build) p cb cur js arg).
Proof.
  revert arg. induction js as [|j js IH]; intros arg; [apply se_le_refl|]. simpl.
  apply se_le_bind; [apply GetReference_le|intros object].
  apply se_le_decide; [apply IH|]. destruct (cb arg object) as [arg' o].
  apply se_le_bind; [apply se_le_decide; eauto with se_le|intros; apply IH].
Qed.

Lemma VisitChain_le {A} (cb : A -> Z -> A * Z) fuel cur arg :
  se_le (VisitChain (bc := debug_build) p cb fuel cur arg)
        (VisitChain (bc := release_build) p cb fuel cur arg).
Proof.
  revert cur arg. induction fuel as [|fuel IH]; intros cur arg; simpl;
    apply se_le_decide; try apply se_le_refl.
  apply se_le_bind; [apply se_le_refl|intros n].
  apply se_le_bind; [apply VisitReferences_le|intros arg'].
  apply se_le_bind; [apply se_le_refl|intros next]. apply IH.
Qed.

Lemma HandleScopeVisitRoots_le {A} (cb : A -> Z -> A * Z) fuel self arg :
  se_le (HandleScopeVisitRoots (bc := debug_build) p cb fuel self arg)
        (HandleScopeVisitRoots (bc := release_build) p cb fuel self arg).
Proof. unfold HandleScopeVisitRoots. apply se_le_bind; [apply se_le_refl|intros; apply VisitChain_le]. Qed.

Lemma ContainsChain_le fuel cur entry :
  se_le (ContainsChain (bc := debug_build) p fuel cur entry)
        (ContainsChain (bc := release_build) p fuel cur entry).
Proof.
  revert cur. induction fuel as [|fuel IH]; intros cur; simpl;
    apply se_le_decide; try apply se_le_refl.
  apply se_le_bind; [apply Contains_le|intros found].
  apply se_le_if; [apply se_le_refl|]. apply se_le_bind; [apply se_le_refl|intros; apply IH].
Qed.

Lemma HandleScopeContains_le fuel self entry :
  se_le (HandleScopeContains (bc := debug_build) p fuel self entry)
        (HandleScopeContains (bc := release_build) p fuel self entry).
Proof. unfold HandleScopeContains. apply se_le_bind; [apply se_le_refl|intros; apply ContainsChain_le]. Qed.

End Builds.

#[export] Hint Resolve PushHandleScope_le PopHandleScope_le VisitReferences_le VisitChain_le
  HandleScopeVisitRoots_le ContainsChain_le HandleScopeContains_le : se_le.

End Thread.
