(* ===== verification/StackHandleScope.v ===== *)
(** [template<size_t kNumReferences> class StackHandleScope]
    (handle_scope.h lines 162-189; constructor and destructor in
    handle_scope-inl.h, outside [src/], modelled from the spec section
    4.3).  The [HandleScope] part of the object (link, count, slots) lives
    in memory at [this_]; the private fields [self_] and [pos_], which only
    the object itself reads, are kept in the record. *)

From S2P Require Import Prelude Layout Memory Handle HandleScope Thread.
Import Layout Memory Handle HandleScope Thread.

Local Open Scope Z_scope.
Local Open Scope hs_scope.

Module StackHandleScope.

Record StackHandleScope := mkStackHandleScope {
  this_ : Z;
  kNumReferences : Z;
  self_ : Z;
  pos_ : Z
}.

Section Operations.
Context (p : Z) {bc : BuildConfig}.

(** [StackHandleScope(Thread* self) : HandleScope(kNumReferences),
       self_(self), pos_(0) {
       DCHECK_EQ(&references_[0], &references_storage_[0]);
       for (size_t i = 0; i < kNumReferences; ++i) SetReference(i, nullptr);
       self_->PushHandleScope(this); }]
    [&references_storage_[0]] is at the member's offset in the class
    layout the compiler uses (the base's tail padding reused). *)
Definition StackHandleScope_ctor (k this self : Z) : SE World StackHandleScope :=
  HandleScope_ctor p this k ;;
  DCHECK (se_ret (check_that
    (bool_decide (ref_addr p this 0 = size_t p (this + references_storage_offset ReuseTailPadding p k)))
    (DCheckEq (ref_addr p this 0) (size_t p (this + references_storage_offset ReuseTailPadding p k))))) ;;
  se_for (zseq k) (fun i => SetReference p this i nullptr) ;;
  PushHandleScope p self this ;;
  se_ret (mkStackHandleScope this k self 0).

(** [~StackHandleScope() {
       HandleScope* top_handle_scope = self_->PopHandleScope();
       DCHECK_EQ(top_handle_scope, this); }], followed by the base class's
    [~HandleScope()]. *)
Definition StackHandleScope_dtor (s : StackHandleScope) : SE World unit :=
  top_handle_scope <- PopHandleScope p (self_ s) ;;
  DCHECK (se_ret (check_that (bool_decide (top_handle_scope = this_ s))
                             (DCheckEq top_handle_scope (this_ s)))) ;;
  HandleScope_dtor (this_ s).

Definition advance (s : StackHandleScope) : StackHandleScope :=
  mkStackHandleScope (this_ s) (kNumReferences s) (self_ s) (size_t p (pos_ s + 1)).

(** [SetReference(pos_, object); return Handle<T>(GetHandle(pos_++));] *)
Definition NewHandle (s : StackHandleScope) (object : Z)
    : SE World (Handle * StackHandleScope) :=
  SetReference p (this_ s) (pos_ s) object ;;
  h <- GetHandle p (this_ s) (pos_ s) ;;
  se_ret (h, advance s).

(** [SetReference(pos_, *object); Handle<T> h(GetHandle(pos_++));
     return HandleWrapper<T>(object, h);] *)
Definition NewHandleWrapper (s : StackHandleScope) (object : Z)
    : SE World (HandleWrapper * StackHandleScope) :=
  v <- load object ;;
  SetReference p (this_ s) (pos_ s) v ;;
  h <- GetHandle p (this_ s) (pos_ s) ;;
  se_ret (mkHandleWrapper object h, advance s).

End Operations.

(** ** The constructor's layout check *)

(** The constructor's [DCHECK_EQ] holds on both pointer widths: the
    compiler places [references_storage_] at [ReferencesOffset]. *)
Lemma ctor_storage_check `{PointerSize p} {bc : BuildConfig} this k w :
  DCHECK (S := World) (se_ret (check_that
    (bool_decide (ref_addr p this 0 = size_t p (this + references_storage_offset ReuseTailPadding p k)))
    (DCheckEq (ref_addr p this 0) (size_t p (this + references_storage_offset ReuseTailPadding p k))))) w =
  inr (tt, w).
Proof.
  apply DCHECK_pass. rewrite bool_decide_eq_true_2; [done|].
  unfold ref_addr. rewrite member_offset_references, references_storage_offset_eq. f_equal. lia.
Qed.

(** ** The destructor in either build *)

(** After the pop, the destructor only checks: in a debug build a popped
    scope other than [this] is a [DCHECK_EQ] failure, in a release build
    it goes unnoticed. *)
Lemma StackHandleScope_dtor_pop p {bc : BuildConfig} w s top w' :
  PopHandleScope p (self_ s) w = inr (top, w') ->
  StackHandleScope_dtor p s w =
  if kIsDebugBuild && negb (bool_decide (top = this_ s)) then inl (DCheckEq top (this_ s))
  else inr (tt, w').
Proof.
  intros Hpop. unfold StackHandleScope_dtor. rewrite (se_bind_inr _ _ _ _ _ Hpop).
  unfold DCHECK, check_that, se_bind, se_ret.
  destruct kIsDebugBuild; simpl; [|done]. by case_bool_decide.
Qed.

(** ** Debug and release builds *)

Section Builds.
Context (p : Z).

Lemma StackHandleScope_ctor_le k this self :
  se_le (StackHandleScope_ctor (bc := debug_build) p k this self)
        (StackHandleScope_ctor (bc := release_build) p k this self).
Proof. unfold StackHandleScope_ctor. se_le_solve. Qed.

Lemma StackHandleScope_dtor_le s :
  se_le (StackHandleScope_dtor (bc := debug_build) p s) (StackHandleScope_dtor (bc := release_build) p s).
Proof. unfold StackHandleScope_dtor. se_le_solve. Qed.

Lemma NewHandle_le s object :
  se_le (NewHandle (bc := debug_build) p s object) (NewHandle (bc := release_build) p s object).
Proof. unfold NewHandle. se_le_solve. Qed.

Lemma NewHandleWrapper_le s object :
  se_le (NewHandleWrapper (bc := debug_build) p s object)
        (NewHandleWrapper (bc := release_build) p s object).
Proof. unfold NewHandleWrapper. se_le_solve. Qed.

End Builds.

#[export] Hint Resolve StackHandleScope_ctor_le StackHandleScope_dtor_le NewHandle_le
  NewHandleWrapper_le : se_le.

End StackHandleScope.
