(* ===== verification/Refinement.v ===== *)
(** The abstract contract of a thread's handle scopes, and the proof that
    the concrete code implements it.  Abstractly a thread holds a stack of
    scopes, newest first, each a base address and the list of its slot
    values; the roots the collector must see are the non-null slots.
    [world_rep] relates a [World] to such a stack: the thread's chain head
    is the newest scope, every scope's [link_] is the next one's base,
    its count and slots are in memory, and the scopes' byte ranges are
    disjoint and inside the address space. *)

From S2P Require Import Prelude Layout Memory Handle HandleScope Thread StackHandleScope.
Import Layout Memory Handle HandleScope Thread StackHandleScope.

Local Open Scope Z_scope.
Local Open Scope hs_scope.

Module Refinement.

(** ** The abstract model *)

Record AScope := mkAScope { a_base : Z; a_refs : list Z }.

Definition a_count (s : AScope) : Z := Z.of_nat (length (a_refs s)).

Definition chain_head (c : list AScope) : Z :=
  match c with [] => nullptr | s :: _ => a_base s end.

Definition a_push (c : list AScope) (base k : Z) : list AScope :=
  mkAScope base (replicate (Z.to_nat k) nullptr) :: c.

Definition a_set_slot (s : AScope) (i v : Z) : AScope :=
  mkAScope (a_base s) (<[Z.to_nat i := v]> (a_refs s)).

Definition a_set (c : list AScope) (d : nat) (i v : Z) : list AScope :=
  alter (fun s => a_set_slot s i v) d c.

(** The roots: every non-null slot, newest scope first, slot order within
    a scope. *)
Definition a_roots (c : list AScope) : list Z :=
  concat (map (fun s => filter (fun v => v <> nullptr) (a_refs s)) c).

(** ** The representation *)

Definition scope_end (p : Z) (s : AScope) : Z :=
  a_base s + ReferencesOffset p + sizeof_StackReference * a_count s.

Definition in_scope (p : Z) (s : AScope) (a : Z) : Prop := a_base s <= a < scope_end p s.

Definition scope_ok (p : Z) (s : AScope) : Prop :=
  scope_fits p (a_base s) (a_count s) /\ a_count s < 2 ^ 32.

Definition apart (p : Z) (s t : AScope) : Prop := scope_end p s <= a_base t \/ scope_end p t <= a_base s.

Fixpoint chain_ok (p : Z) (c : list AScope) : Prop :=
  match c with
  | [] => True
  | s :: c' => scope_ok p s /\ Forall (apart p s) c' /\ chain_ok p c'
  end.

Definition scope_rep (p : Z) (m : gmap Z Z) (s : AScope) (link : Z) : Prop :=
  m !! link_addr p (a_base s) = Some link /\
  m !! count_addr p (a_base s) = Some (a_count s) /\
  forall i v, a_refs s !! i = Some v -> m !! ref_addr p (a_base s) (Z.of_nat i) = Some v.

Fixpoint chain_rep (p : Z) (m : gmap Z Z) (c : list AScope) : Prop :=
  match c with
  | [] => True
  | s :: c' => scope_rep p m s (chain_head c') /\ chain_rep p m c'
  end.

Definition world_rep (p : Z) (w : World) (self : Z) (c : list AScope) : Prop :=
  tls_top w !! self = Some (chain_head c) /\ chain_rep p (mem w) c /\ chain_ok p c.

(** *** An executable check of the representation *)

Fixpoint refs_repb (p : Z) (m : gmap Z Z) (base : Z) (i : nat) (vs : list Z) : bool :=
  match vs with
  | [] => true
  | v :: vs' => bool_decide (m !! ref_addr p base (Z.of_nat i) = Some v) &&
                refs_repb p m base (S i) vs'
  end.

Definition scope_repb (p : Z) (m : gmap Z Z) (s : AScope) (link : Z) : bool :=
  bool_decide (m !! link_addr p (a_base s) = Some link) &&
  bool_decide (m !! count_addr p (a_base s) = Some (a_count s)) &&
  refs_repb p m (a_base s) 0 (a_refs s).

Fixpoint chain_repb (p : Z) (m : gmap Z Z) (c : list AScope) : bool :=
  match c with
  | [] => true
  | s :: c' => scope_repb p m s (chain_head c') && chain_repb p m c'
  end.

Definition scope_okb (p : Z) (s : AScope) : bool :=
  bool_decide (0 < a_base s /\ 0 <= a_count s /\
    scope_end p s <= 2 ^ (8 * p) /\ a_count s < 2 ^ 32).

Definition apartb (p : Z) (s t : AScope) : bool :=
  bool_decide (scope_end p s <= a_base t \/ scope_end p t <= a_base s).

Fixpoint chain_okb (p : Z) (c : list AScope) : bool :=
  match c with
  | [] => true
  | s :: c' => scope_okb p s && forallb (apartb p s) c' && chain_okb p c'
  end.

Definition world_repb (p : Z) (w : World) (self : Z) (c : list AScope) : bool :=
  bool_decide (tls_top w !! self = Some (chain_head c)) && chain_repb p (mem w) c &&
  chain_okb p c.

(** *** The collector's view *)

(** A root callback that never moves an object (a marking visitor). *)
Definition non_moving {A} (callback : A -> Z -> A * Z) : Prop :=
  forall arg object, snd (callback arg object) = object.

(** The state a callback has threaded through the roots [roots], in order. *)
Definition visit_fold {A} (callback : A -> Z -> A * Z) (arg : A) (roots : list Z) : A :=
  foldl (fun acc object => fst (callback acc object)) arg roots.

(** The callback that records every root it is shown. *)
Definition record_root (acc : list Z) (object : Z) : list Z * Z := (acc ++ [object], object).

(** What the walk does to one scope's slots with any callback, moving
    ones included: each non-null slot is shown to the callback, and a slot
    whose object moved holds the new object, compressed by [SetReference]. *)
Fixpoint a_visit_refs {A} (callback : A -> Z -> A * Z) (arg : A) (vs : list Z)
    : A * list Z :=
  match vs with
  | [] => (arg, [])
  | v :: vs' =>
      if decide (v = nullptr) then
        let '(arg', vs'') := a_visit_refs callback arg vs' in (arg', v :: vs'')
      else
        let '(arg1, o) := callback arg v in
        let '(arg', vs'') := a_visit_refs callback arg1 vs' in
        (arg', (if decide (o = v) then v else u32 o) :: vs'')
  end.

(** The collector's walk over an abstract stack: newest scope first. *)
Fixpoint a_visit {A} (callback : A -> Z -> A * Z) (arg : A) (c : list AScope)
    : A * list AScope :=
  match c with
  | [] => (arg, [])
  | s :: c' =>
      let '(arg1, vs) := a_visit_refs callback arg (a_refs s) in
      let '(arg', c'') := a_visit callback arg1 c' in
      (arg', mkAScope (a_base s) vs :: c'')
  end.

(** A compacting collector's callback: every object moves [d] bytes up;
    the state counts the roots visited. *)
Definition move_by (d : Z) (visited : nat) (object : Z) : nat * Z := (S visited, object + d).

(** The slot range [Contains] checks, for an abstract scope. *)
Definition slots_contain (p : Z) (s : AScope) (entry : Z) : bool :=
  bool_decide (a_base s + ReferencesOffset p <= entry <=
               a_base s + ReferencesOffset p + sizeof_StackReference * (a_count s - 1)).

#[export] Instance in_scope_dec p s a : Decision (in_scope p s a).
Proof. unfold in_scope. apply _. Defined.

Ltac scope_lia :=
  repeat match goal with H : Forall _ _ |- _ => clear H end;
  unfold in_scope, scope_ok, apart, scope_fits in *;
  unfold scope_end, a_count, ReferencesOffset, sizeof_StackReference, sizeof_uint32 in *;
  pose proof pointer_size_pos; lia.

Section Rep.
Context `{PointerSize p} {bc : BuildConfig}.

(** ** Frame lemmas *)

Lemma scope_fields_in s :
  scope_ok p s ->
  in_scope p s (link_addr p (a_base s)) /\ in_scope p s (count_addr p (a_base s)) /\
  forall i, 0 <= i < a_count s -> in_scope p s (ref_addr p (a_base s) i).
Proof.
  intros Hok. destruct Hok as [Hfit _].
  rewrite (link_addr_eq _ _ Hfit), (count_addr_eq _ _ Hfit).
  split; [scope_lia|]. split; [scope_lia|].
  intros i Hi. rewrite (ref_addr_eq _ _ _ Hfit Hi). scope_lia.
Qed.

Lemma apart_not_in s t a : apart p s t -> in_scope p t a -> ~ in_scope p s a.
Proof. scope_lia. Qed.

Lemma lookup_a_refs_lt s i v : a_refs s !! i = Some v -> 0 <= Z.of_nat i < a_count s.
Proof. intros Hi. apply lookup_lt_Some in Hi. unfold a_count. lia. Qed.

Lemma scope_rep_insert_outside m s l a v :
  scope_ok p s -> ~ in_scope p s a -> scope_rep p m s l -> scope_rep p (<[a := v]> m) s l.
Proof.
  intros Hok Ha (Hl & Hc & Hr). destruct (scope_fields_in s Hok) as (Il & Ic & Ir).
  split; [|split].
  - rewrite lookup_insert_ne; [done|]. intros ->. by apply Ha.
  - rewrite lookup_insert_ne; [done|]. intros ->. by apply Ha.
  - intros i x Hi. rewrite lookup_insert_ne; [by apply Hr|].
    intros ->. apply Ha, Ir, (lookup_a_refs_lt _ _ _ Hi).
Qed.

Lemma chain_rep_insert_outside m c a v :
  chain_ok p c -> Forall (fun s => ~ in_scope p s a) c -> chain_rep p m c ->
  chain_rep p (<[a := v]> m) c.
Proof.
  induction c as [|s c IH]; [done|]; simpl.
  intros (Hok & _ & Hok') Hout [Hs Hc]. apply Forall_cons in Hout as [Ha Hout].
  split; [by apply scope_rep_insert_outside | by apply IH].
Qed.

Lemma apart_sym s t : apart p s t -> apart p t s.
Proof. unfold apart. lia. Qed.

Lemma a_count_set_slot s i v : a_count (a_set_slot s i v) = a_count s.
Proof. unfold a_count, a_set_slot. simpl. by rewrite length_insert. Qed.

Lemma scope_end_set_slot s i v : scope_end p (a_set_slot s i v) = scope_end p s.
Proof. unfold scope_end. by rewrite a_count_set_slot. Qed.

Lemma scope_ok_set_slot s i v : scope_ok p (a_set_slot s i v) <-> scope_ok p s.
Proof. unfold scope_ok. by rewrite a_count_set_slot. Qed.

Lemma apart_set_slot_l s t i v : apart p (a_set_slot s i v) t <-> apart p s t.
Proof. unfold apart. by rewrite scope_end_set_slot. Qed.

Lemma apart_set_slot_r s t i v : apart p s (a_set_slot t i v) <-> apart p s t.
Proof. unfold apart. by rewrite scope_end_set_slot. Qed.

Lemma chain_head_a_set c d i v : chain_head (a_set c d i v) = chain_head c.
Proof. by destruct c, d. Qed.

Lemma chain_ok_a_set c d i v : chain_ok p c -> chain_ok p (a_set c d i v).
Proof.
  revert d. induction c as [|s c IH]; intros [|d]; simpl; [done..| |].
  - intros (Hok & Hap & Hc). rewrite scope_ok_set_slot.
    split; [done|]. split; [|done].
    eapply Forall_impl; [exact Hap|]. intros t. by rewrite apart_set_slot_l.
  - intros (Hok & Hap & Hc). split; [done|]. split; [|by apply IH].
    apply Forall_alter; [done|]. intros t _. by rewrite apart_set_slot_r.
Qed.

(** Writing slot [i] of a scope updates that slot of its abstract view. *)
Lemma scope_rep_set_slot m s l i v :
  scope_ok p s -> 0 <= i < a_count s -> scope_rep p m s l ->
  scope_rep p (<[ref_addr p (a_base s) i := v]> m) (a_set_slot s i v) l.
Proof.
  intros [Hfit _] Hi (Hl & Hc & Hr).
  unfold scope_rep. change (a_base (a_set_slot s i v)) with (a_base s).
  rewrite a_count_set_slot. split; [|split].
  - rewrite lookup_insert_ne; [done|]. by eapply ref_addr_ne_link.
  - rewrite lookup_insert_ne; [done|]. by eapply ref_addr_ne_count.
  - intros j x Hj. simpl in Hj. destruct (decide (j = Z.to_nat i)) as [->|Hne].
    + rewrite list_lookup_insert_eq in Hj by (unfold a_count in Hi; lia).
      injection Hj as <-. rewrite Z2Nat.id by lia. apply lookup_insert_eq.
    + rewrite list_lookup_insert_ne in Hj by done.
      pose proof (lookup_a_refs_lt s j x Hj).
      rewrite lookup_insert_ne; [by apply Hr|].
      intros Heq. apply (ref_addr_inj _ _ _ _ Hfit Hi) in Heq; lia.
Qed.

Lemma chain_ok_lookup c d s : chain_ok p c -> c !! d = Some s -> scope_ok p s.
Proof.
  revert d. induction c as [|t c IH]; intros [|d]; simpl; [done..| |].
  - by intros (? & _ & _) [= <-].
  - intros (_ & _ & Hc). by apply IH.
Qed.

(** Writing slot [i] of the scope at depth [d] of a chain updates exactly
    that slot of the abstract chain. *)
Lemma chain_rep_set m c d s i v :
  chain_ok p c -> c !! d = Some s -> 0 <= i < a_count s -> chain_rep p m c ->
  chain_rep p (<[ref_addr p (a_base s) i := v]> m) (a_set c d i v).
Proof.
  revert d. induction c as [|t c IH]; intros [|d]; simpl; [done..| |].
  - intros (Hok & Hap & Hc) [= ->] Hi [Hs Hcr].
    split; [by apply scope_rep_set_slot|].
    apply chain_rep_insert_outside; [done| |done].
    eapply Forall_impl; [exact Hap|]. intros u Hu.
    apply (apart_not_in u s); [by apply apart_sym|].
    by apply (scope_fields_in s Hok).
  - intros (Hok & Hap & Hc) Hd Hi [Hs Hcr].
    rewrite chain_head_a_set. split; [|by apply IH].
    apply scope_rep_insert_outside; [done| |done].
    apply (apart_not_in t s); [by eapply Forall_lookup_1|].
    by apply (scope_fields_in s (chain_ok_lookup _ _ _ Hc Hd)).
Qed.

Lemma chain_rep_lookup m c d s :
  chain_rep p m c -> c !! d = Some s -> exists l, scope_rep p m s l.
Proof.
  revert d. induction c as [|t c IH]; intros [|d]; simpl; [done..| |].
  - intros [Hs _] [= <-]. eauto.
  - intros [_ Hc]. by apply IH.
Qed.

Lemma world_rep_count w self c d s :
  world_rep p w self c -> c !! d = Some s -> mem w !! count_addr p (a_base s) = Some (a_count s).
Proof.
  intros (_ & Hc & _) Hd. by destruct (chain_rep_lookup _ _ _ _ Hc Hd) as (l & _ & ? & _).
Qed.

(** [SetReference] on a slot of any live scope simulates [a_set]. *)
Lemma SetReference_refines w self c d s i v :
  world_rep p w self c -> c !! d = Some s -> 0 <= i < a_count s ->
  SetReference p (a_base s) i v w =
    inr (tt, world_store w (ref_addr p (a_base s) i) (u32 v)) /\
  world_rep p (world_store w (ref_addr p (a_base s) i) (u32 v)) self (a_set c d i (u32 v)).
Proof.
  intros Hw Hd Hi. pose proof (world_rep_count _ _ _ _ _ Hw Hd) as Hn.
  split.
  - apply (SetReference_ok p w _ (a_count s)); [done|lia].
  - destruct Hw as (Ht & Hc & Hok). split; [|split].
    + by rewrite world_store_tls, chain_head_a_set.
    + by apply chain_rep_set.
    + by apply chain_ok_a_set.
Qed.

Lemma refs_repb_sound m base i vs :
  refs_repb p m base i vs = true ->
  forall j v, vs !! j = Some v -> m !! ref_addr p base (Z.of_nat (i + j)) = Some v.
Proof.
  revert i. induction vs as [|v vs IH]; intros i Hb j x Hj; [done|].
  simpl in Hb. apply andb_prop in Hb as [Hv%bool_decide_eq_true Hb].
  destruct j as [|j]; simpl in Hj.
  - injection Hj as <-. by rewrite Nat.add_0_r.
  - rewrite <- Nat.add_succ_comm. by apply IH.
Qed.

Lemma scope_okb_sound s : scope_okb p s = true -> scope_ok p s.
Proof.
  unfold scope_okb. intros Hs%bool_decide_eq_true.
  unfold scope_ok, scope_fits, scope_end in *. lia.
Qed.

Lemma apartb_sound s t : apartb p s t = true -> apart p s t.
Proof. unfold apartb. by intros Hs%bool_decide_eq_true. Qed.

Lemma chain_okb_sound c : chain_okb p c = true -> chain_ok p c.
Proof.
  induction c as [|s c IH]; [done|]. simpl.
  intros Hb. apply andb_prop in Hb as [Hb Hc]. apply andb_prop in Hb as [Hs Hap].
  split; [by apply scope_okb_sound|]. split; [|by apply IH].
  apply Forall_forall. intros t Ht. rewrite forallb_forall in Hap.
  apply list_elem_of_In in Ht. by apply apartb_sound, Hap.
Qed.

(** The executable check implies the representation. *)
Lemma world_repb_sound w self c : world_repb p w self c = true -> world_rep p w self c.
Proof.
  unfold world_repb. intros (Hb & Hok)%andb_prop. apply andb_prop in Hb as [Ht Hc].
  split; [by apply bool_decide_eq_true in Ht|]. split; [|by apply chain_okb_sound].
  clear Ht Hok. induction c as [|s c IH]; [done|]. simpl in Hc.
  apply andb_prop in Hc as [Hs Hc]. split; [|by apply IH].
  unfold scope_repb in Hs. apply andb_prop in Hs as [Hs Hr]. apply andb_prop in Hs as [Hl Hn].
  split; [by apply bool_decide_eq_true in Hl|]. split; [by apply bool_decide_eq_true in Hn|].
  intros i v Hi. exact (refs_repb_sound _ _ 0 _ Hr i v Hi).
Qed.

(** Two memories that agree on a scope's bytes represent it alike. *)
Lemma scope_rep_agree m m' s l :
  scope_ok p s -> (forall a, in_scope p s a -> m' !! a = m !! a) ->
  scope_rep p m s l -> scope_rep p m' s l.
Proof.
  intros Hok Hag (Hl & Hc & Hr). destruct (scope_fields_in s Hok) as (Il & Ic & Ir).
  split; [|split].
  - by rewrite Hag.
  - by rewrite Hag.
  - intros i x Hi. rewrite Hag; [by apply Hr|]. apply Ir, (lookup_a_refs_lt _ _ _ Hi).
Qed.

Lemma chain_rep_agree m m' c :
  chain_ok p c -> (forall s a, s ∈ c -> in_scope p s a -> m' !! a = m !! a) ->
  chain_rep p m c -> chain_rep p m' c.
Proof.
  induction c as [|s c IH]; [done|]; simpl.
  intros (Hok & _ & Hok') Hag [Hs Hc]. split.
  - apply (scope_rep_agree m); [done| |done]. intros a. apply Hag. left.
  - apply IH; [done| |done]. intros t a Ht. apply Hag. by right.
Qed.

(** The [for] loop of the constructor stores null in slots [js]. *)
Lemma clear_slots_spec w this k js :
  scope_fits p this k -> mem w !! count_addr p this = Some k ->
  (forall j, j ∈ js -> 0 <= j < k) ->
  exists w', se_for js (fun i => SetReference p this i nullptr) w = inr (tt, w') /\
    tls_top w' = tls_top w /\
    forall a, mem w' !! a =
      if decide (a ∈ map (ref_addr p this) js) then Some nullptr else mem w !! a.
Proof.
  revert w. induction js as [|j js IH]; intros w Hfit Hn Hjs.
  { exists w. split; [done|]. split; [done|]. intros a. by rewrite decide_False by set_solver. }
  assert (Hj : 0 <= j < k) by (apply Hjs; set_solver).
  set (w1 := world_store w (ref_addr p this j) (u32 nullptr)).
  assert (Hset : SetReference p this j nullptr w = inr (tt, w1)).
  { apply (SetReference_ok p w this k); [done|lia]. }
  assert (Hn1 : mem w1 !! count_addr p this = Some k).
  { unfold w1. rewrite world_store_mem_ne; [done|]. by eapply ref_addr_ne_count. }
  destruct (IH w1 Hfit Hn1) as (w' & Hrun & Htls & Hmem); [set_solver|].
  exists w'. cbn [se_for]. rewrite (se_bind_inr _ _ _ _ _ Hset). split; [done|]. split; [done|].
  intros a. rewrite Hmem. unfold w1.
  destruct (decide (a = ref_addr p this j)) as [->|Hne].
  - rewrite world_store_mem_eq. by repeat case_decide; try set_solver.
  - rewrite world_store_mem_ne by done. by repeat case_decide; try set_solver.
Qed.

Lemma PushHandleScope_spec w self this top :
  tls_top w !! self = Some top -> this <> top ->
  PushHandleScope p self this w =
  inr (tt, mkWorld (<[link_addr p this := top]> (mem w)) (<[self := this]> (tls_top w))).
Proof.
  intros Ht Hne. unfold PushHandleScope, GetTopHandleScope, se_bind.
  rewrite Ht, SetLink_ok by done. reflexivity.
Qed.

(** A new scope apart p from every live one is not the current head. *)
Lemma fresh_ne_head s c : scope_ok p s -> Forall (apart p s) c -> a_base s <> chain_head c.
Proof.
  intros Hok Hap. destruct c as [|t c]; simpl.
  - unfold nullptr. scope_lia.
  - apply Forall_cons in Hap as [Hst _]. scope_lia.
Qed.

Lemma a_count_new this k : 0 <= k -> a_count (mkAScope this (replicate (Z.to_nat k) nullptr)) = k.
Proof. intros. unfold a_count. simpl. rewrite length_replicate. lia. Qed.

(** [a_set] is an insertion at the scope's index. *)
Lemma a_set_insert c d a i v :
  c !! d = Some a -> a_set c d i v = <[d := a_set_slot a i v]> c.
Proof.
  revert d. induction c as [|b c IH]; intros [|d]; simpl; [done..| |].
  - by intros [= ->].
  - intros Hd. unfold a_set in *. simpl. by rewrite IH.
Qed.

Lemma a_visit_refs_length {A} (cb : A -> Z -> A * Z) arg vs :
  length (a_visit_refs cb arg vs).2 = length vs.
Proof.
  revert arg. induction vs as [|v vs IH]; intros arg; [done|]. simpl.
  case_decide.
  - destruct (a_visit_refs cb arg vs) eqn:E. simpl. by rewrite <- (IH arg), E.
  - destruct (cb arg v) as [arg1 o]. destruct (a_visit_refs cb arg1 vs) eqn:E.
    simpl. by rewrite <- (IH arg1), E.
Qed.

Lemma in_scope_set_slot s i v a : in_scope p (a_set_slot s i v) a <-> in_scope p s a.
Proof. unfold in_scope. rewrite scope_end_set_slot. done. Qed.

Lemma chain_rep_app_r m pre rest : chain_rep p m (pre ++ rest) -> chain_rep p m rest.
Proof. induction pre as [|t pre IH]; [done|]. intros [_ ?]. by apply IH. Qed.

Lemma chain_ok_app_r pre rest : chain_ok p (pre ++ rest) -> chain_ok p rest.
Proof. induction pre as [|t pre IH]; [done|]. intros (_ & _ & ?). by apply IH. Qed.

(** A scope in the middle of a represented chain is in memory, linked to
    the next older one. *)
Lemma world_rep_mid w self pre s rest :
  world_rep p w self (pre ++ s :: rest) ->
  scope_ok p s /\ scope_rep p (mem w) s (chain_head rest).
Proof.
  intros (_ & Hc & Hok). split.
  - apply (chain_ok_lookup (pre ++ s :: rest) (length pre)); [done|].
    by rewrite list_lookup_middle.
  - by destruct (chain_rep_app_r _ _ _ Hc).
Qed.

End Rep.


Section Lifecycle.
Context (p : Z) {Hp : PointerSize p} {bc : BuildConfig}.

(** Constructing a [StackHandleScope<k>] whose bytes are
    apart p from every live scope always succeeds, returns the object with
    cursor 0, and pushes a scope of [k] null slots on the abstract stack:
    the new scope is the chain head and links to the previous head. *)
Lemma ctor_sim w self c k this :
  world_rep p w self c -> 0 <= k ->
  scope_ok p (mkAScope this (replicate (Z.to_nat k) nullptr)) ->
  Forall (apart p (mkAScope this (replicate (Z.to_nat k) nullptr))) c ->
  exists w', StackHandleScope_ctor p k this self w = inr (mkStackHandleScope this k self 0, w') /\
             world_rep p w' self (a_push c this k) /\
             (forall a, ~ in_scope p (mkAScope this (replicate (Z.to_nat k) nullptr)) a ->
                        mem w' !! a = mem w !! a) /\
             tls_top w' = <[self := this]> (tls_top w).
Proof.
  intros (Ht & Hc & Hok) Hk0 Hnew Hap.
  set (s := mkAScope this (replicate (Z.to_nat k) nullptr)) in *.
  pose proof (a_count_new this k Hk0) as Hk. fold s in Hk.
  assert (Hfit : scope_fits p this k) by (rewrite <- Hk; apply Hnew).
  destruct (scope_fields_in s Hnew) as (Il & Ic & Ir). rewrite Hk in Ir.
  set (w1 := world_store (world_store w (link_addr p this) nullptr) (count_addr p this) (u32 k)).
  assert (Hn1 : mem w1 !! count_addr p this = Some k).
  { unfold w1. rewrite world_store_mem_eq. f_equal. apply wrap_small. destruct Hnew. lia. }
  destruct (clear_slots_spec w1 this k (zseq k) Hfit Hn1) as (w2 & Hrun & Htls & Hmem).
  { intros j. by rewrite elem_of_zseq. }
  assert (Hpush := PushHandleScope_spec (p := p) w2 self this (chain_head c)
    ltac:(by rewrite Htls) (fresh_ne_head s c Hnew Hap)).
  eexists. split.
  { unfold StackHandleScope_ctor.
    rewrite (se_bind_inr (HandleScope_ctor p this k) _ w tt w1 eq_refl).
    rewrite (se_bind_inr _ _ w1 tt w1 (ctor_storage_check this k w1)).
    rewrite (se_bind_inr _ _ w1 tt w2 Hrun).
    by rewrite (se_bind_inr _ _ _ _ _ Hpush). }
  (* the memory after the constructor *)
  assert (Hw1 : forall a, mem w1 !! a = if decide (a = count_addr p this) then Some (u32 k)
                 else if decide (a = link_addr p this) then Some nullptr else mem w !! a).
  { intros a. unfold w1, world_store; simpl. by repeat (case_decide; simplify_map_eq). }
  assert (Hout : forall a, ~ in_scope p s a ->
            (<[link_addr p this := chain_head c]> (mem w2)) !! a = mem w !! a).
  { intros a Ha. rewrite lookup_insert_ne by (intros <-; by apply Ha).
    rewrite Hmem, decide_False, Hw1, !decide_False; [done|..].
    - intros ->. by apply Ha.
    - intros ->. by apply Ha.
    - rewrite list_elem_of_fmap. intros (j & -> & Hj%elem_of_zseq). by apply Ha, Ir. }
  split; [|split; [exact Hout|by simpl; rewrite Htls]].
  split; [|split].
  - simpl. apply lookup_insert_eq.
  - cbn [mem a_push chain_rep chain_head]. split.
    + unfold scope_rep. change (a_base s) with this.
      split; [apply lookup_insert_eq|split].
      * rewrite lookup_insert_ne by (by apply link_addr_ne_count with (n := k)).
        rewrite Hmem, decide_False; [etransitivity; [exact Hn1|]; f_equal; exact (eq_sym Hk)|].
        rewrite list_elem_of_fmap. intros (j & Hj & Hj'%elem_of_zseq).
        by eapply (ref_addr_ne_count this k j).
      * intros i v Hi. simpl in Hi. apply lookup_replicate in Hi as [-> Hi].
        rewrite lookup_insert_ne by (apply not_eq_sym, (ref_addr_ne_link this k); [done|lia]).
        rewrite Hmem, decide_True; [done|]. rewrite list_elem_of_fmap.
        exists (Z.of_nat i). rewrite elem_of_zseq. split; [done|lia].
    + apply (chain_rep_agree (mem w)); [done| |done].
      intros t a Hta Hin. apply Hout. eapply apart_not_in; [|exact Hin].
      by apply (proj1 (Forall_forall _ _) Hap).
  - done.
Qed.

(** Destroying the object of the newest scope pops it:
    the thread's chain head becomes that scope's link, i.e. the previous
    head, and the remaining scopes are represented unchanged. *)
Lemma dtor_sim w self a c s :
  world_rep p w self (a :: c) -> this_ s = a_base a -> self_ s = self ->
  StackHandleScope_dtor p s w =
    inr (tt, mkWorld (mem w) (<[self := chain_head c]> (tls_top w))) /\
  world_rep p (mkWorld (mem w) (<[self := chain_head c]> (tls_top w))) self c.
Proof.
  intros (Ht & [(Hl & _ & _) Hc] & Hok & _ & Hok') Hthis Hself.
  split; [|split; [apply lookup_insert_eq|done]].
  rewrite <- Hself in Ht |- *. cbn [chain_head] in Ht.
  rewrite (StackHandleScope_dtor_pop p w s (a_base a) _
             (PopHandleScope_ok p w _ _ _ Ht ltac:(unfold nullptr; scope_lia) Hl)).
  by rewrite bool_decide_eq_true_2, andb_false_r.
Qed.

(** In a release build the destructor of any object of the thread pops
    the chain's head, whichever scope that is. *)
Lemma dtor_release_pops w self a c s :
  world_rep p w self (a :: c) -> self_ s = self ->
  StackHandleScope_dtor (bc := release_build) p s w =
    inr (tt, mkWorld (mem w) (<[self := chain_head c]> (tls_top w))) /\
  world_rep p (mkWorld (mem w) (<[self := chain_head c]> (tls_top w))) self c.
Proof.
  intros (Ht & [(Hl & _ & _) Hc] & Hok & _ & Hok') Hself.
  split; [|split; [apply lookup_insert_eq|done]].
  rewrite <- Hself in Ht |- *. cbn [chain_head] in Ht.
  by rewrite (StackHandleScope_dtor_pop (bc := release_build) p w s (a_base a) _
             (PopHandleScope_ok (bc := release_build) p w _ _ _ Ht ltac:(unfold nullptr; scope_lia) Hl)).
Qed.

(** Destroying any object other than the newest scope's is a contract
    violation: [DCHECK_EQ] fails, or, on an empty chain, [PopHandleScope]'s
    [DCHECK(handle_scope != nullptr)]. *)
Lemma dtor_fault w self c s :
  kIsDebugBuild = true ->
  world_rep p w self c -> self_ s = self -> this_ s <> chain_head c ->
  StackHandleScope_dtor p s w =
    inl (match c with [] => DCheckNonNull | a :: _ => DCheckEq (a_base a) (this_ s) end).
Proof.
  intros Hd (Ht & Hc & Hok) Hself Hne. rewrite <- Hself in Ht.
  destruct c as [|a c].
  { unfold StackHandleScope_dtor. by rewrite (se_bind_inl _ _ _ _ (PopHandleScope_null p w _ Hd Ht)). }
  destruct Hc as [(Hl & _ & _) _]. destruct Hok as (Hoka & _). cbn [chain_head] in Ht.
  rewrite (StackHandleScope_dtor_pop p w s (a_base a) _
             (PopHandleScope_ok p w _ _ _ Ht ltac:(unfold nullptr; scope_lia) Hl)).
  rewrite Hd, bool_decide_eq_false_2; [done|]. simpl in Hne. congruence.
Qed.

(** [NewHandle(object)] on a live scope (the newest or
    an outer one) whose cursor is below its capacity stores the compressed
    object in the cursor's slot, returns a handle to that slot which reads
    the object back, advances the cursor by one, and changes nothing else
    of the abstract stack. *)
Lemma NewHandle_sim w self c d a s obj :
  world_rep p w self c -> c !! d = Some a -> this_ s = a_base a ->
  0 <= pos_ s < a_count a ->
  let h := mkHandle (ref_addr p (a_base a) (pos_ s)) in
  let w' := world_store w (ref_addr p (a_base a) (pos_ s)) (u32 obj) in
  NewHandle p s obj w = inr ((h, advance p s), w') /\
  Get h w' = inr (u32 obj, w') /\
  pos_ (advance p s) = pos_ s + 1 /\
  world_rep p w' self (a_set c d (pos_ s) (u32 obj)).
Proof.
  intros Hw Hd Hthis Hpos h w'.
  pose proof (chain_ok_lookup _ _ _ (proj2 (proj2 Hw)) Hd) as [Hfit Hn32].
  destruct (SetReference_refines w self c d a (pos_ s) obj Hw Hd Hpos) as [Hset Hrep].
  assert (Hn : mem w' !! count_addr p (a_base a) = Some (a_count a)).
  { unfold w'. rewrite world_store_mem_ne by (by eapply ref_addr_ne_count).
    by apply (world_rep_count w self c d). }
  split; [|split; [|split]].
  - unfold NewHandle. rewrite Hthis, (se_bind_inr _ _ _ _ _ Hset).
    by rewrite (se_bind_inr _ _ _ _ _ (GetHandle_ok p w' (a_base a) (a_count a) (pos_ s) Hn ltac:(lia))).
  - apply load_hit, world_store_mem_eq.
  - simpl. apply size_t_small. pose proof pointer_size_pos.
    assert (2 ^ 32 <= 2 ^ (8 * p)) by (apply Z.pow_le_mono_r; lia). lia.
  - done.
Qed.

(** C13 (error): in a debug build, [NewHandle] once the cursor has
    reached the scope's capacity is a [DCHECK_LT] failure: allocation
    never writes past the slots of its scope (C14 shows what a release
    build does instead). *)
Theorem NewHandle_capacity w self c d a s obj :
  kIsDebugBuild = true ->
  world_rep p w self c -> c !! d = Some a -> this_ s = a_base a -> a_count a <= pos_ s ->
  NewHandle p s obj w = inl (DCheckLt (pos_ s) (a_count a)).
Proof.
  intros Hdbg Hw Hd Hthis Hpos. unfold NewHandle. rewrite Hthis.
  by rewrite (se_bind_inl _ _ _ _ (SetReference_fail p w _ _ _ obj Hdbg
                                     (world_rep_count w self c d a Hw Hd) Hpos)).
Qed.

(** A destructor that returns was run on the object of the newest scope. *)
Lemma dtor_inr_head w self c s r :
  kIsDebugBuild = true ->
  world_rep p w self c -> self_ s = self -> StackHandleScope_dtor p s w = inr r ->
  exists a c', c = a :: c' /\ this_ s = a_base a.
Proof.
  intros Hd Hw Hself Hrun. destruct (decide (this_ s = chain_head c)) as [Heq|Hne].
  - destruct c as [|a c]; [|by exists a, c].
    destruct Hw as (Ht & _). rewrite <- Hself in Ht. unfold StackHandleScope_dtor in Hrun.
    by rewrite (se_bind_inl _ _ _ _ (PopHandleScope_null p w _ Hd Ht)) in Hrun.
  - by rewrite (dtor_fault w self c s Hd Hw Hself Hne) in Hrun.
Qed.

(** A [NewHandle] that returns had its cursor inside the scope. *)
Lemma NewHandle_inr_pos w self c d a s obj r :
  kIsDebugBuild = true ->
  world_rep p w self c -> c !! d = Some a -> this_ s = a_base a ->
  NewHandle p s obj w = inr r -> pos_ s < a_count a.
Proof.
  intros Hdbg Hw Hd Hthis Hrun. unfold NewHandle in Hrun.
  apply se_bind_inr_inv in Hrun as ([] & w1 & Hset & _). rewrite Hthis in Hset.
  destruct (proj2 (SetReference_inr_inv p w _ _ _ _ Hset) Hdbg) as (n & Hn & Hlt).
  rewrite (world_rep_count w self c d a Hw Hd) in Hn. by injection Hn as <-.
Qed.

(** C8 (functional): a [HandleWrapper] made by [NewHandleWrapper(&raw)]
    over a raw pointer variable outside every scope leaves [raw] alone
    while the scope is in use, even when the handle's slot is moved to
    [B]; its destructor then writes [B] back into [raw]. *)
Theorem HandleWrapper_writes_back self w a c s r A B :
  world_rep p w self (a :: c) -> this_ s = a_base a -> 0 <= pos_ s < a_count a ->
  Forall (fun t => ~ in_scope p t r) (a :: c) -> mem w !! r = Some A ->
  exists hw s' w1 w2 w3,
    NewHandleWrapper p s r w = inr ((hw, s'), w1) /\ mem w1 !! r = Some A /\
    SetReference p (this_ s) (pos_ s) B w1 = inr (tt, w2) /\ mem w2 !! r = Some A /\
    HandleWrapper_dtor hw w2 = inr (tt, w3) /\ mem w3 !! r = Some (u32 B).
Proof.
  intros Hw Hb Hpos Hout HA.
  pose proof (chain_ok_lookup _ _ _ (proj2 (proj2 Hw)) (eq_refl : (a :: c) !! 0%nat = Some a))
    as Hoka.
  set (ref := ref_addr p (a_base a) (pos_ s)).
  assert (Hr : r <> ref).
  { apply Forall_cons in Hout as [Hra _]. intros ->. apply Hra.
    by apply (scope_fields_in a Hoka). }
  destruct (SetReference_refines w self (a :: c) 0 a (pos_ s) A Hw eq_refl Hpos) as [Hset1 Hw1].
  set (w1 := world_store w ref (u32 A)) in *.
  assert (Hn1 : mem w1 !! count_addr p (a_base a) = Some (a_count a)).
  { unfold w1. rewrite world_store_mem_ne by (eapply ref_addr_ne_count; [apply Hoka|exact Hpos]).
    by apply (world_rep_count w self (a :: c) 0). }
  destruct (SetReference_refines w1 self _ 0 (a_set_slot a (pos_ s) (u32 A)) (pos_ s) B Hw1 eq_refl)
    as [Hset2 _]; [by rewrite a_count_set_slot|].
  simpl in Hset2. fold ref in Hset2. set (w2 := world_store w1 ref (u32 B)) in *.
  exists (mkHandleWrapper r (mkHandle ref)), (advance p s), w1, w2,
    (world_store w2 r (u32 B)).
  split; [|split; [|split; [|split; [|split]]]].
  - unfold NewHandleWrapper. rewrite (se_bind_inr _ _ _ _ _ (load_hit _ _ _ HA)), Hb.
    rewrite (se_bind_inr _ _ _ _ _ Hset1). fold ref. fold w1.
    by rewrite (se_bind_inr _ _ _ _ _ (GetHandle_ok p w1 (a_base a) (a_count a) (pos_ s) Hn1 ltac:(lia))).
  - unfold w1. by rewrite world_store_mem_ne.
  - by rewrite Hb.
  - unfold w2, w1. by rewrite !world_store_mem_ne.
  - unfold HandleWrapper_dtor, se_bind. cbn [handle_ obj_ reference_ Get StackReference_AsMirrorPtr].
    unfold Get, StackReference_AsMirrorPtr. cbn [reference_]. by rewrite (load_hit w2 ref (u32 B)) by apply world_store_mem_eq.
  - apply world_store_mem_eq.
Qed.

End Lifecycle.

(** ** The collector's walk *)

Lemma visit_fold_record_root acc roots : visit_fold record_root acc roots = acc ++ roots.
Proof.
  revert acc. induction roots as [|o roots IH]; intros acc; simpl.
  - by rewrite app_nil_r.
  - unfold visit_fold in *. simpl. by rewrite IH, <- app_assoc.
Qed.

Lemma record_root_non_moving : non_moving record_root.
Proof. done. Qed.

Lemma lookup_zseq n i : (i < Z.to_nat n)%nat -> zseq n !! i = Some (Z.of_nat i).
Proof. intros Hi. unfold zseq. rewrite list_lookup_fmap, lookup_seq_lt by done. done. Qed.

Section Walk.
Context `{PointerSize p} {bc : BuildConfig}.

Lemma GetReference_rep w s l i v :
  scope_rep p (mem w) s l -> a_refs s !! i = Some v ->
  GetReference p (a_base s) (Z.of_nat i) w = inr (v, w).
Proof.
  intros (_ & Hc & Hr) Hi. pose proof (lookup_a_refs_lt _ _ _ Hi).
  rewrite (GetReference_ok p w _ (a_count s)) by (done || lia). by apply load_hit, Hr.
Qed.

Lemma VisitReferences_non_moving {A} (cb : A -> Z -> A * Z) this js vs arg w :
  non_moving cb ->
  Forall2 (fun j v => GetReference p this j w = inr (v, w)) js vs ->
  VisitReferences p cb this js arg w =
  inr (visit_fold cb arg (filter (fun v => v <> nullptr) vs), w).
Proof.
  intros Hnm Hjs. revert arg. induction Hjs as [|j v js vs Hj Hjs IH]; intros arg; [done|].
  simpl. rewrite (se_bind_inr _ _ _ _ _ Hj), filter_cons.
  repeat case_decide; try congruence; try (apply IH; fail).
  specialize (Hnm arg v). destruct (cb arg v) as [arg' o'] eqn:Hcb. simpl in Hnm. subst o'.
  rewrite decide_True by done. rewrite se_bind_ret_l, IH. unfold visit_fold. simpl. by rewrite Hcb.
Qed.

Lemma VisitReferences_scope {A} (cb : A -> Z -> A * Z) s l arg w :
  non_moving cb -> scope_rep p (mem w) s l ->
  VisitReferences p cb (a_base s) (zseq (a_count s)) arg w =
  inr (visit_fold cb arg (filter (fun v => v <> nullptr) (a_refs s)), w).
Proof.
  intros Hnm Hrep. apply VisitReferences_non_moving; [done|].
  apply Forall2_same_length_lookup_2.
  { rewrite length_zseq. unfold a_count. lia. }
  intros i j v Hj Hv. rewrite lookup_zseq in Hj.
  - injection Hj as <-. by apply (GetReference_rep w s l).
  - apply lookup_lt_Some in Hv. unfold a_count. lia.
Qed.

(** The walk from the chain head visits exactly the abstract roots when
    it has one unit of fuel per scope, and runs out of fuel otherwise. *)
Lemma VisitChain_non_moving {A} (cb : A -> Z -> A * Z) c fuel arg w :
  non_moving cb -> chain_ok p c -> chain_rep p (mem w) c ->
  VisitChain p cb fuel (chain_head c) arg w =
  if decide (length c <= fuel)%nat then inr (visit_fold cb arg (a_roots c), w)
  else inl OutOfFuel.
Proof.
  intros Hnm. revert fuel arg. induction c as [|s c IH]; intros fuel arg Hok Hrep.
  { rewrite decide_True by (simpl; lia). by destruct fuel. }
  destruct Hok as (Hoks & _ & Hok). destruct Hrep as [Hs Hrep].
  assert (Hnz : a_base s <> nullptr) by (unfold nullptr; scope_lia).
  destruct fuel as [|fuel]; cbn [VisitChain chain_head]; rewrite decide_False by done.
  { rewrite decide_False; [done|]. simpl. lia. }
  destruct Hs as (Hl & Hc & Hr).
  rewrite (se_bind_inr _ _ _ _ _ (NumberOfReferences_hit _ _ _ _ Hc)).
  rewrite (se_bind_inr _ _ _ _ _ (VisitReferences_scope cb s _ arg w Hnm (conj Hl (conj Hc Hr)))).
  rewrite (se_bind_inr _ _ _ _ _ (load_hit _ _ _ Hl)).
  rewrite IH by done. unfold visit_fold, a_roots. simpl. rewrite foldl_app.
  repeat case_decide; try done; lia.
Qed.

(** C10 (refinement): with one unit of fuel per live scope, the
    collector's [HandleScopeVisitRoots] with a non-moving callback visits
    exactly the abstract roots (every non-null slot, newest scope first)
    and leaves the world unchanged; with less fuel the walk is still
    running. *)
Theorem HandleScopeVisitRoots_refines {A} (cb : A -> Z -> A * Z) w self c fuel arg :
  world_rep p w self c -> non_moving cb ->
  HandleScopeVisitRoots p cb fuel self arg w =
  if decide (length c <= fuel)%nat then inr (visit_fold cb arg (a_roots c), w)
  else inl OutOfFuel.
Proof.
  intros (Ht & Hc & Hok) Hnm. rewrite (HandleScopeVisitRoots_top p cb fuel self arg w _ Ht).
  by apply VisitChain_non_moving.
Qed.

Lemma ContainsChain_spec c fuel entry w :
  chain_ok p c -> chain_rep p (mem w) c -> Forall (fun s => 0 < a_count s) c ->
  (length c <= fuel)%nat ->
  ContainsChain p fuel (chain_head c) entry w =
  inr (existsb (fun s => slots_contain p s entry) c, w).
Proof.
  revert fuel. induction c as [|s c IH]; intros fuel Hok Hrep Hne Hfuel.
  { by destruct fuel. }
  destruct Hok as ([Hfit Hn32] & _ & Hok). destruct Hrep as [(Hl & Hc & Hr) Hrep].
  apply Forall_cons in Hne as [Hn0 Hne].
  destruct fuel as [|fuel]; [simpl in Hfuel; lia|].
  cbn [ContainsChain chain_head]. rewrite decide_False by (unfold nullptr; scope_lia).
  pose proof (Contains_range w (a_base s) (a_count s) entry Hfit Hc (conj Hn0 Hn32)) as Hcont.
  rewrite (se_bind_inr _ _ _ _ _ Hcont). cbn [existsb]. unfold slots_contain at 1.
  case_bool_decide; [done|]. simpl.
  rewrite (se_bind_inr _ _ _ _ _ (load_hit _ _ _ Hl)).
  apply IH; [done..|simpl in Hfuel; lia].
Qed.

(** In a debug build [Contains] on a scope whose count is 0 fails its
    [DCHECK_GT]. *)
Lemma Contains_empty w this entry :
  kIsDebugBuild = true -> mem w !! count_addr p this = Some 0 ->
  Contains p this entry w = inl (DCheckGt 0 0).
Proof.
  intros Hd Hc. unfold Contains. apply se_bind_inl. eapply DCHECK_fail; [done|].
  by rewrite (se_bind_inr _ _ _ _ _ (NumberOfReferences_hit _ _ _ _ Hc)).
Qed.

(** The containment walk reaches the first empty scope of the chain when
    no newer scope holds the entry, and aborts there. *)
Lemma ContainsChain_empty c1 s0 c2 fuel entry w :
  kIsDebugBuild = true -> chain_ok p (c1 ++ s0 :: c2) -> chain_rep p (mem w) (c1 ++ s0 :: c2) ->
  Forall (fun s => 0 < a_count s /\ slots_contain p s entry = false) c1 -> a_count s0 = 0 ->
  (length c1 < fuel)%nat ->
  ContainsChain p fuel (chain_head (c1 ++ s0 :: c2)) entry w = inl (DCheckGt 0 0).
Proof.
  intros Hd. revert fuel. induction c1 as [|s c1 IH]; intros fuel Hok Hrep Hne H0 Hfuel;
    (destruct fuel as [|fuel]; [simpl in Hfuel; lia|]).
  - destruct Hok as ([Hfit Hn32] & _ & _). destruct Hrep as [(Hl & Hc & Hr) _].
    cbn [ContainsChain chain_head app]. rewrite decide_False by (unfold nullptr; scope_lia).
    apply se_bind_inl. apply Contains_empty; [done|]. by rewrite Hc, H0.
  - destruct Hok as ([Hfit Hn32] & _ & Hok). destruct Hrep as [(Hl & Hc & Hr) Hrep].
    apply Forall_cons in Hne as [[Hn0 Hns] Hne].
    cbn [ContainsChain chain_head app]. rewrite decide_False by (unfold nullptr; scope_lia).
    rewrite (se_bind_inr _ _ _ _ _ (Contains_range w (a_base s) (a_count s) entry Hfit Hc (conj Hn0 Hn32))).
    unfold slots_contain in Hns. rewrite Hns. cbn beta iota.
    rewrite (se_bind_inr _ _ _ _ _ (load_hit _ _ _ Hl)).
    apply IH; [done..|simpl in Hfuel; lia].
Qed.

(** One slot of the inner loop: the slot [i] of scope [s] holds [v]; the
    loop's effect on it is the abstract one. *)
Lemma VisitReferences_moving {A} (cb : A -> Z -> A * Z) self vs : forall c d s i arg w,
  world_rep p w self c -> c !! d = Some s -> drop i (a_refs s) = vs ->
  exists w', VisitReferences p cb (a_base s) (map Z.of_nat (seq i (length vs))) arg w =
    inr ((a_visit_refs cb arg vs).1, w') /\
    world_rep p w' self
      (<[d := mkAScope (a_base s) (take i (a_refs s) ++ (a_visit_refs cb arg vs).2)]> c) /\
    (forall a, ~ in_scope p s a -> mem w' !! a = mem w !! a) /\ tls_top w' = tls_top w.
Proof.
  induction vs as [|v vs IH]; intros c d s i arg w Hw Hd Hdrop.
  { exists w. split; [done|]. split; [|split; [by intros|done]]. simpl. rewrite app_nil_r.
    rewrite take_ge by (apply length_zero_iff_nil in Hdrop; rewrite length_drop in Hdrop; lia).
    destruct s. by rewrite list_insert_id. }
  assert (Hv : a_refs s !! i = Some v).
  { rewrite <- (Nat.add_0_r i), <- lookup_drop, Hdrop. done. }
  assert (Hdrop' : drop (S i) (a_refs s) = vs).
  { rewrite <- Nat.add_1_r, <- drop_drop, Hdrop. done. }
  destruct Hw as (Ht & Hc & Hok) eqn:Hw'. clear Hw'.
  destruct (chain_rep_lookup _ _ _ _ Hc Hd) as [l Hsr].
  pose proof (GetReference_rep w s l i v Hsr Hv) as Hget.
  assert (Hlt : (i < length (a_refs s))%nat) by (eapply lookup_lt_Some; eauto).
  cbn [length seq map VisitReferences a_visit_refs]. rewrite (se_bind_inr _ _ _ _ _ Hget).
  case_decide as Hnull.
  { destruct (IH c d s (S i) arg w (conj Ht (conj Hc Hok)) Hd Hdrop') as (w' & Hrun & Hrep & Hfr & Htls).
    destruct (a_visit_refs cb arg vs) as [a1 R] eqn:E. exists w'. split; [done|]. split; [|by split].
    by rewrite (take_S_r _ _ _ Hv), <- app_assoc in Hrep. }
  destruct (cb arg v) as [arg1 o] eqn:Ecb. case_decide as Hmove.
  { destruct (IH c d s (S i) arg1 w (conj Ht (conj Hc Hok)) Hd Hdrop') as (w' & Hrun & Hrep & Hfr & Htls).
    rewrite se_bind_ret_l. destruct (a_visit_refs cb arg1 vs) as [a1 R] eqn:E.
    exists w'. split; [done|]. split; [|by split]. subst o.
    by rewrite (take_S_r _ _ _ Hv), <- app_assoc in Hrep. }
  destruct (SetReference_refines w self c d s (Z.of_nat i) o (conj Ht (conj Hc Hok)) Hd)
    as [Hset Hw1]; [unfold a_count; lia|].
  rewrite (se_bind_inr _ _ _ _ _ Hset).
  set (s1 := a_set_slot s (Z.of_nat i) (u32 o)).
  assert (Hd1 : <[d := s1]> c !! d = Some s1)
    by (apply list_lookup_insert_eq; eapply lookup_lt_Some; eauto).
  assert (Hrefs1 : a_refs s1 = <[i := u32 o]> (a_refs s)) by (simpl; by rewrite Nat2Z.id).
  assert (Hdrop1 : drop (S i) (a_refs s1) = vs) by (rewrite Hrefs1, drop_insert_lt by lia; done).
  rewrite (a_set_insert _ _ _ _ _ Hd) in Hw1.
  destruct (IH _ d s1 (S i) arg1 _ Hw1 Hd1 Hdrop1) as (w' & Hrun & Hrep & Hfr & Htls).
  destruct (a_visit_refs cb arg1 vs) as [a1 R] eqn:E.
  exists w'. split; [done|]. split.
  - rewrite list_insert_insert_eq in Hrep. rewrite Hrefs1 in Hrep.
    rewrite (take_S_r _ _ (u32 o)), take_insert_ge, <- app_assoc in Hrep by
      (try apply list_lookup_insert_eq; lia). done.
  - split; [|by rewrite Htls].
    intros a Ha. rewrite Hfr by (unfold s1; by rewrite in_scope_set_slot).
    apply world_store_mem_ne. intros <-. apply Ha.
    apply (scope_fields_in s); [eapply chain_ok_lookup; eauto|unfold a_count; lia].
Qed.

(** The collector's walk from scope [rest] on (the older part of the
    chain [pre ++ rest]) with any callback. *)
Lemma VisitChain_moving {A} (cb : A -> Z -> A * Z) self rest : forall pre fuel arg w,
  world_rep p w self (pre ++ rest) ->
  ((length rest <= fuel)%nat ->
   exists w', VisitChain p cb fuel (chain_head rest) arg w = inr ((a_visit cb arg rest).1, w') /\
     world_rep p w' self (pre ++ (a_visit cb arg rest).2) /\
     (forall a, Forall (fun s => ~ in_scope p s a) rest -> mem w' !! a = mem w !! a) /\
     tls_top w' = tls_top w) /\
  ((fuel < length rest)%nat -> VisitChain p cb fuel (chain_head rest) arg w = inl OutOfFuel).
Proof.
  induction rest as [|s rest IH]; intros pre fuel arg w Hw.
  { split; [|simpl; lia]. intros _. exists w. rewrite app_nil_r in *.
    split; [by destruct fuel|]. split; [done|]. split; [by intros|done]. }
  destruct (world_rep_mid _ _ _ _ _ Hw) as [Hoks [Hl [Hc Hr]]].
  assert (Hnz : a_base s <> nullptr) by (unfold nullptr; scope_lia).
  destruct fuel as [|fuel].
  { split; [intros; simpl in *; lia|]. intros _. cbn. by rewrite decide_False. }
  assert (Hd : (pre ++ s :: rest) !! length pre = Some s) by (by rewrite list_lookup_middle).
  destruct (VisitReferences_moving cb self (a_refs s) _ _ s 0 arg w Hw Hd eq_refl)
    as (w1 & Hrun1 & Hw1 & Hfr1 & Htls1).
  rewrite insert_app_r_alt, Nat.sub_diag in Hw1 by lia. cbn [take app] in Hw1.
  destruct (a_visit_refs cb arg (a_refs s)) as [arg1 vs] eqn:E1. simpl in Hrun1, Hw1.
  destruct (world_rep_mid _ _ _ _ _ Hw1) as [_ [Hl1 _]].
  assert (Hstep : VisitChain p cb (S fuel) (a_base s) arg w =
                  VisitChain p cb fuel (chain_head rest) arg1 w1).
  { cbn [VisitChain]. rewrite decide_False by done.
    rewrite (se_bind_inr _ _ _ _ _ (NumberOfReferences_hit _ _ _ _ Hc)).
    unfold zseq, a_count. rewrite Nat2Z.id, (se_bind_inr _ _ _ _ _ Hrun1).
    by rewrite (se_bind_inr _ _ _ _ _ (load_hit _ _ _ Hl1)). }
  cbn [chain_head a_visit]. rewrite Hstep, E1.
  rewrite cons_middle, app_assoc in Hw1.
  destruct (IH _ fuel arg1 w1 Hw1) as [IH1 IH2]. split.
  - intros Hfuel. destruct (IH1 ltac:(simpl in Hfuel; lia)) as (w' & Hrun & Hw' & Hfr & Htls).
    destruct (a_visit cb arg1 rest) as [arg' c''] eqn:E2. exists w'. simpl in *.
    split; [done|]. split; [by rewrite cons_middle, app_assoc|].
    split; [|by rewrite Htls].
    intros a Ha. apply Forall_cons in Ha as [Has Ha]. rewrite Hfr by done. by apply Hfr1.
  - intros Hfuel. apply IH2. simpl in Hfuel. lia.
Qed.

(** The abstract relocation keeps every scope's base and size. *)
Lemma a_visit_shape {A} (cb : A -> Z -> A * Z) arg c :
  Forall2 (fun s t => a_base t = a_base s /\ a_count t = a_count s) c (a_visit cb arg c).2.
Proof.
  revert arg. induction c as [|s c IH]; intros arg; [constructor|]. cbn [a_visit].
  pose proof (a_visit_refs_length cb arg (a_refs s)) as Hlen.
  destruct (a_visit_refs cb arg (a_refs s)) as [arg1 vs]. specialize (IH arg1).
  destruct (a_visit cb arg1 c) as [arg' c'']. constructor; [|done].
  split; [done|]. unfold a_count. simpl in *. by rewrite Hlen.
Qed.

(** A walk that returns is the abstract relocation. *)
Lemma HandleScopeVisitRoots_inr {A} (cb : A -> Z -> A * Z) w self c fuel arg arg' w' :
  world_rep p w self c -> HandleScopeVisitRoots p cb fuel self arg w = inr (arg', w') ->
  arg' = (a_visit cb arg c).1 /\ world_rep p w' self (a_visit cb arg c).2 /\
  (forall a, Forall (fun s => ~ in_scope p s a) c -> mem w' !! a = mem w !! a) /\
  tls_top w' = tls_top w.
Proof.
  intros Hw Hrun. destruct (VisitChain_moving cb self c [] fuel arg w Hw) as [H1 H2].
  rewrite (HandleScopeVisitRoots_top p cb fuel self arg w _ (proj1 Hw)) in Hrun.
  destruct (decide (length c <= fuel)%nat) as [Hf|Hf].
  - destruct (H1 Hf) as (w'' & Hrun' & Hw'' & Hfr & Htls). rewrite Hrun' in Hrun.
    by injection Hrun as <- <-.
  - rewrite H2 in Hrun by lia. discriminate.
Qed.

(** C11 (refinement): the collector's [HandleScopeVisitRoots] with any
    root callback, moving ones included, implements the abstract
    relocation [a_visit]: with one unit of fuel per live scope it returns
    the callback's final state, every slot whose object the callback moved
    now holds the new object (compressed), the chain is still well formed,
    no memory outside the scopes is written and no thread's chain head
    changes; with less fuel it stops
    with [OutOfFuel]. *)
Theorem HandleScopeVisitRoots_relocates {A} (cb : A -> Z -> A * Z) w self c fuel arg :
  world_rep p w self c ->
  ((length c <= fuel)%nat ->
   exists w', HandleScopeVisitRoots p cb fuel self arg w = inr ((a_visit cb arg c).1, w') /\
     world_rep p w' self (a_visit cb arg c).2 /\
     (forall a, Forall (fun s => ~ in_scope p s a) c -> mem w' !! a = mem w !! a) /\
     tls_top w' = tls_top w) /\
  ((fuel < length c)%nat -> HandleScopeVisitRoots p cb fuel self arg w = inl OutOfFuel).
Proof.
  intros Hw. destruct (VisitChain_moving cb self c [] fuel arg w Hw) as [H1 H2].
  rewrite (HandleScopeVisitRoots_top p cb fuel self arg w _ (proj1 Hw)). auto.
Qed.

(** The recording walk over a represented chain, with enough fuel. *)
Lemma HandleScopeVisitRoots_record w self c fuel acc :
  world_rep p w self c -> (length c <= fuel)%nat ->
  HandleScopeVisitRoots p record_root fuel self acc w = inr (acc ++ a_roots c, w).
Proof.
  intros (Ht & Hc & Hok) Hf. rewrite (HandleScopeVisitRoots_top p record_root fuel self acc w _ Ht).
  rewrite VisitChain_non_moving by (done || apply record_root_non_moving).
  rewrite decide_True by done. by rewrite visit_fold_record_root.
Qed.

End Walk.


Section Contains.
Context `{PointerSize p} {bc : BuildConfig}.

(** C12 (refinement): when every live scope has at least one slot and the
    walk has one unit of fuel per scope, [HandleScopeContains(entry)]
    answers whether [entry] lies in the slot range of some live scope. *)
Theorem HandleScopeContains_refines w self c fuel entry :
  world_rep p w self c -> Forall (fun s => 0 < a_count s) c -> (length c <= fuel)%nat ->
  HandleScopeContains p fuel self entry w =
  inr (existsb (fun s => slots_contain p s entry) c, w).
Proof.
  intros (Ht & Hc & Hok) Hne Hfuel. rewrite (HandleScopeContains_top p fuel self entry w _ Ht).
  by apply ContainsChain_spec.
Qed.

(** C26 (error): in a debug build, [HandleScopeContains] walks the chain
    calling [Contains] on every scope until one answers, and [Contains]
    begins with [DCHECK_GT(number_of_references_, 0U)]: whenever an empty
    scope is live and no newer scope holds the entry, the walk aborts at
    it, whatever the entry (one in an older scope included) and however
    much fuel it is given. *)
Theorem HandleScopeContains_empty_scope w self c1 s0 c2 fuel entry :
  kIsDebugBuild = true -> world_rep p w self (c1 ++ s0 :: c2) ->
  Forall (fun s => 0 < a_count s /\ slots_contain p s entry = false) c1 -> a_count s0 = 0 ->
  (length c1 < fuel)%nat ->
  HandleScopeContains p fuel self entry w = inl (DCheckGt 0 0).
Proof.
  intros Hd (Ht & Hc & Hok) Hne H0 Hfuel. rewrite (HandleScopeContains_top p fuel self entry w _ Ht).
  by apply ContainsChain_empty.
Qed.

End Contains.

(** ** Witnesses: thread 100 with one scope at address 1000 (64-bit debug
    build) whose single slot holds object 41. *)

#[local] Existing Instance debug_build.

Lemma HandleScopeVisitRoots_refines_witness :
  HandleScopeVisitRoots 8 record_root 1 100 []
    (mkWorld {[1000 := 0; 1008 := 1; 1012 := 41]} {[100 := 1000]}) =
  if decide (length [mkAScope 1000 [41%Z]] <= 1)%nat
  then inr (visit_fold record_root [] (a_roots [mkAScope 1000 [41%Z]]),
            mkWorld {[1000 := 0; 1008 := 1; 1012 := 41]} {[100 := 1000]})
  else inl OutOfFuel.
Proof.
  apply (@HandleScopeVisitRoots_refines 8 ltac:(right; reflexivity) debug_build);
    [apply world_repb_sound; vm_compute; reflexivity|intros ? ?; reflexivity].
Defined.

Lemma HandleScopeContains_refines_witness :
  HandleScopeContains 8 1 100 1012
    (mkWorld {[1000 := 0; 1008 := 1; 1012 := 41]} {[100 := 1000]}) =
  inr (existsb (fun s => slots_contain 8 s 1012) [mkAScope 1000 [41%Z]],
       mkWorld {[1000 := 0; 1008 := 1; 1012 := 41]} {[100 := 1000]}).
Proof.
  apply (@HandleScopeContains_refines 8 ltac:(right; reflexivity) debug_build);
    [apply world_repb_sound; vm_compute; reflexivity
    |repeat constructor|simpl; lia].
Defined.

Lemma HandleScopeContains_empty_scope_witness :
  HandleScopeContains 8 2 100 1012
    (mkWorld {[2000 := 3000; 2008 := 1; 2012 := 7; 3000 := 1000; 3008 := 0;
               1000 := 0; 1008 := 1; 1012 := 41]} {[100 := 2000]}) = inl (DCheckGt 0 0).
Proof.
  apply (@HandleScopeContains_empty_scope 8 ltac:(right; reflexivity) debug_build _ 100
           [mkAScope 2000 [7%Z]] (mkAScope 3000 []) [mkAScope 1000 [41%Z]]);
    [reflexivity|apply world_repb_sound; vm_compute; reflexivity
    |repeat constructor; vm_compute; reflexivity|reflexivity|simpl; lia].
Defined.

Lemma NewHandle_capacity_witness :
  NewHandle 8 (mkStackHandleScope 1000 1 100 1) 7
    (mkWorld {[1000 := 0; 1008 := 1; 1012 := 41]} {[100 := 1000]}) =
  inl (DCheckLt 1 (a_count (mkAScope 1000 [41%Z]))).
Proof.
  apply (@NewHandle_capacity 8 debug_build _ 100 [mkAScope 1000 [41%Z]] 0);
    [reflexivity|apply world_repb_sound; vm_compute; reflexivity|reflexivity|reflexivity|vm_compute; discriminate].
Defined.

Lemma HandleWrapper_writes_back_witness :
  exists hw s' w1 w2 w3,
    NewHandleWrapper 8 (mkStackHandleScope 1000 1 100 0) 5000
      (mkWorld {[1000 := 0; 1008 := 1; 1012 := 0; 5000 := 77]} {[100 := 1000]}) =
      inr ((hw, s'), w1) /\ mem w1 !! 5000 = Some 77 /\
    SetReference 8 1000 0 99 w1 = inr (tt, w2) /\ mem w2 !! 5000 = Some 77 /\
    HandleWrapper_dtor hw w2 = inr (tt, w3) /\ mem w3 !! 5000 = Some (u32 99).
Proof.
  apply (@HandleWrapper_writes_back 8 ltac:(right; reflexivity) debug_build 100 _ (mkAScope 1000 [0%Z]) []).
  - apply world_repb_sound. vm_compute. reflexivity.
  - reflexivity.
  - split; vm_compute; [discriminate|reflexivity].
  - constructor; [|constructor]. apply (proj1 (bool_decide_eq_false _)). vm_compute. reflexivity.
  - reflexivity.
Defined.

Lemma HandleScopeVisitRoots_relocates_witness :
  exists w', HandleScopeVisitRoots 8 (move_by 16) 1 100 0%nat
      (mkWorld {[1000 := 0; 1008 := 1; 1012 := 41]} {[100 := 1000]}) = inr (1%nat, w') /\
    world_rep 8 w' 100 [mkAScope 1000 [57%Z]].
Proof.
  destruct (proj1 (@HandleScopeVisitRoots_relocates 8 ltac:(right; reflexivity) debug_build nat (move_by 16)
      (mkWorld {[1000 := 0; 1008 := 1; 1012 := 41]} {[100 := 1000]}) 100
      [mkAScope 1000 [41%Z]] 1 0%nat ltac:(apply world_repb_sound; vm_compute; reflexivity))
      ltac:(simpl; lia)) as (w' & Hrun & Hw' & _ & _).
  exists w'. split; [exact Hrun|exact Hw'].
Defined.

End Refinement.
