(* ===== verification/Execution.v ===== *)
(** One thread's native code as a state machine over handle scopes.  A
    configuration is the [World] and the [StackHandleScope] objects alive
    on the native stack, innermost first.  A [code_step] is one
    successful call of the code: constructing a scope in fresh stack
    memory, [NewHandle] or [SetReference] on a live scope, destroying the
    innermost object (the C++ scoping rule), or a garbage collection
    walking the chain with any root callback (moving collectors
    included); a [step] is a [code_step] or any other native code writing
    memory of its own.  Calls that fault are not steps: they abort.  The
    relations take the build as a [BuildConfig].  In a debug build the
    invariant [inv] (the configuration represents an abstract stack of
    scopes in the order of the live objects) holds in every reachable
    configuration, every [code_step] is [confined] to the live scopes and
    the thread can always unwind; every debug run is a release run. *)

From S2P Require Import Prelude Layout Memory Handle HandleScope Thread StackHandleScope Refinement.
Import Layout Memory Handle HandleScope Thread StackHandleScope Refinement.
From stdpp Require Import relations.

Local Open Scope Z_scope.
Local Open Scope hs_scope.

Module Execution.

Definition Config : Type := World * list StackHandleScope.

(** The bytes a live object occupies, as an abstract scope. *)
Definition extent (s : StackHandleScope) : AScope :=
  mkAScope (this_ s) (replicate (Z.to_nat (kNumReferences s)) nullptr).

Section Steps.
Context (p self : Z) {bc : BuildConfig}.

(** The calls of the code under study. *)
Inductive code_step : Config -> Config -> Prop :=
| step_open w ss k this s w' :
    0 <= k -> scope_ok p (mkAScope this (replicate (Z.to_nat k) nullptr)) ->
    Forall (fun t => apart p (mkAScope this (replicate (Z.to_nat k) nullptr)) (extent t)) ss ->
    StackHandleScope_ctor p k this self w = inr (s, w') ->
    code_step (w, ss) (w', s :: ss)
| step_new_handle w ss d s obj h s' w' :
    ss !! d = Some s -> NewHandle p s obj w = inr ((h, s'), w') ->
    code_step (w, ss) (w', <[d := s']> ss)
| step_set_reference w ss d s i obj w' :
    ss !! d = Some s -> 0 <= i -> SetReference p (this_ s) i obj w = inr (tt, w') ->
    code_step (w, ss) (w', ss)
| step_close w s ss w' :
    StackHandleScope_dtor p s w = inr (tt, w') ->
    code_step (w, s :: ss) (w', ss)
| step_collect {A} (callback : A -> Z -> A * Z) fuel arg arg' w ss w' :
    HandleScopeVisitRoots p callback fuel self arg w = inr (arg', w') ->
    code_step (w, ss) (w', ss).

(** One step of the thread: a call of the code, or any other native code
    writing memory of its own. *)
Inductive step : Config -> Config -> Prop :=
| step_code cfg cfg' : code_step cfg cfg' -> step cfg cfg'
| step_native_store w ss a v :
    Forall (fun t => ~ in_scope p (extent t) a) ss ->
    step (w, ss) (world_store w a v, ss).

(** A live object and the abstract scope it owns. *)
Definition owns (s : StackHandleScope) (a : AScope) : Prop :=
  this_ s = a_base a /\ self_ s = self /\ kNumReferences s = a_count a /\
  0 <= pos_ s <= a_count a.

Definition inv (cfg : Config) : Prop :=
  exists c, world_rep p cfg.1 self c /\ Forall2 owns cfg.2 c.

(** A step from [w] to [w'] writes only inside the objects [ss] and
    changes no other thread's chain head. *)
Definition confined (ss : list StackHandleScope) (w w' : World) : Prop :=
  (forall a, Forall (fun t => ~ in_scope p (extent t) a) ss -> mem w' !! a = mem w !! a) /\
  (forall t, t <> self -> tls_top w' !! t = tls_top w !! t).

End Steps.

(** Client code: [h_i = hs.NewHandle(o_i)] for each object in turn. *)
Fixpoint NewHandles (p : Z) {bc : BuildConfig} (s : StackHandleScope) (objects : list Z)
    : SE World (list Handle * StackHandleScope) :=
  match objects with
  | [] => se_ret ([], s)
  | o :: os =>
      r <- NewHandle p s o ;;
      r' <- NewHandles p (snd r) os ;;
      se_ret (fst r :: fst r', snd r')
  end.

(** The abstract effect of [NewHandles]: slots [pos, pos + 1, ...] receive
    the compressed objects. *)
Fixpoint fill_scope (a : AScope) (pos : Z) (objects : list Z) : AScope :=
  match objects with
  | [] => a
  | o :: os => fill_scope (a_set_slot a pos (u32 o)) (pos + 1) os
  end.

(** ** Helper lemmas *)

(** Ownership depends only on a scope's base and size. *)
Lemma Forall2_owns_shape self ss c c' :
  Forall2 (owns self) ss c ->
  Forall2 (fun s t => a_base t = a_base s /\ a_count t = a_count s) c c' ->
  Forall2 (owns self) ss c'.
Proof.
  intros Hown. revert c'. induction Hown as [|s a ss c Hsa Hown IH]; intros c' Hsh;
    inversion Hsh as [|? b ? c'' [Hb Hn] Hsh']; subst; constructor; [|by apply IH].
  destruct Hsa as (? & ? & ? & ?). unfold owns. rewrite Hb, Hn. done.
Qed.

(** Thread 100 with an empty chain on a 64-bit build, the start of the
    concrete runs of the witnesses. *)
Definition demo_world : World := mkWorld ∅ {[100 := nullptr]}.

Lemma extent_owned self s a :
  owns self s a -> a_base (extent s) = a_base a /\ a_count (extent s) = a_count a.
Proof.
  intros (Hb & _ & Hk & Hpos). split; [done|]. unfold a_count, extent. simpl.
  rewrite length_replicate, Hk. unfold a_count. lia.
Qed.

Lemma apart_owned p self x s a : owns self s a -> apart p x (extent s) -> apart p x a.
Proof.
  intros Ho. destruct (extent_owned self s a Ho) as [Hb Hk].
  unfold apart, scope_end. by rewrite Hb, Hk.
Qed.

Lemma in_scope_owned p self s a v : owns self s a -> ~ in_scope p (extent s) v -> ~ in_scope p a v.
Proof.
  intros Ho. destruct (extent_owned self s a Ho) as [Hb Hk].
  unfold in_scope, scope_end. by rewrite Hb, Hk.
Qed.

Lemma Forall2_Forall_transport {A B} (R : A -> B -> Prop) (P : A -> Prop) (Q : B -> Prop) l k :
  Forall2 R l k -> Forall P l -> (forall x y, R x y -> P x -> Q y) -> Forall Q k.
Proof. induction 1; inversion 1; constructor; eauto. Qed.

Lemma SetReference_inr_idx p {bc : BuildConfig} w self c d a i obj r :
  kIsDebugBuild = true -> world_rep p w self c -> c !! d = Some a ->
  SetReference p (a_base a) i obj w = inr r -> i < a_count a.
Proof.
  intros Hdbg Hw Hd Hrun. destruct r as [[] w'].
  destruct (proj2 (SetReference_inr_inv p w _ _ _ _ Hrun) Hdbg) as (n & Hn & Hlt).
  rewrite (world_rep_count w self c d a Hw Hd) in Hn. by injection Hn as <-.
Qed.

Lemma owns_set_slot self s a i v : owns self s a -> owns self s (a_set_slot a i v).
Proof. unfold owns. by rewrite a_count_set_slot. Qed.

Lemma fill_scope_base a pos objs : a_base (fill_scope a pos objs) = a_base a.
Proof. revert a pos. induction objs as [|o os IH]; intros a pos; [done|]. simpl. by rewrite IH. Qed.

Lemma fill_scope_count a pos objs : a_count (fill_scope a pos objs) = a_count a.
Proof.
  revert a pos. induction objs as [|o os IH]; intros a pos; [done|].
  simpl. by rewrite IH, a_count_set_slot.
Qed.

(** The fill leaves the slots below [pos] alone. *)
Lemma fill_scope_frame a pos objs i :
  0 <= pos -> (i < Z.to_nat pos)%nat -> a_refs (fill_scope a pos objs) !! i = a_refs a !! i.
Proof.
  revert a pos. induction objs as [|o os IH]; intros a pos Hpos Hi; [done|]. simpl.
  rewrite IH by lia. simpl. apply list_lookup_insert_ne. lia.
Qed.

(** After the fill, slot [pos + j] holds the [j]-th object. *)
Lemma fill_scope_refs a pos objs j o :
  0 <= pos -> pos + Z.of_nat (length objs) <= a_count a -> objs !! j = Some o ->
  a_refs (fill_scope a pos objs) !! (Z.to_nat pos + j)%nat = Some (u32 o).
Proof.
  revert a pos j. induction objs as [|o' os IH]; intros a pos j Hpos Hlen Hj; [done|].
  simpl in Hlen. destruct j as [|j]; simpl in Hj |- *.
  - injection Hj as <-. rewrite Nat.add_0_r, fill_scope_frame by lia.
    apply list_lookup_insert_eq. unfold a_count in Hlen. lia.
  - replace (Z.to_nat pos + S j)%nat with (Z.to_nat (pos + 1) + j)%nat by lia.
    apply IH; [lia| |done]. rewrite a_count_set_slot. lia.
Qed.

(** Each call of the code that returns in a debug build returns the same
    way in a release build. *)
Lemma code_step_le p self cfg cfg' :
  code_step (bc := debug_build) p self cfg cfg' -> code_step (bc := release_build) p self cfg cfg'.
Proof.
  destruct 1 as [w ss k this s w' Hk Hok Hap Hrun|w ss d s obj h s' w' Hd Hrun
                |w ss d s i obj w' Hd Hi Hrun|w s ss w' Hrun|A cb fuel arg arg' w ss w' Hrun].
  - apply (step_open _ _ w ss k this); [done..|by apply StackHandleScope_ctor_le].
  - eapply step_new_handle; [done|by apply NewHandle_le].
  - eapply step_set_reference; [done..|by apply SetReference_le].
  - apply step_close. by apply StackHandleScope_dtor_le.
  - eapply step_collect. by apply HandleScopeVisitRoots_le.
Qed.

Section Invariant.
Context `{PointerSize p} {bc : BuildConfig} (Hdbg : kIsDebugBuild = true) (self : Z).

(** From a configuration that satisfies the invariant, destroying the
    live objects innermost first succeeds, in either build, and empties
    the thread's chain. *)
Lemma unwind_sim w ss c :
  world_rep p w self c -> Forall2 (owns self) ss c ->
  exists w', rtc (step p self) (w, ss) (w', []) /\ tls_top w' !! self = Some nullptr.
Proof.
  revert w c. induction ss as [|s ss IH]; intros w c Hw Hown.
  { destruct c; [|by apply Forall2_nil_cons_inv in Hown]. exists w. split; [done|]. apply Hw. }
  destruct c as [|a c']; [by apply Forall2_cons_nil_inv in Hown|].
  apply Forall2_cons in Hown as [(Hb & Hself & _) Hown'].
  destruct (dtor_sim p w self a c' s Hw Hb Hself) as (Hrun & Hw').
  destruct (IH _ c' Hw' Hown') as (w' & Hrtc & Ht). exists w'. split; [|done].
  eapply rtc_l; [|exact Hrtc]. apply step_code. by apply step_close.
Qed.

(** A store into a slot of a live object's scope is confined to the
    live objects. *)
Lemma store_confined L s a i v w :
  s ∈ L -> owns self s a -> scope_ok p a -> 0 <= i < a_count a ->
  confined p self L w (world_store w (ref_addr p (a_base a) i) v).
Proof.
  intros Hs Ho Hok Hi. split; [|done].
  intros b Hb. apply world_store_mem_ne. intros <-.
  apply (in_scope_owned p self s a _ Ho (proj1 (Forall_forall _ _) Hb s Hs)).
  by apply (scope_fields_in a Hok).
Qed.

(** A call of the code from a configuration that satisfies the invariant
    reaches one that does, and writes only inside the objects live before
    or after it. *)
Lemma code_step_sim w ss w' ss' c :
  world_rep p w self c -> Forall2 (owns self) ss c -> code_step p self (w, ss) (w', ss') ->
  inv p self (w', ss') /\ confined p self (ss' ++ ss) w w'.
Proof.
  intros Hw Hown Hstep.
  inversion Hstep as [w0 ss0 k this s w1 Hk Hok Hap Hrun
                     |w0 ss0 d s obj h s' w1 Hd Hrun
                     |w0 ss0 d s i obj w1 Hd Hi Hrun
                     |w0 s ss0 w1 Hrun
                     |A cb fuel arg arg' w0 ss0 w1 Hrun]; subst.
  - destruct (ctor_sim p w self c k this Hw Hk Hok) as (w'' & Hrun' & Hw'' & Hfr & Htls).
    { eapply Forall2_Forall_transport; [exact Hown|exact Hap|].
      intros t a Ht Hta. by eapply apart_owned. }
    rewrite Hrun' in Hrun. injection Hrun as <- <-. split.
    + exists (a_push c this k). split; [done|]. constructor; [|done].
      unfold owns; simpl. rewrite a_count_new by done. lia.
    + split; [|intros t Ht; rewrite Htls; by apply lookup_insert_ne].
      intros a Ha. apply Forall_cons in Ha as [Ha _]. by apply Hfr.
  - destruct (Forall2_lookup_l _ _ _ _ _ Hown Hd) as (a & Hca & Hsa).
    pose proof Hsa as (Hb & Hself & Hkn & Hpos).
    pose proof (NewHandle_inr_pos p w self c d a s obj _ Hdbg Hw Hca Hb Hrun) as Hlt.
    destruct (NewHandle_sim p w self c d a s obj Hw Hca Hb ltac:(lia)) as (Hrun' & _ & Hadv & Hw').
    rewrite Hrun' in Hrun. injection Hrun as <- <- <-. split.
    + exists (a_set c d (pos_ s) (u32 obj)). split; [done|].
      rewrite (a_set_insert _ _ a) by done. apply Forall2_insert; [done|].
      unfold owns. rewrite a_count_set_slot, Hadv. cbn [this_ self_ kNumReferences advance a_base a_set_slot]. lia.
    + apply (store_confined _ s a); [|done|eapply chain_ok_lookup; [apply Hw|exact Hca]|lia].
      apply elem_of_app. right. by eapply list_elem_of_lookup_2.
  - destruct (Forall2_lookup_l _ _ _ _ _ Hown Hd) as (a & Hca & Hsa).
    pose proof Hsa as (Hb & _). rewrite Hb in Hrun.
    pose proof (SetReference_inr_idx p w self c d a i obj _ Hdbg Hw Hca Hrun) as Hlt.
    destruct (SetReference_refines w self c d a i obj Hw Hca ltac:(lia)) as (Hrun' & Hw').
    rewrite Hrun' in Hrun. injection Hrun as <-. split.
    + exists (a_set c d i (u32 obj)). split; [done|].
      apply Forall2_alter_r; [done|]. intros x y _ _. apply owns_set_slot.
    + apply (store_confined _ s a); [|done|eapply chain_ok_lookup; [apply Hw|exact Hca]|lia].
      apply elem_of_app. right. by eapply list_elem_of_lookup_2.
  - inversion Hown as [|s0 a ss0 c' Hsa Hown' Heq1 Heq2]; subst.
    destruct Hsa as (Hb & Hself & _).
    destruct (dtor_sim p w self a c' s Hw Hb Hself) as (Hrun' & Hw').
    rewrite Hrun' in Hrun. injection Hrun as <-. split; [by exists c'|].
    split; [done|]. intros t Ht. by apply lookup_insert_ne.
  - destruct (HandleScopeVisitRoots_inr cb w self c fuel arg arg' w' Hw Hrun)
      as (_ & Hw' & Hfr & Htls). split.
    + exists (a_visit cb arg c).2. split; [done|].
      eapply Forall2_owns_shape; [exact Hown|apply a_visit_shape].
    + split; [|by rewrite Htls]. intros a Ha. apply Hfr.
      eapply Forall2_Forall_transport; [exact Hown|apply Forall_app in Ha as [_ Ha]; exact Ha|].
      intros t b Ht' Hn. by eapply in_scope_owned.
Qed.

Lemma step_inv cfg cfg' : inv p self cfg -> step p self cfg cfg' -> inv p self cfg'.
Proof.
  intros (c & Hw & Hown) Hstep. destruct Hstep as [[w ss] [w' ss'] Hc|w ss a v Hout].
  - exact (proj1 (code_step_sim w ss w' ss' c Hw Hown Hc)).
  - simpl in *. exists c. destruct Hw as (Ht & Hc & Hok). split; [|done].
    split; [done|]. split; [|done].
    apply chain_rep_insert_outside; [done| |done].
    eapply Forall2_Forall_transport; [exact Hown|exact Hout|].
    intros t b Ht' Hn. by eapply in_scope_owned.
Qed.

(** A run of [NewHandles] on the newest scope, within its capacity. *)
Lemma NewHandles_sim w a c0 s objs :
  world_rep p w self (a :: c0) -> this_ s = a_base a -> 0 <= pos_ s ->
  pos_ s + Z.of_nat (length objs) <= a_count a ->
  exists hs s' w', NewHandles p s objs w = inr ((hs, s'), w') /\
    world_rep p w' self (fill_scope a (pos_ s) objs :: c0) /\
    this_ s' = this_ s /\ self_ s' = self_ s /\ kNumReferences s' = kNumReferences s /\
    pos_ s' = pos_ s + Z.of_nat (length objs) /\
    length hs = length objs /\
    (forall j h, hs !! j = Some h -> h = mkHandle (ref_addr p (a_base a) (pos_ s + Z.of_nat j))).
Proof.
  revert w a s. induction objs as [|o os IH]; intros w a s Hw Hb Hpos Hlen.
  { exists [], s, w. split; [done|]. split; [done|]. split; [done|]. split; [done|].
    split; [done|]. split; [simpl; lia|]. split; [done|]. by intros j h Hj. }
  simpl in Hlen.
  destruct (NewHandle_sim p w self (a :: c0) 0 a s o Hw eq_refl Hb ltac:(lia))
    as (Hrun & _ & Hadv & Hw1).
  simpl in Hw1.
  destruct (IH _ (a_set_slot a (pos_ s) (u32 o)) (advance p s) Hw1)
    as (hs & s' & w' & Hrun' & Hw' & Hthis & Hself & Hk & Hpos' & Hlenhs & Hhs);
    [done|rewrite Hadv; lia|rewrite Hadv, a_count_set_slot; lia|].
  exists (mkHandle (ref_addr p (a_base a) (pos_ s)) :: hs), s', w'.
  rewrite Hadv in Hw', Hpos', Hhs. split; [|split; [done|]].
  { cbn [NewHandles]. rewrite (se_bind_inr _ _ _ _ _ Hrun). simpl.
    by rewrite (se_bind_inr _ _ _ _ _ Hrun'). }
  rewrite Hthis, Hself, Hk, Hpos'. simpl. split; [done|]. split; [done|]. split; [done|].
  split; [lia|]. split; [by rewrite Hlenhs|].
  intros [|j] h Hj; simpl in Hj.
  - injection Hj as <-. by rewrite Z.add_0_r.
  - rewrite (Hhs j h Hj). simpl. do 2 f_equal. lia.
Qed.

Lemma rtc_inv cfg cfg' : inv p self cfg -> rtc (step p self) cfg cfg' -> inv p self cfg'.
Proof. intros Hinv Hrtc. induction Hrtc; eauto using step_inv. Qed.

Lemma init_inv w0 : tls_top w0 !! self = Some nullptr -> inv p self (w0, []).
Proof. intros Ht. exists []. by repeat split. Qed.

(** Two live objects of a reachable configuration sit at different
    addresses: the innermost one is not any of the outer ones. *)
Lemma owns_interior_ne w s0 ss' c t :
  world_rep p w self c -> Forall2 (owns self) (s0 :: ss') c -> t ∈ ss' ->
  this_ t <> chain_head c.
Proof.
  intros (_ & _ & Hok) Hown Ht. inversion Hown as [|? a0 ? c' Ho0 Hown' E1 E2]; subst.
  destruct Hok as (Hok0 & Hap & _). simpl.
  apply list_elem_of_lookup in Ht as [d Hd].
  destruct (Forall2_lookup_l _ _ _ _ _ Hown' Hd) as (a & Hca & (Hb & _)).
  pose proof (Forall_lookup_1 _ _ _ _ Hap Hca) as Hsep. rewrite Hb.
  intros Heq. unfold apart, scope_end, a_count in Hsep.
  unfold ReferencesOffset, sizeof_uint32, sizeof_StackReference in Hsep.
  pose proof pointer_size_pos. lia.
Qed.

(** C1 (invariant): in a debug build, in every configuration reachable
    from a thread with an empty chain (collections that move objects
    included), the chain in memory represents an abstract stack of
    scopes that lists exactly the live [StackHandleScope] objects,
    innermost first: the thread's head is the innermost object, each
    scope links to the next outer one, counts and slots are in memory,
    scopes are disjoint, and every cursor is within its capacity. *)
Theorem reachable_inv w0 cfg :
  tls_top w0 !! self = Some nullptr -> rtc (step p self) (w0, []) cfg -> inv p self cfg.
Proof. intros Ht Hrtc. eapply rtc_inv; [by apply init_inv|done]. Qed.

(** C2 (refinement): in every configuration a debug build reaches, the
    live objects' scopes, as they stand in memory ([world_rep]: each
    object's base, count and slot values), are such that the collector's
    walk, given one unit of fuel per live object, terminates and visits
    exactly their non-null slots, innermost scope first, without changing
    the world. *)
Theorem reachable_visit_roots w0 w ss :
  tls_top w0 !! self = Some nullptr -> rtc (step p self) (w0, []) (w, ss) ->
  exists c, world_rep p w self c /\ Forall2 (owns self) ss c /\
    HandleScopeVisitRoots p record_root (length ss) self [] w = inr (a_roots c, w).
Proof.
  intros Ht Hrtc. destruct (rtc_inv _ _ (init_inv w0 Ht) Hrtc) as (c & Hw & Hown). simpl in Hw, Hown.
  exists c. split; [done|]. split; [done|].
  apply (HandleScopeVisitRoots_record w self c _ [] Hw). rewrite (Forall2_length _ _ _ Hown). lia.
Qed.

(** C6 (error): in every configuration a debug build reaches, destroying a live
    object other than the innermost one is a [DCHECK_EQ] failure: scopes
    are released strictly in reverse order of construction. *)
Theorem reachable_dtor_interior w0 w s0 ss' t :
  tls_top w0 !! self = Some nullptr -> rtc (step p self) (w0, []) (w, s0 :: ss') ->
  t ∈ ss' -> StackHandleScope_dtor p t w = inl (DCheckEq (this_ s0) (this_ t)).
Proof.
  intros Ht Hrtc Hin. destruct (rtc_inv _ _ (init_inv w0 Ht) Hrtc) as (c & Hw & Hown).
  simpl in Hw, Hown.
  pose proof (owns_interior_ne w s0 ss' c t Hw Hown Hin) as Hne.
  apply list_elem_of_lookup in Hin as [d Hd].
  inversion Hown as [|? a0 ? c' (Hb0 & _) Hown' E1 E2]; subst.
  destruct (Forall2_lookup_l _ _ _ _ _ Hown' Hd) as (a & _ & (_ & Hself & _)).
  rewrite (dtor_fault p w self (a0 :: c') t Hdbg Hw Hself Hne). by rewrite Hb0.
Qed.

(** C9 (error): in a release build the [DCHECK_EQ] of [~StackHandleScope]
    is compiled out.  Destroying a live object other than the innermost
    one, in a configuration a debug build reaches, then succeeds silently:
    [PopHandleScope] unlinks the innermost scope, whose object is still
    live, and the destroyed object's scope stays on the chain; the
    collector's walk afterwards visits exactly the roots of the remaining
    chain, the destroyed scope's included and the innermost one's not. *)
Theorem release_dtor_interior w0 w s0 ss' t :
  tls_top w0 !! self = Some nullptr -> rtc (step p self) (w0, []) (w, s0 :: ss') -> t ∈ ss' ->
  exists a0 c w', owns self s0 a0 /\ Forall2 (owns self) ss' c /\ world_rep p w self (a0 :: c) /\
    StackHandleScope_dtor (bc := release_build) p t w = inr (tt, w') /\ world_rep p w' self c /\
    HandleScopeVisitRoots p record_root (length c) self [] w' = inr (a_roots c, w').
Proof.
  intros Ht Hrtc Hin. destruct (rtc_inv _ _ (init_inv w0 Ht) Hrtc) as (c & Hw & Hown).
  simpl in Hw, Hown. inversion Hown as [|? a0 ? c' Ho0 Hown' E1 E2]; subst.
  apply list_elem_of_lookup in Hin as [d Hd].
  destruct (Forall2_lookup_l _ _ _ _ _ Hown' Hd) as (a & _ & (_ & Hself & _)).
  destruct (dtor_release_pops p w self a0 c' t Hw Hself) as [Hrun Hw'].
  eexists a0, c', _. do 5 (split; [done|]).
  by apply (HandleScopeVisitRoots_record _ self c' _ [] Hw').
Qed.

(** C3 (refinement): in either build, a [StackHandleScope<k>] constructed in fresh memory,
    used for up to [k] allocations and destroyed, leaves the thread exactly
    as it found it: the chain head is the previous head again and every
    outer scope is represented with the same slots. *)
Theorem StackHandleScope_lifecycle w c k this objs :
  world_rep p w self c -> 0 <= k ->
  scope_ok p (mkAScope this (replicate (Z.to_nat k) nullptr)) ->
  Forall (apart p (mkAScope this (replicate (Z.to_nat k) nullptr))) c ->
  Z.of_nat (length objs) <= k ->
  exists w', (s <- StackHandleScope_ctor p k this self ;;
              r <- NewHandles p s objs ;;
              StackHandleScope_dtor p (snd r)) w = inr (tt, w') /\
             world_rep p w' self c.
Proof.
  intros Hw Hk Hok Hap Hlen.
  destruct (ctor_sim p w self c k this Hw Hk Hok Hap) as (w1 & Hrun1 & Hw1 & _).
  destruct (NewHandles_sim w1 (mkAScope this (replicate (Z.to_nat k) nullptr)) c
              (mkStackHandleScope this k self 0) objs Hw1 eq_refl)
    as (hs & s' & w2 & Hrun2 & Hw2 & Hthis & Hself & _);
    [simpl; lia|rewrite a_count_new; simpl; lia|].
  destruct (dtor_sim p w2 self _ c s' Hw2) as (Hrun3 & Hw3);
    [by rewrite Hthis, fill_scope_base|done|].
  eexists. split; [|exact Hw3].
  rewrite (se_bind_inr _ _ _ _ _ Hrun1), (se_bind_inr _ _ _ _ _ Hrun2). exact Hrun3.
Qed.

(** C7 (functional): in either build, in a fresh [StackHandleScope<k>], [m <= k]
    successive [NewHandle(o_i)] return handles [h_i] with
    [h_i.Get() == o_i] (compressed) for every [i], all still true after
    the last allocation, and the cursor ends at [m]. *)
Theorem NewHandles_get w c k this objs :
  world_rep p w self c -> 0 <= k ->
  scope_ok p (mkAScope this (replicate (Z.to_nat k) nullptr)) ->
  Forall (apart p (mkAScope this (replicate (Z.to_nat k) nullptr))) c ->
  Z.of_nat (length objs) <= k ->
  exists hs s' w', (s <- StackHandleScope_ctor p k this self ;; NewHandles p s objs) w =
                     inr ((hs, s'), w') /\
    pos_ s' = Z.of_nat (length objs) /\
    Forall2 (fun h o => Get h w' = inr (u32 o, w')) hs objs.
Proof.
  intros Hw Hk Hok Hap Hlen.
  destruct (ctor_sim p w self c k this Hw Hk Hok Hap) as (w1 & Hrun1 & Hw1 & _).
  destruct (NewHandles_sim w1 (mkAScope this (replicate (Z.to_nat k) nullptr)) c
              (mkStackHandleScope this k self 0) objs Hw1 eq_refl)
    as (hs & s' & w2 & Hrun2 & Hw2 & _ & _ & _ & Hpos & Hlenhs & Hhs);
    [simpl; lia|rewrite a_count_new; simpl; lia|].
  exists hs, s', w2. split; [by rewrite (se_bind_inr _ _ _ _ _ Hrun1)|].
  split; [done|]. apply Forall2_same_length_lookup_2; [done|].
  intros j h o Hj Ho. rewrite (Hhs j h Hj). simpl.
  destruct Hw2 as (_ & [(_ & _ & Hr) _] & _).
  assert (Hv := fill_scope_refs (mkAScope this (replicate (Z.to_nat k) nullptr)) 0 objs j o
    ltac:(lia) ltac:(rewrite a_count_new; lia) Ho).
  specialize (Hr _ _ Hv). rewrite fill_scope_base in Hr. simpl in Hr.
  apply load_hit. rewrite ?Z.add_0_l. exact Hr.
Qed.

(** C4 (safety): in a debug build, in every reachable configuration, a
    call of the code writes memory only inside the scopes of the objects
    live before or after it, and changes no other thread's chain head:
    handle scopes never corrupt the rest of the native stack. *)
Theorem reachable_code_step_confined w0 w ss w' ss' :
  tls_top w0 !! self = Some nullptr -> rtc (step p self) (w0, []) (w, ss) ->
  code_step p self (w, ss) (w', ss') -> confined p self (ss' ++ ss) w w'.
Proof.
  intros Ht Hrtc Hc. destruct (rtc_inv _ _ (init_inv w0 Ht) Hrtc) as (c & Hw & Hown).
  exact (proj2 (code_step_sim w ss w' ss' c Hw Hown Hc)).
Qed.

(** C5 (liveness): from every configuration a debug build reaches, the
    thread can always unwind: destroying the live objects innermost
    first never fails and leads back to an empty chain. *)
Theorem reachable_unwind w0 cfg :
  tls_top w0 !! self = Some nullptr -> rtc (step p self) (w0, []) cfg ->
  exists w', rtc (step p self) cfg (w', []) /\ tls_top w' !! self = Some nullptr.
Proof.
  intros Ht Hrtc. destruct (rtc_inv _ _ (init_inv w0 Ht) Hrtc) as (c & Hw & Hown).
  destruct cfg as [w ss]. exact (unwind_sim w ss c Hw Hown).
Qed.

End Invariant.

(** A release build, whose [DCHECK]s are compiled out,
    can do everything a debug build does: every run of the thread in a
    debug build is, step for step, a run of the release build.  The
    theorems proved of debug runs therefore describe the release build's
    runs that respect the contract. *)
Theorem debug_runs_are_release_runs p self cfg cfg' :
  rtc (step (bc := debug_build) p self) cfg cfg' -> rtc (step (bc := release_build) p self) cfg cfg'.
Proof.
  induction 1 as [|x y z Hxy _ IH]; [done|]. eapply rtc_l; [|exact IH].
  destruct Hxy as [cfg1 cfg2 Hc|w ss a v Hout].
  - by apply step_code, code_step_le.
  - by apply step_native_store.
Qed.

(** ** Concrete runs of a 64-bit debug build *)

#[local] Existing Instance debug_build.

(** ** Witnesses *)

Lemma reachable_inv_witness :
  exists w s, rtc (step 8 100) (demo_world, []) (w, [s]) /\ inv 8 100 (w, [s]).
Proof.
  destruct (StackHandleScope_ctor 8 2 1000 100 demo_world) as [e|[s w]] eqn:Hrun;
    [vm_compute in Hrun; discriminate|].
  assert (Hr : rtc (step 8 100) (demo_world, []) (w, [s])).
  { apply rtc_once. apply step_code, (step_open 8 100 demo_world [] 2 1000 s w);
      [lia|apply scope_okb_sound; vm_compute; reflexivity|constructor|exact Hrun]. }
  exists w, s. split; [exact Hr|].
  exact (@reachable_inv 8 ltac:(right; reflexivity) debug_build eq_refl 100 demo_world (w, [s]) eq_refl Hr).
Defined.

Lemma reachable_visit_roots_witness :
  exists w s, rtc (step 8 100) (demo_world, []) (w, [s]) /\
    exists c, world_rep 8 w 100 c /\ Forall2 (owns 100) [s] c /\
      HandleScopeVisitRoots 8 record_root (length [s]) 100 [] w = inr (a_roots c, w).
Proof.
  destruct (StackHandleScope_ctor 8 2 1000 100 demo_world) as [e|[s w]] eqn:Hrun;
    [vm_compute in Hrun; discriminate|].
  destruct (NewHandle 8 s 41 w) as [e|[[h s'] w']] eqn:Hrun2;
    [vm_compute in Hrun; injection Hrun as <- <-; vm_compute in Hrun2; discriminate|].
  assert (Hr : rtc (step 8 100) (demo_world, []) (w', [s'])).
  { apply (rtc_l _ _ (w, [s])).
    - apply step_code, (step_open 8 100 demo_world [] 2 1000 s w);
        [lia|apply scope_okb_sound; vm_compute; reflexivity|constructor|exact Hrun].
    - apply rtc_once. change [s'] with (<[0%nat := s']> [s]).
      exact (step_code _ _ _ _ (step_new_handle 8 100 w [s] 0 s 41 h s' w' eq_refl Hrun2)). }
  exists w', s'. split; [exact Hr|].
  exact (@reachable_visit_roots 8 ltac:(right; reflexivity) debug_build eq_refl 100 demo_world w' [s'] eq_refl Hr).
Defined.

Lemma StackHandleScope_lifecycle_witness :
  exists w', (s <- StackHandleScope_ctor 8 2 1000 100 ;;
              r <- NewHandles 8 s [41; 0] ;;
              StackHandleScope_dtor 8 (snd r)) demo_world = inr (tt, w') /\
             world_rep 8 w' 100 [].
Proof.
  apply (@StackHandleScope_lifecycle 8 ltac:(right; reflexivity) debug_build 100 demo_world [] 2 1000);
    [apply world_repb_sound; vm_compute; reflexivity|lia
    |apply scope_okb_sound; vm_compute; reflexivity|constructor|simpl; lia].
Defined.

Lemma demo_two_scopes :
  exists w s0 t, rtc (step 8 100) (demo_world, []) (w, [s0; t]).
Proof.
  destruct (StackHandleScope_ctor 8 1 1000 100 demo_world) as [e|[t w]] eqn:Hrun;
    [vm_compute in Hrun; discriminate|].
  destruct (StackHandleScope_ctor 8 1 2000 100 w) as [e|[s0 w']] eqn:Hrun2;
    [vm_compute in Hrun; injection Hrun as <- <-; vm_compute in Hrun2; discriminate|].
  assert (Ht : t = mkStackHandleScope 1000 1 100 0)
    by (vm_compute in Hrun; congruence).
  assert (Hr : rtc (step 8 100) (demo_world, []) (w', [s0; t])).
  { apply (rtc_l _ _ (w, [t])).
    - apply step_code, (step_open 8 100 demo_world [] 1 1000 t w);
        [lia|apply scope_okb_sound; vm_compute; reflexivity|constructor|exact Hrun].
    - apply rtc_once. apply step_code, (step_open 8 100 w [t] 1 2000 s0 w');
        [lia|apply scope_okb_sound; vm_compute; reflexivity| |exact Hrun2].
      constructor; [|constructor]. rewrite Ht. apply apartb_sound. vm_compute. reflexivity. }
  by exists w', s0, t.
Qed.

Lemma reachable_dtor_interior_witness :
  exists w s0 t, rtc (step 8 100) (demo_world, []) (w, [s0; t]) /\
    StackHandleScope_dtor 8 t w = inl (DCheckEq (this_ s0) (this_ t)).
Proof.
  destruct demo_two_scopes as (w & s0 & t & Hr).
  exists w, s0, t. split; [exact Hr|].
  apply (@reachable_dtor_interior 8 ltac:(right; reflexivity) debug_build eq_refl 100 demo_world w s0 [t] t eq_refl Hr).
  constructor.
Defined.

Lemma release_dtor_interior_witness :
  exists w s0 t w', rtc (step 8 100) (demo_world, []) (w, [s0; t]) /\
    StackHandleScope_dtor (bc := release_build) 8 t w = inr (tt, w').
Proof.
  destruct demo_two_scopes as (w & s0 & t & Hr).
  destruct (@release_dtor_interior 8 ltac:(right; reflexivity) debug_build eq_refl 100 demo_world w s0 [t] t
              eq_refl Hr ltac:(constructor)) as (a0 & c & w' & _ & _ & _ & Hrun & _).
  exists w, s0, t, w'. split; [exact Hr|exact Hrun].
Defined.

Lemma NewHandles_get_witness :
  exists hs s' w', (s <- StackHandleScope_ctor 8 3 1000 100 ;; NewHandles 8 s [41; 0; 43])
                     demo_world = inr ((hs, s'), w') /\
    pos_ s' = Z.of_nat (length [41; 0; 43]) /\
    Forall2 (fun h o => Get h w' = inr (u32 o, w')) hs [41; 0; 43].
Proof.
  apply (@NewHandles_get 8 ltac:(right; reflexivity) debug_build 100 demo_world [] 3 1000);
    [apply world_repb_sound; vm_compute; reflexivity|lia
    |apply scope_okb_sound; vm_compute; reflexivity|constructor|simpl; lia].
Defined.


Lemma reachable_code_step_confined_witness :
  exists w s, code_step 8 100 (demo_world, []) (w, [s]) /\ confined 8 100 ([s] ++ []) demo_world w.
Proof.
  destruct (StackHandleScope_ctor 8 2 1000 100 demo_world) as [e|[s w]] eqn:Hrun;
    [vm_compute in Hrun; discriminate|].
  assert (Hc : code_step 8 100 (demo_world, []) (w, [s])).
  { apply (step_open 8 100 demo_world [] 2 1000 s w);
      [lia|apply scope_okb_sound; vm_compute; reflexivity|constructor|exact Hrun]. }
  exists w, s. split; [exact Hc|].
  exact (@reachable_code_step_confined 8 ltac:(right; reflexivity) debug_build eq_refl 100
           demo_world demo_world [] w [s] eq_refl (rtc_refl _ _) Hc).
Defined.

Lemma reachable_unwind_witness :
  exists w s, rtc (step 8 100) (demo_world, []) (w, [s]) /\
    exists w', rtc (step 8 100) (w, [s]) (w', []) /\ tls_top w' !! 100 = Some nullptr.
Proof.
  destruct (StackHandleScope_ctor 8 2 1000 100 demo_world) as [e|[s w]] eqn:Hrun;
    [vm_compute in Hrun; discriminate|].
  assert (Hr : rtc (step 8 100) (demo_world, []) (w, [s])).
  { apply rtc_once. apply step_code, (step_open 8 100 demo_world [] 2 1000 s w);
      [lia|apply scope_okb_sound; vm_compute; reflexivity|constructor|exact Hrun]. }
  exists w, s. split; [exact Hr|].
  exact (@reachable_unwind 8 ltac:(right; reflexivity) debug_build eq_refl 100 demo_world (w, [s]) eq_refl Hr).
Defined.

End Execution.
