(* ===== verification/JniStub.v ===== *)
(** The handle scope a compiled JNI stub builds in its own frame.  The
    stub does not call the C++ constructor: it reserves
    [GetAlignedHandleScopeSizeTarget] bytes of its frame, writes the count,
    the link and the reference arguments at the offsets [LinkOffset],
    [NumberOfReferencesOffset] and [ReferencesOffset] give it, publishes
    the table as the thread's chain head, and on return calls
    [JniMethodEnd], which pops the thread's head with
    [Thread::PopHandleScope].  The stub code is not under [src/]; it is
    modelled from the spec (a "separately compiled producer" that must
    agree with the accessors bit for bit).  The lemmas show that such a
    table is, for the accessors and the collector, a scope of the abstract
    stack of [Refinement]. *)

From S2P Require Import Prelude Layout Memory Handle HandleScope Thread StackHandleScope Refinement.
Import Layout Memory Handle HandleScope Thread StackHandleScope Refinement.

Local Open Scope Z_scope.
Local Open Scope hs_scope.

Module JniStub.

Section Stub.
Context (p : Z).

(** Entry: [number_of_references_] is the count of reference arguments,
    [link_] is copied from [Thread::top_handle_scope], the thread's head
    becomes the frame's table, and each reference argument is spilled,
    compressed, into its slot.  Addresses are [size_t] sums of the frame
    address and the offsets. *)
Definition stub_push (self base : Z) (refs : list Z) : SE World unit :=
  store (size_t p (base + NumberOfReferencesOffset p)) (u32 (Z.of_nat (length refs))) ;;
  top <- GetTopHandleScope self ;;
  store (size_t p (base + LinkOffset p)) top ;;
  SetTopHandleScope self base ;;
  se_for (zseq (Z.of_nat (length refs)))
    (fun i => StackReference_Assign
                (size_t p (base + ReferencesOffset p + sizeof_StackReference * i))
                (nth (Z.to_nat i) refs nullptr)).

(** Exit: the stub calls [JniMethodEnd], whose [PopLocalReferences]
    ends with [Thread::PopHandleScope]: the thread's current head is
    popped (its [link_] becomes the head) and the popped scope is
    discarded. *)
Definition stub_pop {bc : BuildConfig} (self : Z) : SE World unit :=
  _ <- PopHandleScope p self ;;
  se_ret tt.

(** A native call through the stub: entry, the native method, exit. *)
Definition stub_call {bc : BuildConfig} (self base : Z) (refs : list Z) (body : SE World unit) :
    SE World unit :=
  stub_push self base refs ;;
  body ;;
  stub_pop self.

(** A table materialized in raw memory through the C++ API instead
    (spec §4.1: [SetNumberOfReferences] is for "tables materialized from
    externally managed memory"): the count, each argument with
    [SetReference], then [Thread::PushHandleScope]. *)
Definition materialize_table {bc : BuildConfig} (self base : Z) (refs : list Z) : SE World unit :=
  SetNumberOfReferences p base (Z.of_nat (length refs)) ;;
  se_for (zseq (Z.of_nat (length refs)))
    (fun i => SetReference p base i (nth (Z.to_nat i) refs nullptr)) ;;
  PushHandleScope p self base.

End Stub.

(** The abstract scope a stub's table stands for. *)
Definition stub_scope (base : Z) (refs : list Z) : AScope := mkAScope base (map u32 refs).

(** The frame reserved for the table: [GetAlignedHandleScopeSizeTarget]
    bytes computed on a [host] build, at a non-null address, inside the
    target's address space and apart from every live scope. *)
Definition frame_ok (p host base n : Z) (c : list AScope) : Prop :=
  0 < base /\ 0 <= n < 2 ^ 32 /\ p + 4 + 4 * n + 7 < 2 ^ (8 * host) /\
  base + GetAlignedHandleScopeSizeTarget host p n <= 2 ^ (8 * p) /\
  Forall (fun t => scope_end p t <= base \/
                   base + GetAlignedHandleScopeSizeTarget host p n <= a_base t) c.

#[export] Instance frame_ok_dec p host base n c : Decision (frame_ok p host base n c).
Proof. unfold frame_ok. apply _. Defined.

(** The contract of a native method between entry and exit: from any
    represented chain it returns with a represented chain of scopes at the
    same addresses (it may create and destroy inner scopes and the
    collector may move objects). *)
Definition keeps_scopes (p self : Z) (body : SE World unit) : Prop :=
  forall w c, world_rep p w self c ->
  exists w' c', body w = inr (tt, w') /\ world_rep p w' self c' /\ map a_base c' = map a_base c.

(** The memory after [stub_push] over [m0], the thread's head being [top]. *)
Definition stub_mem (p base : Z) (refs : list Z) (top : Z) (m0 : gmap Z Z) : gmap Z Z :=
  foldl (fun m i => <[size_t p (base + ReferencesOffset p + sizeof_StackReference * i) :=
                        u32 (nth (Z.to_nat i) refs nullptr)]> m)
        (<[size_t p (base + LinkOffset p) := top]>
          (<[size_t p (base + NumberOfReferencesOffset p) := u32 (Z.of_nat (length refs))]> m0))
        (zseq (Z.of_nat (length refs))).

Section Proofs.
Context `{PointerSize p} {bc : BuildConfig}.

(** The stub's addresses are the accessors' addresses, for every frame. *)
Lemma stub_link_addr base : size_t p (base + LinkOffset p) = link_addr p base.
Proof. unfold link_addr. by rewrite member_offset_link. Qed.

Lemma stub_count_addr base : size_t p (base + NumberOfReferencesOffset p) = count_addr p base.
Proof. unfold count_addr. by rewrite member_offset_count. Qed.

Lemma stub_slot_addr base i :
  size_t p (base + ReferencesOffset p + sizeof_StackReference * i) = ref_addr p base i.
Proof. unfold ref_addr. by rewrite member_offset_references. Qed.

Lemma se_for_assign js (f g : Z -> Z) w :
  se_for js (fun i => StackReference_Assign (f i) (g i)) w =
  inr (tt, mkWorld (foldl (fun m i => <[f i := u32 (g i)]> m) (mem w) js) (tls_top w)).
Proof.
  revert w. induction js as [|j js IH]; intros w; [by destruct w|].
  cbn [se_for foldl]. rewrite (se_bind_inr (StackReference_Assign (f j) (g j)) _ w tt _ eq_refl).
  by rewrite IH.
Qed.

Lemma a_count_stub_scope base refs : a_count (stub_scope base refs) = Z.of_nat (length refs).
Proof. unfold a_count, stub_scope. simpl. by rewrite length_map. Qed.

Lemma stub_slots_notin base n a :
  scope_fits p base n ->
  ~ (base + ReferencesOffset p <= a < base + ReferencesOffset p + sizeof_StackReference * n) ->
  a ∉ (fun i => size_t p (base + ReferencesOffset p + sizeof_StackReference * i)) <$> zseq n.
Proof.
  intros Hfit Ha. rewrite list_elem_of_fmap. intros (j & -> & Hj%elem_of_zseq).
  apply Ha. rewrite stub_slot_addr, (ref_addr_eq base n j) by done.
  pose proof pointer_size_pos. unfold scope_fits, ReferencesOffset, sizeof_StackReference, sizeof_uint32 in *. lia.
Qed.

Lemma stub_push_run w self base refs top :
  tls_top w !! self = Some top ->
  stub_push p self base refs w =
  inr (tt, mkWorld (stub_mem p base refs top (mem w)) (<[self := base]> (tls_top w))).
Proof.
  intros Ht. unfold stub_push, se_bind, store, GetTopHandleScope, SetTopHandleScope. simpl.
  rewrite Ht. simpl. by rewrite se_for_assign.
Qed.

(** What the stub's table holds: the link, the count, each argument
    compressed in its slot; the rest of memory is untouched. *)
Lemma stub_mem_spec base refs top m0 :
  let n := Z.of_nat (length refs) in
  scope_fits p base n ->
  stub_mem p base refs top m0 !! link_addr p base = Some top /\
  stub_mem p base refs top m0 !! count_addr p base = Some (u32 n) /\
  (forall i, 0 <= i < n ->
     stub_mem p base refs top m0 !! ref_addr p base i = Some (u32 (nth (Z.to_nat i) refs nullptr))) /\
  (forall a, ~ (base <= a < base + ReferencesOffset p + sizeof_StackReference * n) ->
     stub_mem p base refs top m0 !! a = m0 !! a).
Proof.
  intros n Hfit. pose proof pointer_size_pos.
  assert (Hl := link_addr_eq base n Hfit). assert (Hc := count_addr_eq base n Hfit).
  assert (Hlc := link_addr_ne_count base n Hfit).
  unfold stub_mem. fold n. rewrite stub_link_addr, stub_count_addr.
  split; [|split; [|split]].
  - rewrite lookup_foldl_insert_notin by (apply (stub_slots_notin _ n); [done|]; rewrite Hl; scope_lia).
    apply lookup_insert_eq.
  - rewrite lookup_foldl_insert_notin by (apply (stub_slots_notin _ n); [done|]; rewrite Hc; scope_lia).
    rewrite lookup_insert_ne by done. apply lookup_insert_eq.
  - intros i Hi. rewrite <- stub_slot_addr.
    apply (lookup_foldl_insert_in (fun i => size_t p (base + ReferencesOffset p + sizeof_StackReference * i))
             (fun i => u32 (nth (Z.to_nat i) refs nullptr))); [|by apply elem_of_zseq].
    intros j j' Hj%elem_of_zseq Hj'%elem_of_zseq Heq. rewrite !stub_slot_addr in Heq.
    exact (ref_addr_inj base n j j' Hfit Hj Hj' Heq).
  - intros a Ha. rewrite lookup_foldl_insert_notin by (apply (stub_slots_notin _ n); [done|]; scope_lia).
    rewrite !lookup_insert_ne; [done|rewrite Hc; scope_lia|rewrite Hl; scope_lia].
Qed.

(** [stub_push] on a represented chain, into a table apart from every
    live scope, pushes the table's abstract scope. *)
Lemma stub_push_sim w self c base refs :
  world_rep p w self c -> scope_ok p (stub_scope base refs) ->
  Forall (apart p (stub_scope base refs)) c ->
  exists w', stub_push p self base refs w = inr (tt, w') /\
    world_rep p w' self (stub_scope base refs :: c) /\
    (forall a, ~ in_scope p (stub_scope base refs) a -> mem w' !! a = mem w !! a) /\
    tls_top w' = <[self := base]> (tls_top w).
Proof.
  intros (Ht & Hc & Hok) Hnew Hap. pose proof (a_count_stub_scope base refs) as Hn.
  assert (Hfit : scope_fits p base (Z.of_nat (length refs))) by (rewrite <- Hn; apply Hnew).
  destruct (stub_mem_spec base refs (chain_head c) (mem w) Hfit) as (Hl & Hcnt & Hr & Hfr).
  assert (Hout : forall a, ~ in_scope p (stub_scope base refs) a ->
            stub_mem p base refs (chain_head c) (mem w) !! a = mem w !! a).
  { intros a Ha. apply Hfr. contradict Ha. unfold in_scope, scope_end. rewrite Hn. simpl. lia. }
  eexists. split; [by apply stub_push_run|]. split; [|split; [exact Hout|done]].
  unfold world_rep. cbn [mem tls_top chain_rep chain_ok chain_head]. unfold scope_rep.
  change (a_base (stub_scope base refs)) with base.
  split; [apply lookup_insert_eq|]. split; [split|by split].
  - split; [done|split].
    + rewrite Hcnt, Hn. f_equal. apply wrap_small. destruct Hnew as [_ Hlt]. rewrite Hn in Hlt. lia.
    + intros i v Hi. cbn [stub_scope a_refs] in Hi. rewrite list_lookup_fmap in Hi.
      destruct (refs !! i) as [r|] eqn:Hri; [|done]. injection Hi as <-.
      rewrite Hr by (apply lookup_lt_Some in Hri; lia).
      by rewrite Nat2Z.id, (nth_lookup_Some refs i nullptr r Hri).
  - apply (chain_rep_agree (mem w)); [done| |done]. intros t a Hta Hin.
    apply Hout. eapply apart_not_in; [|exact Hin]. by apply (proj1 (Forall_forall _ _) Hap).
Qed.

(** [stub_pop] pops the head of the chain, in either build. *)
Lemma stub_pop_sim w self s c :
  world_rep p w self (s :: c) ->
  stub_pop p self w = inr (tt, mkWorld (mem w) (<[self := chain_head c]> (tls_top w))) /\
  world_rep p (mkWorld (mem w) (<[self := chain_head c]> (tls_top w))) self c.
Proof.
  intros (Ht & [(Hl & _ & _) Hc] & [Hfit _] & _ & Hok). split.
  - unfold stub_pop.
    by rewrite (se_bind_inr _ _ _ _ _ (PopHandleScope_ok p w self (a_base s) (chain_head c) Ht
                  ltac:(unfold nullptr; scope_lia) Hl)).
  - split; [apply lookup_insert_eq|by split].
Qed.

Lemma scope_end_stub_scope base refs :
  scope_end p (stub_scope base refs) = base + p + 4 + 4 * Z.of_nat (length refs).
Proof.
  unfold scope_end. rewrite a_count_stub_scope.
  unfold ReferencesOffset, sizeof_StackReference, sizeof_uint32. simpl. lia.
Qed.

(** The reserved frame holds the table: its scope fits and is apart from
    every live scope, and it lies inside the reservation. *)
Lemma frame_scope host base refs c :
  PointerSize host -> frame_ok p host base (Z.of_nat (length refs)) c ->
  scope_ok p (stub_scope base refs) /\ Forall (apart p (stub_scope base refs)) c /\
  scope_end p (stub_scope base refs) <=
    base + GetAlignedHandleScopeSizeTarget host p (Z.of_nat (length refs)).
Proof.
  intros Hh (Hb & Hn & Hov & Hend & Hfree). pose proof (pointer_size_pos (p := p)).
  rewrite (GetAlignedHandleScopeSizeTarget_exact host p _ Hh) in Hend, Hfree |- * by lia.
  destruct (round8_bounds (p + 4 + 4 * Z.of_nat (length refs))) as [[Hlo _] _]; [lia|].
  pose proof (scope_end_stub_scope base refs) as He.
  split; [|split; [|lia]].
  - unfold scope_ok, scope_fits. rewrite a_count_stub_scope. cbn [a_base stub_scope].
    unfold ReferencesOffset, sizeof_StackReference, sizeof_uint32. lia.
  - eapply Forall_impl; [exact Hfree|]. intros t Ht. cbv beta in Ht. unfold apart. change (a_base (stub_scope base refs)) with base. lia.
Qed.

(** The [SetReference] loop over in-range slots of a table whose count
    is in memory. *)
Lemma se_for_SetReference w this k js (f : Z -> Z) :
  scope_fits p this k -> mem w !! count_addr p this = Some k ->
  (forall j, j ∈ js -> 0 <= j < k) ->
  se_for js (fun i => SetReference p this i (f i)) w =
  inr (tt, mkWorld (foldl (fun m i => <[ref_addr p this i := u32 (f i)]> m) (mem w) js) (tls_top w)).
Proof.
  revert w. induction js as [|j js IH]; intros w Hfit Hn Hjs; [by destruct w|].
  assert (Hj : 0 <= j < k) by (apply Hjs; set_solver).
  cbn [se_for foldl]. rewrite (se_bind_inr _ _ _ _ _ (SetReference_ok p w this k j (f j) Hn ltac:(lia))).
  rewrite IH; [done|done| |set_solver].
  rewrite world_store_mem_ne; [done|]. by eapply ref_addr_ne_count.
Qed.

(** The memory [materialize_table] leaves: the stub's, with the stores
    in another order. *)
Lemma materialize_table_run w self base refs top :
  let n := Z.of_nat (length refs) in
  scope_fits p base n -> n < 2 ^ 32 -> tls_top w !! self = Some top -> base <> top ->
  materialize_table p self base refs w =
  inr (tt, mkWorld (stub_mem p base refs top (mem w)) (<[self := base]> (tls_top w))).
Proof.
  intros n Hfit Hn Ht Hne. pose proof pointer_size_pos.
  assert (Hc : mem (world_store w (count_addr p base) (u32 n)) !! count_addr p base = Some n).
  { rewrite world_store_mem_eq. f_equal. apply wrap_small. unfold scope_fits in Hfit. lia. }
  unfold materialize_table, SetNumberOfReferences. rewrite (se_bind_inr _ _ w tt _ eq_refl).
  rewrite (se_bind_inr _ _ _ _ _ (se_for_SetReference _ base n _ _ Hfit Hc ltac:(by intros j ?%elem_of_zseq))).
  etransitivity; [apply (PushHandleScope_spec _ self base top); [exact Ht|exact Hne]|].
  cbn [mem tls_top world_store].
  unfold stub_mem. fold n. rewrite stub_link_addr, stub_count_addr.
  rewrite (foldl_insert_ext (ref_addr p base)
             (fun i => size_t p (base + ReferencesOffset p + sizeof_StackReference * i)))
    by (intros i; symmetry; apply stub_slot_addr).
  rewrite !foldl_insert_commute; [done|..]; apply (stub_slots_notin _ n); try done;
    rewrite ?(link_addr_eq base n Hfit), ?(count_addr_eq base n Hfit); scope_lia.
Qed.

(** Two chains with scopes at the same addresses have the same head. *)
Lemma chain_head_bases c d : map a_base c = map a_base d -> chain_head c = chain_head d.
Proof. destruct c, d; simpl; congruence. Qed.

End Proofs.

Section Properties.
Context `{PointerSize p} {bc : BuildConfig}.

(** C27 (refinement): a JNI stub whose frame reserves
    [GetAlignedHandleScopeSizeTarget] bytes (computed on a host whose
    [size_t] does not wrap) apart from every live scope builds, through
    the offset queries alone, a table the runtime sees as a pushed scope
    holding the compressed arguments: the thread's chain is still
    represented with the table as its head, and no byte outside the
    reservation is written. *)
Theorem stub_push_refines host w self c base refs :
  PointerSize host -> world_rep p w self c -> frame_ok p host base (Z.of_nat (length refs)) c ->
  exists w', stub_push p self base refs w = inr (tt, w') /\
    world_rep p w' self (stub_scope base refs :: c) /\
    (forall a, ~ (base <= a < base + GetAlignedHandleScopeSizeTarget host p (Z.of_nat (length refs))) ->
               mem w' !! a = mem w !! a) /\
    tls_top w' = <[self := base]> (tls_top w).
Proof.
  intros Hh Hw Hf. destruct (frame_scope host base refs c Hh Hf) as (Hok & Hap & Hend).
  destruct (stub_push_sim w self c base refs Hw Hok Hap) as (w' & Hrun & Hw' & Hfr & Htls).
  exists w'. split; [done|]. split; [done|]. split; [|done].
  intros a Ha. apply Hfr. unfold in_scope. change (a_base (stub_scope base refs)) with base. lia.
Qed.

(** C28 (functional): in either build, the C++ accessors read back what
    the stub wrote: [NumberOfReferences()] is the argument count,
    [GetLink()] the previous chain head, and [GetReference(i)] the [i]-th
    argument, compressed; the [DCHECK_LT] of [GetReference] passes. *)
Theorem stub_table_accessors host w self c base refs :
  PointerSize host -> world_rep p w self c -> frame_ok p host base (Z.of_nat (length refs)) c ->
  exists w', stub_push p self base refs w = inr (tt, w') /\
    NumberOfReferences p base w' = inr (Z.of_nat (length refs), w') /\
    GetLink p base w' = inr (chain_head c, w') /\
    forall i, 0 <= i < Z.of_nat (length refs) ->
      GetReference p base i w' = inr (u32 (nth (Z.to_nat i) refs nullptr), w').
Proof.
  intros Hh Hw Hf. destruct (frame_scope host base refs c Hh Hf) as (Hok & Hap & _).
  destruct (stub_push_sim w self c base refs Hw Hok Hap) as (w' & Hrun & Hw' & _).
  destruct Hw' as (_ & [Hs _] & _). pose proof Hs as (Hl & Hc & _).
  rewrite a_count_stub_scope in Hc. exists w'. split; [done|].
  split; [by apply load_hit|]. split; [by apply load_hit|].
  intros i Hi. destruct (lookup_lt_is_Some_2 refs (Z.to_nat i)) as [r Hr]; [lia|].
  rewrite (nth_lookup_Some refs _ nullptr r Hr), <- (Z2Nat.id i) by lia.
  apply (GetReference_rep w' (stub_scope base refs) (chain_head c)); [done|].
  cbn [stub_scope a_refs]. by rewrite list_lookup_fmap, Hr.
Qed.

(** C29 (functional): the collector sees the stub's arguments: once the
    table is pushed, [HandleScopeVisitRoots] with one unit of fuel per
    scope records the non-null arguments (compressed, in order) before
    the roots of the older scopes. *)
Theorem stub_args_are_roots host w self c base refs :
  PointerSize host -> world_rep p w self c -> frame_ok p host base (Z.of_nat (length refs)) c ->
  exists w', stub_push p self base refs w = inr (tt, w') /\
    HandleScopeVisitRoots p record_root (S (length c)) self [] w' =
      inr (filter (fun v => v <> nullptr) (map u32 refs) ++ a_roots c, w').
Proof.
  intros Hh Hw Hf. destruct (frame_scope host base refs c Hh Hf) as (Hok & Hap & _).
  destruct (stub_push_sim w self c base refs Hw Hok Hap) as (w' & Hrun & Hw' & _).
  exists w'. split; [done|]. by rewrite (HandleScopeVisitRoots_record w' self _ _ [] Hw').
Qed.

(** C30 (roundtrip): a native call through the stub, whose method keeps
    the scopes in place, returns with the thread's chain head restored to
    the caller's and the caller's scopes still represented. *)
Theorem stub_call_restores host w self c base refs body :
  PointerSize host -> world_rep p w self c -> frame_ok p host base (Z.of_nat (length refs)) c ->
  keeps_scopes p self body ->
  exists w' c', stub_call p self base refs body w = inr (tt, w') /\
    world_rep p w' self c' /\ map a_base c' = map a_base c /\
    tls_top w' !! self = Some (chain_head c).
Proof.
  intros Hh Hw Hf Hbody. destruct (frame_scope host base refs c Hh Hf) as (Hok & Hap & _).
  destruct (stub_push_sim w self c base refs Hw Hok Hap) as (w1 & Hrun1 & Hw1 & _).
  destruct (Hbody w1 _ Hw1) as (w2 & [|s2 c2] & Hrun2 & Hw2 & Hb); [discriminate|].
  injection Hb as Hbase Hbs. destruct (stub_pop_sim w2 self s2 c2 Hw2) as [Hpop Hw3].
  eexists _, c2. split; [|split; [exact Hw3|split; [done|]]].
  - unfold stub_call. rewrite (se_bind_inr _ _ _ _ _ Hrun1), (se_bind_inr _ _ _ _ _ Hrun2).
    exact Hpop.
  - simpl. rewrite lookup_insert_eq. by rewrite (chain_head_bases c2 c).
Qed.

(** C35 (equivalence): in either build, a table materialized through the
    C++ API ([SetNumberOfReferences], [SetReference] for each argument,
    [PushHandleScope]) and the stub's raw stores at the offsets produce
    the same world, and both succeed: the two producers of the structure
    agree byte for byte. *)
Theorem materialize_table_eq_stub_push w self base refs top :
  scope_fits p base (Z.of_nat (length refs)) -> Z.of_nat (length refs) < 2 ^ 32 ->
  tls_top w !! self = Some top -> base <> top ->
  materialize_table p self base refs w = stub_push p self base refs w /\
  exists w', stub_push p self base refs w = inr (tt, w').
Proof.
  intros Hfit Hn Ht Hne. rewrite (materialize_table_run w self base refs top Hfit Hn Ht Hne).
  rewrite (stub_push_run w self base refs top Ht). eauto.
Qed.

End Properties.

(** ** Witnesses: a 64-bit debug build, thread 100 whose chain holds one
    scope at 1000 with object 41; a stub with frame 2000 passes the
    references 7 and null. *)

#[local] Existing Instance debug_build.

Lemma stub_push_refines_witness :
  exists w', stub_push 8 100 2000 [7; 0]
      (mkWorld {[1000 := 0; 1008 := 1; 1012 := 41]} {[100 := 1000]}) = inr (tt, w') /\
    world_rep 8 w' 100 (stub_scope 2000 [7; 0] :: [mkAScope 1000 [41]]).
Proof.
  destruct (@stub_push_refines 8 ltac:(right; reflexivity) 8
      (mkWorld {[1000 := 0; 1008 := 1; 1012 := 41]} {[100 := 1000]}) 100
      [mkAScope 1000 [41]] 2000 [7; 0] ltac:(right; reflexivity)
      ltac:(apply world_repb_sound; vm_compute; reflexivity)
      ltac:(apply (bool_decide_unpack _); vm_compute; exact I)) as (w' & Hrun & Hw' & _).
  exists w'. split; [exact Hrun|exact Hw'].
Defined.

Lemma stub_table_accessors_witness :
  exists w', stub_push 8 100 2000 [7; 0]
      (mkWorld {[1000 := 0; 1008 := 1; 1012 := 41]} {[100 := 1000]}) = inr (tt, w') /\
    GetReference 8 2000 0 w' = inr (7, w').
Proof.
  destruct (@stub_table_accessors 8 ltac:(right; reflexivity) debug_build 8
      (mkWorld {[1000 := 0; 1008 := 1; 1012 := 41]} {[100 := 1000]}) 100
      [mkAScope 1000 [41]] 2000 [7; 0] ltac:(right; reflexivity)
      ltac:(apply world_repb_sound; vm_compute; reflexivity)
      ltac:(apply (bool_decide_unpack _); vm_compute; exact I)) as (w' & Hrun & _ & _ & Hr).
  exists w'. split; [exact Hrun|exact (Hr 0 ltac:(simpl; lia))].
Defined.

Lemma stub_args_are_roots_witness :
  exists w', stub_push 8 100 2000 [7; 0]
      (mkWorld {[1000 := 0; 1008 := 1; 1012 := 41]} {[100 := 1000]}) = inr (tt, w') /\
    HandleScopeVisitRoots 8 record_root 2 100 [] w' = inr ([7; 41], w').
Proof.
  destruct (@stub_args_are_roots 8 ltac:(right; reflexivity) debug_build 8
      (mkWorld {[1000 := 0; 1008 := 1; 1012 := 41]} {[100 := 1000]}) 100
      [mkAScope 1000 [41]] 2000 [7; 0] ltac:(right; reflexivity)
      ltac:(apply world_repb_sound; vm_compute; reflexivity)
      ltac:(apply (bool_decide_unpack _); vm_compute; exact I)) as (w' & Hrun & Hv).
  exists w'. split; [exact Hrun|exact Hv].
Defined.

Lemma stub_call_restores_witness :
  exists w' c', stub_call (bc := debug_build) 8 100 2000 [7; 0] (se_ret tt)
      (mkWorld {[1000 := 0; 1008 := 1; 1012 := 41]} {[100 := 1000]}) = inr (tt, w') /\
    world_rep 8 w' 100 c' /\ tls_top w' !! 100 = Some 1000.
Proof.
  destruct (@stub_call_restores 8 ltac:(right; reflexivity) debug_build 8
      (mkWorld {[1000 := 0; 1008 := 1; 1012 := 41]} {[100 := 1000]}) 100
      [mkAScope 1000 [41]] 2000 [7; 0] (se_ret tt) ltac:(right; reflexivity)
      ltac:(apply world_repb_sound; vm_compute; reflexivity)
      ltac:(apply (bool_decide_unpack _); vm_compute; exact I)
      ltac:(intros w c Hw; exists w, c; done)) as (w' & c' & Hrun & Hw' & _ & Ht).
  exists w', c'. split; [exact Hrun|split; [exact Hw'|exact Ht]].
Defined.

Lemma materialize_table_eq_stub_push_witness :
  materialize_table 8 100 2000 [7; 0]
    (mkWorld {[1000 := 0; 1008 := 1; 1012 := 41]} {[100 := 1000]}) =
  stub_push 8 100 2000 [7; 0] (mkWorld {[1000 := 0; 1008 := 1; 1012 := 41]} {[100 := 1000]}).
Proof.
  apply (@materialize_table_eq_stub_push 8 ltac:(right; reflexivity) debug_build
           (mkWorld {[1000 := 0; 1008 := 1; 1012 := 41]} {[100 := 1000]}) 100 2000 [7; 0] 1000);
    [unfold scope_fits, ReferencesOffset, sizeof_StackReference, sizeof_uint32; simpl; lia
    |simpl; lia|reflexivity|lia].
Defined.

End JniStub.
