(* ===== verification/Threads.v ===== *)
(** All threads of the runtime.  Each thread owns one chain of handle
    scopes, built on its own native stack; the spec (§5) makes every chain
    private to its thread.  A pool maps a thread's address to its stack
    range ([tlsPtr_.stack_begin], [stack_end]) and to its live
    [StackHandleScope] objects.  A pool step is a call of one thread's code
    (an [Execution.code_step] whose objects stay on that thread's stack), a
    store by native code outside every live scope, the attach of a new
    thread ([Thread::Init] nulls its [top_handle_scope]), or a collection
    that walks the chains of all threads with [ThreadList::VisitRoots].
    The threads' steps interleave in any order.  The lemmas show that, in a
    debug build, every thread's invariant of [Execution] holds in every
    reachable pool, that a thread's step never touches another thread's
    chain, and that the collector sees every thread's roots. *)

From S2P Require Import Prelude Layout Memory Handle HandleScope Thread StackHandleScope Refinement Execution.
Import Layout Memory Handle HandleScope Thread StackHandleScope Refinement Execution.
From stdpp Require Import relations.

Local Open Scope Z_scope.
Local Open Scope hs_scope.

Module Threads.

(** A thread: its native stack range and its live objects, innermost
    first. *)
Record ThreadState := mkThreadState {
  stack_begin : Z;
  stack_end : Z;
  live : list StackHandleScope
}.

Definition set_live (ts : ThreadState) (ss : list StackHandleScope) : ThreadState :=
  mkThreadState (stack_begin ts) (stack_end ts) ss.

Abbreviation Pool := (gmap Z ThreadState).

Definition PConfig : Type := World * Pool.

Section Operations.
Context (p : Z) {bc : BuildConfig}.

(** [Thread::Init]: a new thread's [tlsPtr_.top_handle_scope] is null. *)
Definition Thread_Init (self : Z) : SE World unit := SetTopHandleScope self nullptr.

(** [ThreadList::VisitRoots]: each thread of the list in turn has its
    handle scope roots visited, the callback's state threaded through. *)
Fixpoint ThreadList_VisitRoots {A} (callback : A -> Z -> A * Z) (fuel : nat)
    (threads : list Z) (arg : A) : SE World A :=
  match threads with
  | [] => se_ret arg
  | t :: ts =>
      arg' <- HandleScopeVisitRoots p callback fuel t arg ;;
      ThreadList_VisitRoots callback fuel ts arg'
  end.

End Operations.

(** The threads of a pool, in the order the runtime's list holds them. *)
Definition thread_ids (P : Pool) : list Z := (map_to_list P).*1.

(** Threads 100 (stack [1000, 2000)) and 200 (stack [3000, 4000)) attached
    in that order, thread 100 holding the objects [ss]; and the world once
    thread 100 has constructed a [StackHandleScope<1>] at 1000 and stored
    object 41 in it with [NewHandle] (64-bit):
    the start of the concrete runs of the witnesses. *)
Definition demo_pool (ss : list StackHandleScope) : Pool :=
  <[100 := mkThreadState 1000 2000 ss]>
    (<[200 := mkThreadState 3000 4000 []]> (<[100 := mkThreadState 1000 2000 []]> ∅)).

Definition demo_pool_world : World :=
  mkWorld {[1000 := 0; 1008 := 1; 1012 := 41]} {[100 := 1000; 200 := 0]}.

Section Pool.
Context (p : Z) {bc : BuildConfig}.

(** A scope lies on a thread's stack. *)
Definition on_stack (ts : ThreadState) (a : AScope) : Prop :=
  stack_begin ts <= a_base a /\ scope_end p a <= stack_end ts.

Definition stacks_apart (ts ts' : ThreadState) : Prop :=
  stack_end ts <= stack_begin ts' \/ stack_end ts' <= stack_begin ts.

(** One step of the runtime: one thread's call, a native store outside
    every live scope, a thread attach, or a collection over all threads. *)
Inductive pstep : PConfig -> PConfig -> Prop :=
| pstep_call t ts w P w' ss' :
    P !! t = Some ts -> code_step p t (w, live ts) (w', ss') ->
    Forall (fun s => on_stack ts (extent s)) ss' ->
    pstep (w, P) (w', <[t := set_live ts ss']> P)
| pstep_store w P a v :
    map_Forall (fun _ ts => Forall (fun s => ~ in_scope p (extent s) a) (live ts)) P ->
    pstep (w, P) (world_store w a v, P)
| pstep_attach t lo hi w w' P :
    P !! t = None -> 0 < lo <= hi ->
    map_Forall (fun _ ts => stacks_apart (mkThreadState lo hi []) ts) P ->
    Thread_Init t w = inr (tt, w') ->
    pstep (w, P) (w', <[t := mkThreadState lo hi []]> P)
| pstep_collect {A} (callback : A -> Z -> A * Z) fuel arg arg' w w' P :
    ThreadList_VisitRoots p callback fuel (thread_ids P) arg w = inr (arg', w') ->
    pstep (w, P) (w', P).

(** A thread's invariant: that of [Execution], with its objects on its
    stack. *)
Definition thread_ok (w : World) (t : Z) (ts : ThreadState) : Prop :=
  inv p t (w, live ts) /\ Forall (fun s => on_stack ts (extent s)) (live ts).

Definition pinv (cfg : PConfig) : Prop :=
  map_Forall (thread_ok cfg.1) cfg.2 /\
  forall t t' ts ts', t <> t' -> cfg.2 !! t = Some ts -> cfg.2 !! t' = Some ts' ->
    stacks_apart ts ts'.

End Pool.

(** ** Frames: a thread's chain lives on its stack *)

Section Frames.
Context `{PointerSize p}.

Lemma on_stack_owned ts t s a : owns t s a -> on_stack p ts (extent s) -> on_stack p ts a.
Proof.
  intros Ho. destruct (extent_owned t s a Ho) as [Hb Hk].
  unfold on_stack, scope_end. by rewrite Hb, Hk.
Qed.

Lemma on_stack_chain ts t ss c :
  Forall2 (owns t) ss c -> Forall (fun s => on_stack p ts (extent s)) ss -> Forall (on_stack p ts) c.
Proof.
  intros Hown Hst. eapply Forall2_Forall_transport; [exact Hown|exact Hst|].
  intros s a Ho Hs. by eapply on_stack_owned.
Qed.

(** A chain on a thread's stack is represented in any world that agrees on
    the stack's bytes and on the thread's head. *)
Lemma world_rep_stack_frame w w' t ts c :
  world_rep p w t c -> Forall (on_stack p ts) c ->
  tls_top w' !! t = tls_top w !! t ->
  (forall x, stack_begin ts <= x < stack_end ts -> mem w' !! x = mem w !! x) ->
  world_rep p w' t c.
Proof.
  intros (Ht & Hc & Hok) Hst Htls Hmem. split; [by rewrite Htls|]. split; [|done].
  apply (chain_rep_agree (mem w)); [done| |done].
  intros a x Ha Hx. apply Hmem. pose proof (proj1 (Forall_forall _ _) Hst a Ha) as Hon.
  unfold on_stack, in_scope in *. lia.
Qed.

Lemma thread_ok_frame w w' t ts :
  thread_ok p w t ts -> tls_top w' !! t = tls_top w !! t ->
  (forall x, stack_begin ts <= x < stack_end ts -> mem w' !! x = mem w !! x) ->
  thread_ok p w' t ts.
Proof.
  intros [(c & Hw & Hown) Hst] Htls Hmem. split; [|done]. exists c. split; [|done].
  apply (world_rep_stack_frame w w' t ts); [done|by eapply on_stack_chain|done|done].
Qed.

(** No byte of a stack lies in a scope on another, disjoint stack. *)
Lemma stacks_apart_out ts ts' ss x :
  stacks_apart ts ts' -> stack_begin ts' <= x < stack_end ts' ->
  Forall (fun s => on_stack p ts (extent s)) ss -> Forall (fun s => ~ in_scope p (extent s) x) ss.
Proof.
  intros Hap Hx Hst. eapply Forall_impl; [exact Hst|]. cbv beta.
  intros s Hs Hin. unfold stacks_apart, on_stack, in_scope in *. lia.
Qed.

Lemma stacks_apart_sym ts ts' : stacks_apart ts ts' -> stacks_apart ts' ts.
Proof. unfold stacks_apart. lia. Qed.

(** Inserting a thread whose stack is apart from the others' keeps the
    stacks pairwise apart. *)
Lemma pool_apart_insert (P : Pool) t ts :
  (forall t1 t2 ts1 ts2, t1 <> t2 -> P !! t1 = Some ts1 -> P !! t2 = Some ts2 -> stacks_apart ts1 ts2) ->
  (forall t2 ts2, t2 <> t -> P !! t2 = Some ts2 -> stacks_apart ts ts2) ->
  forall t1 t2 ts1 ts2, t1 <> t2 -> <[t := ts]> P !! t1 = Some ts1 -> <[t := ts]> P !! t2 = Some ts2 ->
    stacks_apart ts1 ts2.
Proof.
  intros Hap Hnew t1 t2 ts1 ts2 Hne H1 H2.
  apply lookup_insert_Some in H1 as [[-> <-]|[Hne1 H1]];
  apply lookup_insert_Some in H2 as [[-> <-]|[Hne2 H2]];
    [done|apply (Hnew t2 ts2); [congruence|done]|apply stacks_apart_sym, (Hnew t1 ts1); [congruence|done]|eauto].
Qed.

End Frames.

(** ** The pool invariant *)

Section Invariant.
Context `{PointerSize p} {bc : BuildConfig} (Hdbg : kIsDebugBuild = true).

(** A call of thread [t] whose objects stay on its stack keeps every
    thread's invariant: [t]'s by [code_step_sim], the others' because the
    call writes only inside [t]'s objects and moves no other head. *)
Lemma call_other_frame w P t ts w' ss' t' ts' :
  pinv p (w, P) -> P !! t = Some ts -> code_step p t (w, live ts) (w', ss') ->
  Forall (fun s => on_stack p ts (extent s)) ss' -> t' <> t -> P !! t' = Some ts' ->
  tls_top w' !! t' = tls_top w !! t' /\
  forall x, stack_begin ts' <= x < stack_end ts' -> mem w' !! x = mem w !! x.
Proof.
  intros [Hall Hap] Ht Hstep Hss' Hne Ht'. destruct (Hall t ts Ht) as [(c & Hw & Hown) Hst].
  destruct (code_step_sim Hdbg t w (live ts) w' ss' c Hw Hown Hstep) as [_ [Hmem Htls]].
  split; [by apply Htls|]. intros x Hx. apply Hmem. apply Forall_app. split;
    [apply (stacks_apart_out ts ts'); [by apply (Hap t t'); [congruence|..]|done|done]..].
Qed.

(** A call of thread [t] whose objects stay on its stack keeps every
    thread's invariant: [t]'s by [code_step_sim], the others' because the
    call writes only inside [t]'s objects and moves no other head. *)
Lemma call_pinv w P t ts w' ss' :
  pinv p (w, P) -> P !! t = Some ts -> code_step p t (w, live ts) (w', ss') ->
  Forall (fun s => on_stack p ts (extent s)) ss' ->
  pinv p (w', <[t := set_live ts ss']> P).
Proof.
  intros Hinv Ht Hstep Hss'. pose proof Hinv as [Hall Hap].
  destruct (Hall t ts Ht) as [(c & Hw & Hown) Hst].
  pose proof (proj1 (code_step_sim Hdbg t w (live ts) w' ss' c Hw Hown Hstep)) as Hinv'.
  unfold pinv; cbn [fst snd]. split.
  - intros t' ts' Ht'. apply lookup_insert_Some in Ht' as [[<- <-]|[Hne Ht']]; [done|].
    destruct (call_other_frame w P t ts w' ss' t' ts') as [Htls Hmem]; [done..|congruence|done|].
    by apply (thread_ok_frame w); [apply Hall|..].
  - apply pool_apart_insert; [done|]. intros t2 ts2 Hne H2. exact (Hap t t2 ts ts2 (not_eq_sym Hne) Ht H2).
Qed.

Lemma store_pinv w P a v :
  pinv p (w, P) ->
  map_Forall (fun _ ts => Forall (fun s => ~ in_scope p (extent s) a) (live ts)) P ->
  pinv p (world_store w a v, P).
Proof.
  intros [Hall Hap] Hout. unfold pinv; cbn [fst snd]. split; [|done]. intros t ts Ht.
  destruct (Hall t ts Ht) as [Hinv Hst]. split; [|done].
  exact (step_inv Hdbg t _ _ Hinv (step_native_store p t w (live ts) a v (Hout t ts Ht))).
Qed.

Lemma attach_pinv w P t lo hi w' :
  pinv p (w, P) -> P !! t = None ->
  map_Forall (fun _ ts => stacks_apart (mkThreadState lo hi []) ts) P ->
  Thread_Init t w = inr (tt, w') ->
  pinv p (w', <[t := mkThreadState lo hi []]> P).
Proof.
  intros [Hall Hap] Hnone Hnew Hrun. injection Hrun as <-. unfold pinv; cbn [fst snd]. split.
  - intros t' ts' Ht'. apply lookup_insert_Some in Ht' as [[<- <-]|[Hne Ht']].
    + split; [apply init_inv; simpl; apply lookup_insert_eq|constructor].
    + apply (thread_ok_frame w); [by apply Hall| |done]. simpl. by apply lookup_insert_ne.
  - apply pool_apart_insert; [done|]. intros t2 ts2 _ H2. exact (Hnew t2 ts2 H2).
Qed.

Lemma set_live_live ts : set_live ts (live ts) = ts.
Proof. by destruct ts. Qed.

(** A collection over threads of the pool keeps the invariant: each
    thread's walk is a [step_collect] of that thread. *)
Lemma visit_pinv {A} (cb : A -> Z -> A * Z) fuel w P l arg arg' w' :
  pinv p (w, P) -> Forall (fun t => is_Some (P !! t)) l ->
  ThreadList_VisitRoots p cb fuel l arg w = inr (arg', w') -> pinv p (w', P).
Proof.
  revert w arg. induction l as [|t l IH]; intros w arg Hinv Hl Hrun.
  { by injection Hrun as <- <-. }
  apply Forall_cons in Hl as [[ts Ht] Hl].
  apply se_bind_inr_inv in Hrun as (arg1 & w1 & Hv & Hrun).
  apply (IH w1 arg1); [|done|done].
  rewrite <- (insert_id P t ts Ht), <- (set_live_live ts) at 1.
  apply (call_pinv w P t ts); [done|done| |exact (proj2 (proj1 Hinv t ts Ht))].
  by apply (step_collect p t cb fuel arg arg1).
Qed.

Lemma pstep_pinv cfg cfg' : pinv p cfg -> pstep p cfg cfg' -> pinv p cfg'.
Proof.
  intros Hinv Hstep. destruct Hstep as [t ts w P w' ss' Ht Hc Hss'|w P a v Hout
                                      |t lo hi w w' P Hnone _ Hnew Hrun|A cb fuel arg arg' w w' P Hrun].
  - by apply (call_pinv w P t ts).
  - by apply store_pinv.
  - by apply (attach_pinv w P t lo hi).
  - apply (visit_pinv cb fuel w P (thread_ids P) arg arg'); [done| |done].
    apply Forall_forall. intros t Ht. apply list_elem_of_fmap in Ht as ([t' ts] & -> & Hts).
    apply elem_of_map_to_list in Hts. by exists ts.
Qed.

Lemma rtc_pinv cfg cfg' : pinv p cfg -> rtc (pstep p) cfg cfg' -> pinv p cfg'.
Proof. intros Hinv Hrtc. induction Hrtc; eauto using pstep_pinv. Qed.

Lemma empty_pinv w : pinv p (w, ∅).
Proof. split; [apply map_Forall_empty|]. cbn [snd]. intros ????? H1. by simplify_map_eq. Qed.

(** Every listed thread of an invariant pool has a represented chain. *)
Lemma pinv_chains w P l :
  pinv p (w, P) -> Forall (fun t => is_Some (P !! t)) l ->
  exists cs, Forall2 (fun t c => exists ts, P !! t = Some ts /\
                        Forall2 (owns t) (live ts) c /\ world_rep p w t c) l cs.
Proof.
  intros [Hall _]. induction 1 as [|t l [ts Ht] _ [cs IH]]; [by exists []|].
  destruct (Hall t ts Ht) as [(c & Hw & Hown) _]. exists (c :: cs). constructor; [|done].
  by exists ts.
Qed.

Lemma thread_ids_in P : Forall (fun t => is_Some (P !! t)) (thread_ids P).
Proof.
  apply Forall_forall. intros t Ht. apply list_elem_of_fmap in Ht as ([t' ts] & -> & Hts).
  apply elem_of_map_to_list in Hts. by exists ts.
Qed.

(** The recording collection over a list of represented threads. *)
Lemma ThreadList_VisitRoots_record w fuel l cs acc :
  Forall2 (fun t c => world_rep p w t c /\ (length c <= fuel)%nat) l cs ->
  ThreadList_VisitRoots p record_root fuel l acc w = inr (acc ++ concat (map a_roots cs), w).
Proof.
  intros Hl. revert acc. induction Hl as [|t c l cs [Hw Hf] _ IH]; intros acc.
  { by rewrite app_nil_r. }
  cbn [ThreadList_VisitRoots]. rewrite (se_bind_inr _ _ _ _ _ (HandleScopeVisitRoots_record w t c fuel acc Hw Hf)).
  rewrite IH. simpl. by rewrite app_assoc.
Qed.

(** Destroying a thread's objects innermost first, as pool steps. *)
Lemma unwind_pool_sim t ts ss : forall w P c,
  P !! t = Some (set_live ts ss) -> world_rep p w t c -> Forall2 (owns t) ss c ->
  Forall (fun s => on_stack p ts (extent s)) ss ->
  exists w', rtc (pstep p) (w, P) (w', <[t := set_live ts []]> P) /\ tls_top w' !! t = Some nullptr.
Proof.
  induction ss as [|s ss IH]; intros w P c Ht Hw Hown Hst.
  { apply Forall2_nil_inv_l in Hown as ->. exists w. rewrite insert_id by done.
    split; [done|apply Hw]. }
  destruct c as [|a c']; [by apply Forall2_cons_nil_inv in Hown|].
  apply Forall2_cons in Hown as [(Hb & Hself & _) Hown']. apply Forall_cons in Hst as [_ Hst'].
  destruct (dtor_sim p w t a c' s Hw Hb Hself) as (Hrun & Hw').
  destruct (IH _ (<[t := set_live ts ss]> P) c' ltac:(apply lookup_insert_eq) Hw' Hown' Hst')
    as (w' & Hrtc & Htop).
  exists w'. split; [|done]. rewrite insert_insert_eq in Hrtc. eapply rtc_l; [|exact Hrtc].
  exact (pstep_call p t (set_live ts (s :: ss)) w P _ ss Ht (step_close p t w s ss _ Hrun) Hst').
Qed.

(** C31 (invariant): in a debug build, in every pool reachable from no
    threads (threads attach, call their code in any interleaving, native
    code stores outside the live scopes, and collections over all threads
    move objects), every thread's chain represents the abstract stack of
    its live [StackHandleScope] objects, which lie on its own stack, and
    the threads' stacks are pairwise disjoint. *)
Theorem reachable_pinv w0 cfg : rtc (pstep p) (w0, ∅) cfg -> pinv p cfg.
Proof. intros Hrtc. eapply rtc_pinv; [apply empty_pinv|exact Hrtc]. Qed.

(** C32 (safety): in every reachable pool, a call of one thread's code
    leaves the abstract stack of every other thread as it was: its chain
    head and the bytes of its scopes are untouched (the chains are private
    to their threads). *)
Theorem call_private w0 w P t ts t' ts' w' ss' c' :
  rtc (pstep p) (w0, ∅) (w, P) -> P !! t = Some ts -> P !! t' = Some ts' -> t' <> t ->
  code_step p t (w, live ts) (w', ss') -> Forall (fun s => on_stack p ts (extent s)) ss' ->
  world_rep p w t' c' -> Forall2 (owns t') (live ts') c' -> world_rep p w' t' c'.
Proof.
  intros Hrtc Ht Ht' Hne Hstep Hss' Hw Hown.
  pose proof (rtc_pinv _ _ (empty_pinv w0) Hrtc) as Hinv.
  destruct (call_other_frame w P t ts w' ss' t' ts' Hinv Ht Hstep Hss' Hne Ht') as [Htls Hmem].
  apply (world_rep_stack_frame w w' t' ts'); [done| |done|done].
  eapply on_stack_chain; [exact Hown|exact (proj2 (proj1 Hinv t' ts' Ht'))].
Qed.

(** C33 (refinement): in every reachable pool, a collection over all
    threads with [ThreadList::VisitRoots], given as much fuel as the
    longest chain, records every thread's roots: thread after thread in
    the runtime's list, each thread's non-null slots innermost scope
    first, and changes nothing. *)
Theorem reachable_all_roots w0 w P :
  rtc (pstep p) (w0, ∅) (w, P) ->
  exists cs, Forall2 (fun t c => exists ts, P !! t = Some ts /\
                        Forall2 (owns t) (live ts) c /\ world_rep p w t c) (thread_ids P) cs /\
    forall fuel, Forall (fun c => (length c <= fuel)%nat) cs ->
      ThreadList_VisitRoots p record_root fuel (thread_ids P) [] w = inr (concat (map a_roots cs), w).
Proof.
  intros Hrtc. pose proof (rtc_pinv _ _ (empty_pinv w0) Hrtc) as Hinv.
  destruct (pinv_chains w P _ Hinv (thread_ids_in P)) as [cs Hcs].
  exists cs. split; [done|]. intros fuel Hf.
  apply (ThreadList_VisitRoots_record w fuel _ cs []).
  apply Forall2_same_length_lookup_2; [exact (Forall2_length _ _ _ Hcs)|].
  intros i t c Hi Hc. split.
  - by destruct (Forall2_lookup_lr _ _ _ _ _ _ Hcs Hi Hc) as (ts & _ & _ & Hw).
  - exact (Forall_lookup_1 _ _ _ _ Hf Hc).
Qed.

(** C34 (liveness): in every reachable pool, any thread can unwind on its
    own: destroying its live objects innermost first are pool steps that
    never fail and end with the thread's chain empty, whatever the other
    threads hold. *)
Theorem reachable_thread_unwind w0 w P t ts :
  rtc (pstep p) (w0, ∅) (w, P) -> P !! t = Some ts ->
  exists w', rtc (pstep p) (w, P) (w', <[t := set_live ts []]> P) /\ tls_top w' !! t = Some nullptr.
Proof.
  intros Hrtc Ht. pose proof (rtc_pinv _ _ (empty_pinv w0) Hrtc) as [Hall _].
  destruct (Hall t ts Ht) as [(c & Hw & Hown) Hst].
  apply (unwind_pool_sim t ts (live ts) w P c); [by rewrite set_live_live|done|done|done].
Qed.

End Invariant.

(** ** Witnesses *)

#[local] Existing Instance debug_build.

(** Two threads attach and thread 100 constructs a scope of one slot and
    stores object 41 in it. *)
Lemma demo_pool_reachable :
  rtc (pstep 8) (mkWorld ∅ ∅, ∅)
    (demo_pool_world, demo_pool [mkStackHandleScope 1000 1 100 1]).
Proof.
  set (w1 := mkWorld ∅ (<[100 := nullptr]> ∅)).
  set (w2 := mkWorld ∅ (<[200 := nullptr]> (<[100 := nullptr]> ∅))).
  set (w3 := mkWorld {[1000 := 0; 1008 := 1; 1012 := 0]} {[100 := 1000; 200 := 0]}).
  set (P2 := <[200 := mkThreadState 3000 4000 []]> (<[100 := mkThreadState 1000 2000 []]> ∅) : Pool).
  set (s := mkStackHandleScope 1000 1 100 0).
  apply (rtc_l _ _ (w1, <[100 := mkThreadState 1000 2000 []]> ∅)).
  { apply pstep_attach; [reflexivity|lia|apply map_Forall_empty|reflexivity]. }
  apply (rtc_l _ _ (w2, P2)).
  { apply pstep_attach; [reflexivity|lia| |reflexivity].
    apply map_Forall_insert_2; [unfold stacks_apart; simpl; lia|apply map_Forall_empty]. }
  assert (Hon : forall s', this_ s' = 1000 -> kNumReferences s' = 1 ->
            Forall (fun t => on_stack 8 (mkThreadState 1000 2000 []) (extent t)) [s']).
  { intros s' Hb Hk. constructor; [|constructor]. unfold on_stack, extent, scope_end, a_count,
      ReferencesOffset, sizeof_StackReference, sizeof_uint32. simpl. rewrite Hb, Hk. simpl. lia. }
  apply (rtc_l _ _ (w3, <[100 := set_live (mkThreadState 1000 2000 []) [s]]> P2)).
  { apply pstep_call; [reflexivity| |by apply Hon].
    apply (step_open 8 100 w2 [] 1 1000); [lia|apply scope_okb_sound; vm_compute; reflexivity|constructor|].
    vm_compute. reflexivity. }
  apply rtc_once. unfold demo_pool.
  rewrite <- (insert_insert_eq P2 100 (mkThreadState 1000 2000 [mkStackHandleScope 1000 1 100 1])
                (set_live (mkThreadState 1000 2000 []) [s])).
  change (mkThreadState 1000 2000 [mkStackHandleScope 1000 1 100 1])
    with (set_live (set_live (mkThreadState 1000 2000 []) [s]) (<[0%nat := mkStackHandleScope 1000 1 100 1]> [s])).
  apply pstep_call; [apply lookup_insert_eq| |by apply Hon].
  apply (step_new_handle 8 100 w3 [s] 0 s 41 (mkHandle 1012)); [reflexivity|].
  vm_compute. reflexivity.
Qed.

Lemma reachable_pinv_witness :
  pinv 8 (demo_pool_world, demo_pool [mkStackHandleScope 1000 1 100 1]).
Proof.
  exact (@reachable_pinv 8 ltac:(right; reflexivity) debug_build eq_refl (mkWorld ∅ ∅) _
           demo_pool_reachable).
Defined.

Lemma call_private_witness :
  exists w' s2, code_step 8 200 (demo_pool_world, []) (w', [s2]) /\
    world_rep 8 w' 100 [mkAScope 1000 [41]].
Proof.
  destruct (StackHandleScope_ctor 8 1 3000 200 demo_pool_world) as [e|[s2 w']] eqn:Hrun;
    [vm_compute in Hrun; discriminate|].
  assert (Hs2 : s2 = mkStackHandleScope 3000 1 200 0) by (vm_compute in Hrun; congruence).
  assert (Hc : code_step 8 200 (demo_pool_world, []) (w', [s2])).
  { apply (step_open 8 200 demo_pool_world [] 1 3000 s2 w');
      [lia|apply scope_okb_sound; vm_compute; reflexivity|constructor|exact Hrun]. }
  exists w', s2. split; [exact Hc|].
  apply (@call_private 8 ltac:(right; reflexivity) debug_build eq_refl (mkWorld ∅ ∅) demo_pool_world
           (demo_pool [mkStackHandleScope 1000 1 100 1]) 200 (mkThreadState 3000 4000 [])
           100 (mkThreadState 1000 2000 [mkStackHandleScope 1000 1 100 1]) w' [s2]);
    [exact demo_pool_reachable|reflexivity|reflexivity|lia|exact Hc| |
     apply world_repb_sound; vm_compute; reflexivity|].
  - constructor; [|constructor]. rewrite Hs2. unfold on_stack, scope_end, a_count, ReferencesOffset,
      sizeof_StackReference, sizeof_uint32. simpl. lia.
  - constructor; [|constructor]. unfold owns, a_count. simpl. lia.
Defined.

Lemma reachable_all_roots_witness :
  exists cs, ThreadList_VisitRoots 8 record_root 1
      (thread_ids (demo_pool [mkStackHandleScope 1000 1 100 1])) [] demo_pool_world =
    inr (concat (map a_roots cs), demo_pool_world) /\ concat (map a_roots cs) = [41].
Proof.
  destruct (@reachable_all_roots 8 ltac:(right; reflexivity) debug_build eq_refl (mkWorld ∅ ∅)
      demo_pool_world (demo_pool [mkStackHandleScope 1000 1 100 1]) demo_pool_reachable)
    as (cs & Hcs & Hvisit).
  assert (Hf : Forall (fun c => (length c <= 1)%nat) cs).
  { eapply (Forall2_Forall_transport _ (fun _ => True)); [exact Hcs|apply Forall_true; done|].
    intros t c (ts & Hts & Hown & _) _. rewrite <- (Forall2_length _ _ _ Hown).
    unfold demo_pool in Hts.
    repeat (apply lookup_insert_Some in Hts as [[_ <-]|[_ Hts]]; [simpl; lia|]).
    by rewrite lookup_empty in Hts. }
  pose proof (Hvisit 1%nat Hf) as Hrun.
  exists cs. split; [exact Hrun|].
  assert (Hc : ThreadList_VisitRoots 8 record_root 1
      (thread_ids (demo_pool [mkStackHandleScope 1000 1 100 1])) [] demo_pool_world =
      inr ([41], demo_pool_world)) by (vm_compute; reflexivity).
  rewrite Hc in Hrun. by injection Hrun as <-.
Defined.

Lemma reachable_thread_unwind_witness :
  exists w', rtc (pstep 8) (demo_pool_world, demo_pool [mkStackHandleScope 1000 1 100 1])
      (w', <[100 := mkThreadState 1000 2000 []]> (demo_pool [mkStackHandleScope 1000 1 100 1])) /\
    tls_top w' !! 100 = Some nullptr.
Proof.
  exact (@reachable_thread_unwind 8 ltac:(right; reflexivity) debug_build eq_refl (mkWorld ∅ ∅)
           demo_pool_world _ 100 (mkThreadState 1000 2000 [mkStackHandleScope 1000 1 100 1])
           demo_pool_reachable eq_refl).
Defined.

End Threads.
