(* ===== verification/MutatorLock.v ===== *)
(** The mutator lock behind the [SHARED_LOCKS_REQUIRED(Locks::mutator_lock_)]
    annotations of [GetReference], [GetHandle], [SetReference],
    [NewHandle] and [NewHandleWrapper].  [Locks::mutator_lock_]
    (base/mutex.h, outside [src/]) is a reader-writer lock: a thread in
    the [kRunnable] state holds it shared and may touch its handle
    scopes; a suspended thread (or one in native code) does not.  The
    collector takes it exclusively ([ThreadList::SuspendAll], once every
    thread is suspended), walks the threads one at a time, and releases it
    ([ResumeAll]); while it holds the lock no thread can become runnable,
    but native code may still store outside the scopes and new threads may
    attach.  The runtime is a step relation over the world, the pool of
    [Threads], each thread's run state and the collector's phase; the
    collector's phase records the result an atomic walk would have had at
    [SuspendAll] (ghost state, used only by the theorems).  The lemmas
    show that the lock excludes mutators from the whole walk, that every
    run is a run of the pool of [Threads], and that the walk, interleaved
    with everything the lock allows, returns what an atomic walk returns. *)

From S2P Require Import Prelude Layout Memory Handle HandleScope Thread StackHandleScope Refinement Execution Threads.
Import Layout Memory Handle HandleScope Thread StackHandleScope Refinement Execution Threads.
From stdpp Require Import relations.

Local Open Scope Z_scope.
Local Open Scope hs_scope.

Module MutatorLock.

(** The two [ThreadState]s of thread_state.h that matter to the lock. *)
Inductive RunState := kRunnable | kSuspended.

#[export] Instance RunState_eq_dec : EqDecision RunState.
Proof. solve_decision. Defined.

(** The collector: idle, or holding the lock exclusively with the threads
    [todo] still to visit, its callback's state [arg], and (ghost) the
    result of an atomic walk at [SuspendAll]. *)
Inductive GcPhase (A : Type) :=
| GcIdle
| GcVisiting (todo : list Z) (arg : A) (expected : option A).
Arguments GcIdle {A}.
Arguments GcVisiting {A} _ _ _.

Record LConfig (A : Type) := mkLConfig {
  lworld : World;
  lpool : Pool;
  lstates : gmap Z RunState;
  lgc : GcPhase A
}.
Arguments mkLConfig {A} _ _ _ _.
Arguments lworld {A} _.
Arguments lpool {A} _.
Arguments lstates {A} _.
Arguments lgc {A} _.

(** The value a run returns, if it returns. *)
Definition se_result {S B} (r : fault + (B * S)) : option B :=
  match r with inr (b, _) => Some b | inl _ => None end.

Section Lock.
Context (p : Z) {bc : BuildConfig} {A : Type} (callback : A -> Z -> A * Z) (fuel : nat) (arg0 : A).

(** [Thread::TransitionFromSuspendedToRunnable]: the shared acquire of
    the mutator lock, which blocks while the collector holds it. *)
Definition TransitionFromSuspendedToRunnable (t : Z) (c : LConfig A) : option (LConfig A) :=
  match lgc c, lstates c !! t with
  | GcIdle, Some kSuspended =>
      Some (mkLConfig (lworld c) (lpool c) (<[t := kRunnable]> (lstates c)) GcIdle)
  | _, _ => None
  end.

(** [Thread::TransitionFromRunnableToSuspended]: the shared release. *)
Definition TransitionFromRunnableToSuspended (t : Z) (c : LConfig A) : option (LConfig A) :=
  match lstates c !! t with
  | Some kRunnable =>
      Some (mkLConfig (lworld c) (lpool c) (<[t := kSuspended]> (lstates c)) (lgc c))
  | _ => None
  end.

(** [ThreadList::SuspendAll]: the exclusive acquire, once no thread is
    runnable; the walk will visit the threads of the list. *)
Definition SuspendAll (c : LConfig A) : option (LConfig A) :=
  match lgc c with
  | GcIdle =>
      if bool_decide (map_Forall (fun _ s => s = kSuspended) (lstates c)) then
        Some (mkLConfig (lworld c) (lpool c) (lstates c)
                (GcVisiting (thread_ids (lpool c)) arg0
                   (se_result (ThreadList_VisitRoots p callback fuel (thread_ids (lpool c))
                                 arg0 (lworld c)))))
      else None
  | GcVisiting _ _ _ => None
  end.

(** One step of the runtime under the lock: a call by a runnable thread,
    a native store outside every scope, a thread attaching (suspended),
    a thread changing state, the collector taking the lock, visiting the
    next thread of its list ([ThreadList::VisitRoots]'s loop body), or
    releasing the lock ([ResumeAll]). *)
Inductive lstep : LConfig A -> LConfig A -> Prop :=
| l_call c t ts w' ss' :
    lpool c !! t = Some ts -> lstates c !! t = Some kRunnable ->
    code_step p t (lworld c, live ts) (w', ss') ->
    Forall (fun s => on_stack p ts (extent s)) ss' ->
    lstep c (mkLConfig w' (<[t := set_live ts ss']> (lpool c)) (lstates c) (lgc c))
| l_store c a v :
    map_Forall (fun _ ts => Forall (fun s => ~ in_scope p (extent s) a) (live ts)) (lpool c) ->
    lstep c (mkLConfig (world_store (lworld c) a v) (lpool c) (lstates c) (lgc c))
| l_attach c t lo hi w' :
    lpool c !! t = None -> 0 < lo <= hi ->
    map_Forall (fun _ ts => stacks_apart (mkThreadState lo hi []) ts) (lpool c) ->
    Thread_Init t (lworld c) = inr (tt, w') ->
    lstep c (mkLConfig w' (<[t := mkThreadState lo hi []]> (lpool c))
               (<[t := kSuspended]> (lstates c)) (lgc c))
| l_to_runnable c t c' :
    TransitionFromSuspendedToRunnable t c = Some c' -> lstep c c'
| l_to_suspended c t c' :
    TransitionFromRunnableToSuspended t c = Some c' -> lstep c c'
| l_suspend_all c c' :
    SuspendAll c = Some c' -> lstep c c'
| l_visit c t todo arg e arg' w' :
    lgc c = GcVisiting (t :: todo) arg e ->
    HandleScopeVisitRoots p callback fuel t arg (lworld c) = inr (arg', w') ->
    lstep c (mkLConfig w' (lpool c) (lstates c) (GcVisiting todo arg' e))
| l_resume_all c arg e :
    lgc c = GcVisiting [] arg e ->
    lstep c (mkLConfig (lworld c) (lpool c) (lstates c) GcIdle).

End Lock.

(** A runtime with no threads and the collector idle. *)
Definition lstart {A} (w0 : World) : LConfig A := mkLConfig w0 ∅ ∅ GcIdle.

(** A step taken while the collector still holds the lock. *)
Definition during_gc {A} (p : Z) {bc : BuildConfig} (callback : A -> Z -> A * Z) (fuel : nat)
    (arg0 : A) (c c' : LConfig A) : Prop :=
  lstep p callback fuel arg0 c c' /\ lgc c' <> GcIdle.

(** The abstract walk over the threads' abstract stacks, in list order:
    each thread's relocation [a_visit] when the fuel covers its chain, and
    no result from the first thread whose chain it does not cover. *)
Fixpoint a_visit_threads {A} (callback : A -> Z -> A * Z) (fuel : nat)
    (cs : list (list AScope)) (arg : A) : option A :=
  match cs with
  | [] => Some arg
  | ch :: cs' =>
      if decide (length ch <= fuel)%nat
      then a_visit_threads callback fuel cs' (a_visit callback arg ch).1
      else None
  end.

(** The chains of the threads [l], in world [w]. *)
Definition thread_chains (p : Z) (w : World) (P : Pool) (l : list Z) (cs : list (list AScope)) : Prop :=
  Forall2 (fun t ch => exists ts, P !! t = Some ts /\
             Forall2 (owns t) (live ts) ch /\ world_rep p w t ch) l cs.

(** The lock's invariant: the pool's invariant, a run state for exactly
    the pool's threads, and, while the collector holds the lock, no
    runnable thread and an expected result that is the abstract walk over
    the chains still to visit. *)
Definition linv {A} (p : Z) (callback : A -> Z -> A * Z) (fuel : nat) (c : LConfig A) : Prop :=
  pinv p (lworld c, lpool c) /\
  (forall t, is_Some (lpool c !! t) <-> is_Some (lstates c !! t)) /\
  match lgc c with
  | GcIdle => True
  | GcVisiting todo arg e =>
      map_Forall (fun _ s => s = kSuspended) (lstates c) /\ NoDup todo /\
      exists cs, thread_chains p (lworld c) (lpool c) todo cs /\
                 e = a_visit_threads callback fuel cs arg
  end.

(** Thread 100 (stack [1000, 2000)) attached, made runnable, holding
    object 41 in a [StackHandleScope<1>] at 1000, and suspended again
    (64-bit): the start of the concrete runs of the witnesses. *)
Definition lock_demo_world : World :=
  mkWorld {[1000 := 0; 1008 := 1; 1012 := 41]} {[100 := 1000]}.

Definition lock_demo : LConfig (list Z) :=
  mkLConfig lock_demo_world {[100 := mkThreadState 1000 2000 [mkStackHandleScope 1000 1 100 1]]}
    {[100 := kSuspended]} GcIdle.

Lemma Forall2_Forall_impl {X Y} (P : X -> Prop) (R R' : X -> Y -> Prop) l k :
  Forall P l -> Forall2 R l k -> (forall x y, P x -> R x y -> R' x y) -> Forall2 R' l k.
Proof. intros HP HR Himp. induction HR; inversion HP; constructor; eauto. Qed.

Section Frames.
Context `{PointerSize p}.

(** A store outside a thread's scopes keeps its chain. *)
Lemma world_rep_store_outside w t ts ch a v :
  world_rep p w t ch -> Forall2 (owns t) (live ts) ch ->
  Forall (fun s => ~ in_scope p (extent s) a) (live ts) ->
  world_rep p (world_store w a v) t ch.
Proof.
  intros (Ht & Hc & Hok) Hown Hout. split; [done|]. split; [|done].
  apply chain_rep_insert_outside; [done| |done].
  eapply Forall2_Forall_transport; [exact Hown|exact Hout|].
  intros s b Ho Hn. by eapply in_scope_owned.
Qed.

(** Setting another thread's head keeps a thread's chain. *)
Lemma world_rep_tls_other w t t' v ch :
  t <> t' -> world_rep p w t' ch -> world_rep p (mkWorld (mem w) (<[t := v]> (tls_top w))) t' ch.
Proof. intros Hne (Ht & Hc & Hok). split; [simpl; by rewrite lookup_insert_ne|done]. Qed.

End Frames.

Section Walk.
Context `{PointerSize p} {bc : BuildConfig} (Hdbg : kIsDebugBuild = true).

(** The collector's visit of one thread of an invariant pool: with fuel
    for its chain it is the abstract relocation, keeps the pool's
    invariant and every other thread's chain; with less it runs out. *)
Lemma visit_one {A} (cb : A -> Z -> A * Z) fuel w P t ts ch arg :
  pinv p (w, P) -> P !! t = Some ts -> world_rep p w t ch -> Forall2 (owns t) (live ts) ch ->
  ((length ch <= fuel)%nat ->
   exists w', HandleScopeVisitRoots p cb fuel t arg w = inr ((a_visit cb arg ch).1, w') /\
     pinv p (w', P) /\
     forall t' ts' ch', t' <> t -> P !! t' = Some ts' -> world_rep p w t' ch' ->
       Forall2 (owns t') (live ts') ch' -> world_rep p w' t' ch') /\
  ((fuel < length ch)%nat -> HandleScopeVisitRoots p cb fuel t arg w = inl OutOfFuel).
Proof.
  intros Hinv Ht Hw Hown. destruct (VisitChain_moving cb t ch [] fuel arg w Hw) as [H1 H2].
  rewrite (HandleScopeVisitRoots_top p cb fuel t arg w _ (proj1 Hw)). split; [|done].
  intros Hf. destruct (H1 Hf) as (w' & Hrun & _). exists w'. split; [done|].
  pose proof (proj2 (proj1 Hinv t ts Ht)) as Hon.
  assert (Hstep : code_step p t (w, live ts) (w', live ts)).
  { apply (step_collect p t cb fuel arg (a_visit cb arg ch).1).
    by rewrite (HandleScopeVisitRoots_top p cb fuel t arg w _ (proj1 Hw)). }
  split.
  - pose proof (call_pinv Hdbg w P t ts w' (live ts) Hinv Ht Hstep Hon) as Hp.
    by rewrite set_live_live, insert_id in Hp.
  - intros t' ts' ch' Hne Ht' Hw' Hown'.
    destruct (call_other_frame Hdbg w P t ts w' (live ts) t' ts' Hinv Ht Hstep Hon Hne Ht')
      as [Htls Hmem].
    apply (world_rep_stack_frame w w' t' ts'); [done| |done|done].
    eapply on_stack_chain; [exact Hown'|exact (proj2 (proj1 Hinv t' ts' Ht'))].
Qed.

(** The atomic walk over distinct threads of an invariant pool returns
    the abstract walk over their chains. *)
Lemma ThreadList_VisitRoots_abstract {A} (cb : A -> Z -> A * Z) fuel w P l cs arg :
  pinv p (w, P) -> NoDup l -> thread_chains p w P l cs ->
  se_result (ThreadList_VisitRoots p cb fuel l arg w) = a_visit_threads cb fuel cs arg.
Proof.
  intros Hinv Hnd Hcs. revert w arg cs Hinv Hcs.
  induction Hnd as [|t l Hnot Hnd IH]; intros w arg cs Hinv Hcs; inversion Hcs as [|? ch ? cs' (ts & Ht & Hown & Hw) Hcs']; subst; [done|].
  destruct (visit_one cb fuel w P t ts ch arg Hinv Ht Hw Hown) as [H1 H2].
  cbn [ThreadList_VisitRoots a_visit_threads]. destruct (decide (length ch <= fuel)%nat) as [Hf|Hf].
  - destruct (H1 Hf) as (w' & Hrun & Hinv' & Hfr). rewrite (se_bind_inr _ _ _ _ _ Hrun).
    apply IH; [done|]. unfold thread_chains in *.
    eapply (Forall2_Forall_impl (fun t' => t' <> t)); [|exact Hcs'|].
    + apply Forall_forall. intros x Hx ->. by apply Hnot.
    + intros t' ch' Hne (ts' & Ht' & Hown' & Hw'). exists ts'. eauto.
  - by rewrite (se_bind_inl _ _ _ _ (H2 ltac:(lia))).
Qed.

End Walk.

Section Invariant.
Context `{PointerSize p} {bc : BuildConfig} (Hdbg : kIsDebugBuild = true).
Context {A : Type} (cb : A -> Z -> A * Z) (fuel : nat) (arg0 : A).

Lemma thread_chains_impl w w' P P' l cs (Q : Z -> Prop) :
  Forall Q l -> thread_chains p w P l cs ->
  (forall t ts ch, Q t -> P !! t = Some ts -> Forall2 (owns t) (live ts) ch -> world_rep p w t ch ->
     P' !! t = Some ts /\ world_rep p w' t ch) ->
  thread_chains p w' P' l cs.
Proof.
  intros HQ Hcs Himp. eapply Forall2_Forall_impl; [exact HQ|exact Hcs|].
  intros t ch Hq (ts & Ht & Hown & Hw). destruct (Himp t ts ch Hq Ht Hown Hw). by exists ts.
Qed.

(** Inserting at a key both maps have keeps the same keys. *)
Lemma dom_iff_insert {V W} (P : gmap Z V) (S : gmap Z W) t x y :
  (forall t', is_Some (P !! t') <-> is_Some (S !! t')) ->
  forall t', is_Some (<[t := x]> P !! t') <-> is_Some (<[t := y]> S !! t').
Proof. intros Hd t'. rewrite !lookup_insert_is_Some'. by rewrite Hd. Qed.

Lemma dom_iff_insert_r {V W} (P : gmap Z V) (S : gmap Z W) t y :
  (forall t', is_Some (P !! t') <-> is_Some (S !! t')) -> is_Some (P !! t) ->
  forall t', is_Some (P !! t') <-> is_Some (<[t := y]> S !! t').
Proof. intros Hd Ht t'. rewrite lookup_insert_is_Some', <- Hd. naive_solver. Qed.

Lemma dom_iff_insert_l {V W} (P : gmap Z V) (S : gmap Z W) t x :
  (forall t', is_Some (P !! t') <-> is_Some (S !! t')) -> is_Some (S !! t) ->
  forall t', is_Some (<[t := x]> P !! t') <-> is_Some (S !! t').
Proof. intros Hd Ht t'. rewrite lookup_insert_is_Some', Hd. naive_solver. Qed.

Lemma suspended_not_runnable (S : gmap Z RunState) t :
  map_Forall (fun _ s => s = kSuspended) S -> S !! t = Some kRunnable -> False.
Proof. intros Hs Ht. by specialize (Hs t _ Ht). Qed.

(** The collector's step keeps the invariant: the visited thread's
    chain is relocated, the others' are kept, and the expected result is
    the abstract walk over the rest. *)
Lemma visit_linv c t todo arg e arg' w' :
  linv p cb fuel c -> lgc c = GcVisiting (t :: todo) arg e ->
  HandleScopeVisitRoots p cb fuel t arg (lworld c) = inr (arg', w') ->
  linv p cb fuel (mkLConfig w' (lpool c) (lstates c) (GcVisiting todo arg' e)).
Proof.
  intros (Hp & Hdom & Hgc) Hv Hrun. rewrite Hv in Hgc.
  destruct Hgc as (Hsus & Hnd & cs & Hcs & He). apply NoDup_cons in Hnd as [Hnot Hnd].
  inversion Hcs as [|? ch ? cs' (ts & Ht & Hown & Hw) Hcs']; subst.
  destruct (visit_one Hdbg cb fuel _ _ t ts ch arg Hp Ht Hw Hown) as [H1 H2].
  destruct (decide (length ch <= fuel)%nat) as [Hf|Hf]; [|by rewrite H2 in Hrun by lia].
  destruct (H1 Hf) as (w'' & Hrun' & Hp' & Hfr). rewrite Hrun' in Hrun. injection Hrun as <- <-.
  split; [done|]. split; [done|]. cbn [lgc lstates lworld lpool]. split; [done|]. split; [done|].
  exists cs'. split.
  - eapply (thread_chains_impl _ _ _ _ _ _ (fun t' => t' <> t)); [|done|].
    + apply Forall_forall. intros x Hx ->. by apply Hnot.
    + intros t' ts' ch' Hne Ht' Hown' Hw'. split; [done|]. eauto.
  - simpl. by rewrite decide_True.
Qed.

Lemma lstep_linv c c' : linv p cb fuel c -> lstep p cb fuel arg0 c c' -> linv p cb fuel c'.
Proof.
  intros Hl Hstep. pose proof Hl as (Hp & Hdom & Hgc).
  destruct Hstep as [c t ts w' ss' Ht Hrun Hc Hon|c a v Hout|c t lo hi w' Hnone Hlo Hnew Hinit
                    |c t c' Htr|c t c' Htr|c c' Hsa|c t todo arg e arg' w' Hv Hrun|c arg e Hv];
    cbn [lworld lpool lstates lgc].
  - split; [by apply (call_pinv Hdbg (lworld c) (lpool c) t ts)|]. split; [by apply dom_iff_insert_l; [|exists kRunnable]|].
    cbn [lgc]. destruct (lgc c); [done|]. exfalso. by eapply suspended_not_runnable; [apply Hgc|].
  - split; [by apply store_pinv|]. split; [done|]. cbn [lgc lworld lpool lstates].
    destruct (lgc c) as [|todo arg e]; [done|]. destruct Hgc as (Hsus & Hnd & cs & Hcs & He).
    do 2 (split; [done|]). exists cs. split; [|done].
    eapply (thread_chains_impl _ _ _ _ _ _ (fun _ => True)); [by apply Forall_true|done|].
    intros t ts ch _ Ht Hown Hw. split; [done|].
    apply (world_rep_store_outside _ _ ts); [done|done|exact (Hout t ts Ht)].
  - split; [by apply (attach_pinv (lworld c) (lpool c) t lo hi)|]. split; [by apply dom_iff_insert|].
    cbn [lgc lworld lpool lstates]. destruct (lgc c) as [|todo arg e]; [done|].
    destruct Hgc as (Hsus & Hnd & cs & Hcs & He). split; [by apply map_Forall_insert_2|].
    split; [done|]. exists cs. split; [|done]. injection Hinit as <-.
    eapply (thread_chains_impl _ _ _ _ _ _ (fun _ => True)); [by apply Forall_true|done|].
    intros t' ts ch _ Ht Hown Hw. assert (t <> t') by congruence.
    split; [by rewrite lookup_insert_ne|by apply world_rep_tls_other].
  - unfold TransitionFromSuspendedToRunnable in Htr.
    destruct (lgc c) eqn:Hg; [|done]. destruct (lstates c !! t) as [[]|] eqn:Hs; try done.
    injection Htr as <-. split; [done|]. split; [|done]. apply dom_iff_insert_r; [done|].
    apply Hdom. by rewrite Hs.
  - unfold TransitionFromRunnableToSuspended in Htr.
    destruct (lstates c !! t) as [[]|] eqn:Hs; try done. injection Htr as <-.
    split; [done|]. split; [apply dom_iff_insert_r; [done|]; apply Hdom; by rewrite Hs|].
    cbn [lgc]. destruct (lgc c); [done|]. exfalso. by eapply suspended_not_runnable; [apply Hgc|].
  - unfold SuspendAll in Hsa. destruct (lgc c); [|done].
    case_bool_decide as Hsus; [|done]. injection Hsa as <-.
    split; [done|]. split; [done|]. cbn [lgc lworld lpool lstates].
    split; [done|]. split; [apply NoDup_fst_map_to_list|].
    destruct (pinv_chains _ _ _ Hp (thread_ids_in (lpool c))) as [cs Hcs].
    exists cs. split; [done|].
    apply (ThreadList_VisitRoots_abstract Hdbg _ _ _ (lpool c)); [done|apply NoDup_fst_map_to_list|done].
  - by apply (visit_linv c t todo arg e).
  - split; [done|]. by split.
Qed.

(** Each step under the lock is a step of the pool of [Threads], or
    leaves the world and the pool alone. *)
Lemma lstep_pstep c c' :
  linv p cb fuel c -> lstep p cb fuel arg0 c c' ->
  pstep p (lworld c, lpool c) (lworld c', lpool c') \/ (lworld c', lpool c') = (lworld c, lpool c).
Proof.
  intros (Hp & _ & Hgc) Hstep.
  destruct Hstep as [c t ts w' ss' Ht Hrun Hc Hon|c a v Hout|c t lo hi w' Hnone Hlo Hnew Hinit
                    |c t c' Htr|c t c' Htr|c c' Hsa|c t todo arg e arg' w' Hv Hrun|c arg e Hv].
  - left. by apply pstep_call.
  - left. by apply pstep_store.
  - left. by apply pstep_attach.
  - right. unfold TransitionFromSuspendedToRunnable in Htr.
    destruct (lgc c), (lstates c !! t) as [[]|]; try done. by injection Htr as <-.
  - right. unfold TransitionFromRunnableToSuspended in Htr.
    destruct (lstates c !! t) as [[]|]; try done. by injection Htr as <-.
  - right. unfold SuspendAll in Hsa. destruct (lgc c); [|done].
    case_bool_decide; [|done]. by injection Hsa as <-.
  - left. rewrite Hv in Hgc. destruct Hgc as (_ & _ & cs & Hcs & _).
    inversion Hcs as [|? ch ? cs' (ts & Ht & _) _]; subst.
    assert (Hs := pstep_call p t ts (lworld c) (lpool c) w' (live ts) Ht
                    (step_collect p t cb fuel arg arg' (lworld c) (live ts) w' Hrun)
                    (proj2 (proj1 Hp t ts Ht))).
    by rewrite set_live_live, insert_id in Hs.
  - by right.
Qed.

Lemma linv_start w0 : linv p cb fuel (lstart w0).
Proof.
  split; [apply empty_pinv|]. split; [|done]. intros t. cbn [lpool lstates lstart].
  rewrite !lookup_empty. done.
Qed.

(** Reachable configurations satisfy the invariant, and their world and
    pool are reachable by the pool of [Threads]. *)
Lemma lreachable_inv w0 c :
  rtc (lstep p cb fuel arg0) (lstart w0) c ->
  linv p cb fuel c /\ rtc (pstep p) (w0, ∅) (lworld c, lpool c).
Proof.
  revert c. apply (rtc_ind_r (fun c => linv p cb fuel c /\ rtc (pstep p) (w0, ∅) (lworld c, lpool c))).
  { split; [apply linv_start|done]. }
  intros c c' _ Hstep [Hl Hr]. split; [by apply (lstep_linv c)|].
  destruct (lstep_pstep c c' Hl Hstep) as [Hs|He]; [by eapply rtc_r|by rewrite He].
Qed.

(** From an invariant configuration in which the collector holds the
    lock, the walk can visit every remaining thread when the atomic walk
    would have returned. *)
Lemma gc_progress todo : forall c arg e r,
  linv p cb fuel c -> lgc c = GcVisiting todo arg e -> e = Some r ->
  exists c', rtc (during_gc p cb fuel arg0) c c' /\ lgc c' = GcVisiting [] r e.
Proof.
  induction todo as [|t todo IH]; intros c arg e r Hl Hv Her.
  { exists c. split; [done|]. pose proof Hl as (_ & _ & Hgc). rewrite Hv in Hgc |- *.
    destruct Hgc as (_ & _ & cs & Hcs & He). inversion Hcs. subst cs. simpl in He. congruence. }
  pose proof Hl as (Hp & _ & Hgc). rewrite Hv in Hgc. destruct Hgc as (_ & _ & cs & Hcs & He).
  inversion Hcs as [|? ch ? cs' (ts & Ht & Hown & Hw) _]; subst cs.
  destruct (visit_one Hdbg cb fuel _ _ t ts ch arg Hp Ht Hw Hown) as [Hv1 _].
  assert (Hf : (length ch <= fuel)%nat).
  { rewrite He in Her. simpl in Her. by destruct (decide (length ch <= fuel)%nat). }
  destruct (Hv1 Hf) as (w' & Hrun & _).
  pose proof (visit_linv c t todo arg e _ _ Hl Hv Hrun) as Hl'.
  destruct (IH _ _ e r Hl' eq_refl Her) as (c' & Hrtc & Hend).
  exists c'. split; [|done]. eapply rtc_l; [|exact Hrtc]. split; [by eapply l_visit|done].
Qed.

(** While the collector holds the lock, its recorded result is fixed. *)
Lemma during_gc_expected c c' todo arg e :
  rtc (during_gc p cb fuel arg0) c c' -> lgc c = GcVisiting todo arg e ->
  exists todo' arg', lgc c' = GcVisiting todo' arg' e.
Proof.
  intros Hr. revert todo arg. induction Hr as [c|c c1 c2 [Hstep Hne] _ IH]; intros todo arg Hv; [eauto|].
  enough (exists todo' arg', lgc c1 = GcVisiting todo' arg' e) as (? & ? & ?) by eauto.
  destruct Hstep as [| | |c t c' Htr|c t c' Htr|c c' Hsa|c t todo' arg' e' arg'' w' Hv'|];
    cbn [lgc] in *; try by eauto.
  - unfold TransitionFromSuspendedToRunnable in Htr. by rewrite Hv in Htr.
  - unfold TransitionFromRunnableToSuspended in Htr. destruct (lstates c !! t) as [[]|]; try done.
    injection Htr as <-. eauto.
  - unfold SuspendAll in Hsa. by rewrite Hv in Hsa.
  - rewrite Hv in Hv'. injection Hv' as -> -> ->. eauto.
Qed.

Lemma SuspendAll_some c c' :
  SuspendAll p cb fuel arg0 c = Some c' ->
  lworld c' = lworld c /\ lpool c' = lpool c /\
  lgc c' = GcVisiting (thread_ids (lpool c)) arg0
             (se_result (ThreadList_VisitRoots p cb fuel (thread_ids (lpool c)) arg0 (lworld c))).
Proof. unfold SuspendAll. destruct (lgc c); [|done]. case_bool_decide; [|done]. by intros [= <-]. Qed.

(** C36 (invariant): in every configuration reachable under the mutator
    lock, while the collector holds it exclusively no thread is runnable,
    and no step changes the live objects of any thread: no mutator touches
    a handle scope during the whole walk. *)
Theorem lock_excludes_mutators w0 c c' todo arg e :
  rtc (lstep p cb fuel arg0) (lstart w0) c -> lgc c = GcVisiting todo arg e ->
  map_Forall (fun _ s => s = kSuspended) (lstates c) /\
  (lstep p cb fuel arg0 c c' -> forall t ts, lpool c !! t = Some ts -> lpool c' !! t = Some ts).
Proof.
  intros Hr Hv. destruct (lreachable_inv w0 c Hr) as [(_ & _ & Hgc) _]. rewrite Hv in Hgc.
  destruct Hgc as (Hsus & _). split; [done|]. intros Hstep t0 ts0 Ht0.
  destruct Hstep as [c t ts w' ss' Ht Hrun| |c t lo hi w' Hnone|c t c' Htr|c t c' Htr|c c' Hsa| |];
    cbn [lpool]; try done.
  - exfalso. by apply (suspended_not_runnable _ t Hsus).
  - rewrite lookup_insert_ne; [done|congruence].
  - unfold TransitionFromSuspendedToRunnable in Htr. by rewrite Hv in Htr.
  - unfold TransitionFromRunnableToSuspended in Htr. destruct (lstates c !! t) as [[]|]; try done.
    by injection Htr as <-.
  - unfold SuspendAll in Hsa. by rewrite Hv in Hsa.
Qed.

(** Every run under the lock, the collector's walk split into one step per
    thread, is a run of the pool of [Threads]. *)
Lemma lock_runs_are_pool_runs w0 c :
  rtc (lstep p cb fuel arg0) (lstart w0) c -> rtc (pstep p) (w0, ∅) (lworld c, lpool c).
Proof. intros Hr. exact (proj2 (lreachable_inv w0 c Hr)). Qed.

(** C37 (equivalence): a collection under the lock is atomic.  Once
    [SuspendAll] has taken the lock, a walk that has visited every thread
    without releasing it (whatever native stores and attaches were
    interleaved) holds the callback state the atomic
    [ThreadList::VisitRoots] returns on the world at [SuspendAll]; and when
    that atomic walk returns, the interleaved walk can always finish with
    its result. *)
Theorem collection_atomic w0 c0 c1 :
  rtc (lstep p cb fuel arg0) (lstart w0) c0 -> SuspendAll p cb fuel arg0 c0 = Some c1 ->
  (forall c2 arg e, rtc (during_gc p cb fuel arg0) c1 c2 -> lgc c2 = GcVisiting [] arg e ->
     se_result (ThreadList_VisitRoots p cb fuel (thread_ids (lpool c0)) arg0 (lworld c0)) = Some arg) /\
  (forall r, se_result (ThreadList_VisitRoots p cb fuel (thread_ids (lpool c0)) arg0 (lworld c0)) = Some r ->
     exists c2 e, rtc (during_gc p cb fuel arg0) c1 c2 /\ lgc c2 = GcVisiting [] r e).
Proof.
  intros Hr Hsa. destruct (SuspendAll_some c0 c1 Hsa) as (_ & _ & Hv1).
  assert (Hr1 : rtc (lstep p cb fuel arg0) (lstart w0) c1) by (eapply rtc_r; [exact Hr|by apply l_suspend_all]).
  split.
  - intros c2 arg e Hr2 Hv2. destruct (during_gc_expected _ _ _ _ _ Hr2 Hv1) as (todo' & arg' & Hv2').
    rewrite Hv2 in Hv2'. injection Hv2' as <- <- ->.
    assert (Hr2' : rtc (lstep p cb fuel arg0) (lstart w0) c2).
    { eapply rtc_trans; [exact Hr1|]. eapply rtc_subrel; [|exact Hr2]. by intros x y [? _]. }
    destruct (lreachable_inv w0 c2 Hr2') as [(_ & _ & Hgc) _]. rewrite Hv2 in Hgc.
    destruct Hgc as (_ & _ & cs & Hcs & He). inversion Hcs. subst cs. exact He.
  - intros r Hres. destruct (gc_progress _ c1 arg0 _ r (proj1 (lreachable_inv w0 c1 Hr1)) Hv1 Hres)
      as (c2 & Hr2 & Hv2).
    by exists c2, (se_result (ThreadList_VisitRoots p cb fuel (thread_ids (lpool c0)) arg0 (lworld c0))).
Qed.



End Invariant.

#[local] Existing Instance debug_build.

Lemma lock_demo_reachable :
  rtc (lstep 8 record_root 1 []) (lstart (mkWorld ∅ ∅)) lock_demo.
Proof.
  set (w1 := mkWorld ∅ (<[100 := nullptr]> ∅)).
  set (w2 := mkWorld {[1000 := 0; 1008 := 1; 1012 := 0]} {[100 := 1000]}).
  set (ts0 := mkThreadState 1000 2000 []).
  set (s := mkStackHandleScope 1000 1 100 0).
  set (P1 := <[100 := ts0]> ∅ : Pool).
  set (R := <[100 := kRunnable]> (<[100 := kSuspended]> ∅) : gmap Z RunState).
  set (P2 := <[100 := set_live ts0 [s]]> P1).
  assert (Hon : forall s', this_ s' = 1000 -> kNumReferences s' = 1 ->
            Forall (fun t => on_stack 8 ts0 (extent t)) [s']).
  { intros s' Hb Hk. constructor; [|constructor]. unfold on_stack, extent, scope_end, a_count,
      ReferencesOffset, sizeof_StackReference, sizeof_uint32. simpl. rewrite Hb, Hk. simpl. lia. }
  apply (rtc_l _ _ (mkLConfig w1 P1 (<[100 := kSuspended]> ∅) GcIdle)).
  { apply l_attach; [reflexivity|lia|apply map_Forall_empty|reflexivity]. }
  apply (rtc_l _ _ (mkLConfig w1 P1 R GcIdle)).
  { apply (l_to_runnable _ _ _ _ _ 100). reflexivity. }
  apply (rtc_l _ _ (mkLConfig w2 P2 R GcIdle)).
  { apply l_call with (ts := ts0); [reflexivity|reflexivity| |by apply Hon].
    apply (step_open 8 100 w1 [] 1 1000); [lia|apply scope_okb_sound; vm_compute; reflexivity|constructor|].
    vm_compute. reflexivity. }
  eapply rtc_l.
  { apply l_call with (ts := set_live ts0 [s])
      (ss' := <[0%nat := mkStackHandleScope 1000 1 100 1]> [s]); [apply lookup_insert_eq|reflexivity| |by apply Hon].
    apply (step_new_handle 8 100 w2 [s] 0 s 41 (mkHandle 1012)); [reflexivity|].
    vm_compute. reflexivity. }
  apply rtc_once. apply (l_to_suspended _ _ _ _ _ 100). vm_compute. reflexivity.
Qed.

Lemma lock_demo_collecting :
  exists c, SuspendAll 8 record_root 1 [] lock_demo = Some c /\
    rtc (lstep 8 record_root 1 []) (lstart (mkWorld ∅ ∅)) c.
Proof.
  destruct (SuspendAll 8 record_root 1 [] lock_demo) as [c|] eqn:Hs; [|vm_compute in Hs; discriminate].
  exists c. split; [done|]. eapply rtc_r; [exact lock_demo_reachable|by apply l_suspend_all].
Qed.

Lemma lock_excludes_mutators_witness :
  exists c todo arg e, rtc (lstep 8 record_root 1 []) (lstart (mkWorld ∅ ∅)) c /\
    lgc c = GcVisiting todo arg e /\ map_Forall (fun _ s => s = kSuspended) (lstates c).
Proof.
  destruct lock_demo_collecting as (c & Hs & Hr).
  destruct (SuspendAll_some (p:=8) record_root 1 [] _ _ Hs) as (_ & _ & Hv).
  do 4 eexists. split; [exact Hr|]. split; [exact Hv|].
  exact (proj1 (@lock_excludes_mutators 8 ltac:(right; reflexivity) debug_build eq_refl _
           record_root 1 [] (mkWorld ∅ ∅) c c _ _ _ Hr Hv)).
Defined.


Lemma collection_atomic_witness :
  exists c0 c1, rtc (lstep 8 record_root 1 []) (lstart (mkWorld ∅ ∅)) c0 /\
    SuspendAll 8 record_root 1 [] c0 = Some c1 /\
    exists c2 e, rtc (during_gc 8 record_root 1 []) c1 c2 /\ lgc c2 = GcVisiting [] [41] e.
Proof.
  destruct (SuspendAll 8 record_root 1 [] lock_demo) as [c1|] eqn:Hs; [|vm_compute in Hs; discriminate].
  exists lock_demo, c1. split; [exact lock_demo_reachable|]. split; [exact Hs|].
  apply (proj2 (@collection_atomic 8 ltac:(right; reflexivity) debug_build eq_refl _
           record_root 1 [] (mkWorld ∅ ∅) lock_demo c1 lock_demo_reachable Hs) [41]).
  vm_compute. reflexivity.
Defined.

End MutatorLock.
